(** * D-LAN: download queue, file cache sizes and pause selection

    A shallow embedding of three translation units of D-LAN:

    - [Core/DownloadManager/priv/DownloadManager.cpp]  (module [DM]),
    - [Core/FileManager/priv/Cache/Directory.cpp]      (module [FM]),
    - [GUI/Downloads/WidgetDownloads.cpp]              (module [GUI]).

    The C++ objects become records, the member functions become functions
    on the record of the object they mutate, [QList]s become lists, and the
    calls into classes whose sources are not part of the three units are
    recorded in a trace of events.  Qt slots run to completion: every slot
    is one transition of the manager. *)

From Stdlib Require Import ZArith List Bool String Lia.
From stdpp Require Import base option list gmap strings.

(** ** Part I -- the download manager *)

Module DM.

Local Open Scope Z_scope.

(** *** Integer conversions

    [static_cast<int>] of a [quint32] and the storage of an [int] into a
    [uint32] protobuf field, on the usual 32-bit two's complement. *)

Definition to_quint32 (z : Z) : Z := z mod 2 ^ 32.

Definition to_int (z : Z) : Z :=
  let m := z mod 2 ^ 32 in if m <? 2 ^ 31 then m else m - 2 ^ 32.

(** *** Protos::Common::Entry *)

Inductive Entry_Type := Entry_Type_FILE | Entry_Type_DIR.

Definition Hash := list Byte.byte.

Record Entry := mkEntry {
  entry_type : Entry_Type;
  entry_path : string;
  entry_name : string;
  entry_size : Z;
  entry_is_empty : bool;
  entry_chunk : list Hash
}.

Definition Entry_Type_eqb (a b : Entry_Type) : bool :=
  match a, b with
  | Entry_Type_FILE, Entry_Type_FILE => true
  | Entry_Type_DIR, Entry_Type_DIR => true
  | _, _ => false
  end.

(** The four fields [isEntryAlreadyQueued] compares. *)
Definition key (e : Entry) : Entry_Type * string * string * Z :=
  (entry_type e, entry_path e, entry_name e, entry_size e).

(** *** Downloads

    Modelled from the spec: [ChunkDownload], [FileDownload] and
    [DirDownload] are declared in headers that are not part of the sources.
    Section 3 of the specification gives their attributes: a chunk has a
    status among IDLE, DOWNLOADING, COMPLETE and FAILED; a file download owns
    its entry, the identity of the source peer, a [complete] flag, a status
    and its chunk downloads; a directory download owns a [retrieving] flag.
    [chunk_connections] counts the Qt connections from the chunk's
    [downloadFinished()] signal to the manager's [chunkDownloadFinished()]
    slot.  [fd_id] and [dd_id] stand for the address of the object. *)

Inductive ChunkStatus := IDLE | DOWNLOADING | COMPLETE | FAILED.

Record ChunkDownload := mkChunkDownload {
  chunk_status : ChunkStatus;
  chunk_connections : nat
}.

Record FileDownload := mkFileDownload {
  fd_id : nat;
  fd_entry : Entry;
  fd_peerSourceID : Hash;
  fd_complete : bool;
  fd_status : Z;
  fd_chunkDownloads : list ChunkDownload
}.

Record DirDownload := mkDirDownload {
  dd_id : nat;
  dd_entry : Entry;
  dd_peerSourceID : Hash;
  dd_retrieving : bool
}.

Inductive Download :=
| File (fileDownload : FileDownload)
| Dir (dirDownload : DirDownload).

Definition getID (d : Download) : nat :=
  match d with File f => fd_id f | Dir d => dd_id d end.

Definition getEntry (d : Download) : Entry :=
  match d with File f => fd_entry f | Dir d => dd_entry d end.

Definition getPeerSourceID (d : Download) : Hash :=
  match d with File f => fd_peerSourceID f | Dir d => dd_peerSourceID d end.

(** Modelled from the spec: the numeric codes of the download status
    enumeration are not part of the sources.  Section 4.C: a new file
    download is QUEUED, or COMPLETE when it is restored with
    [complete = true]; both codes lie below the soft-error class [0x20]. *)
Definition STATUS_QUEUED : Z := 1.
Definition STATUS_COMPLETE : Z := 4.

Definition new_FileDownload (id : nat) (peerSource : Hash) (entry : Entry)
    (complete : bool) : FileDownload :=
  {| fd_id := id; fd_entry := entry; fd_peerSourceID := peerSource;
     fd_complete := complete;
     fd_status := if complete then STATUS_COMPLETE else STATUS_QUEUED;
     fd_chunkDownloads := [] |}.

Definition new_DirDownload (id : nat) (peerSource : Hash) (entry : Entry)
    : DirDownload :=
  {| dd_id := id; dd_entry := entry; dd_peerSourceID := peerSource;
     dd_retrieving := false |}.

(** *** The persisted queue (Protos::Queue::Queue) and the store *)

Record Queue_Entry := mkQueue_Entry {
  qe_entry : Entry;
  qe_peer_id : Hash;
  qe_complete : bool
}.

Record Queue := mkQueue {
  queue_version : Z;
  queue_entry : list Queue_Entry
}.

(** Modelled from the spec: [Common::PersistentData] (section 4.F) is a
    key/value store with a distinguished "missing" result on read and a
    typed failure on I/O errors.  [FILE_QUEUE] is what the store holds under
    the queue's name: nothing, bytes that do not deserialise, or a record.
    [writable] tells whether [setValue] succeeds. *)
Inductive StoredValue :=
| missing
| undecodable
| stored (q : Queue).

Record PersistentData := mkPersistentData {
  FILE_QUEUE : StoredValue;
  writable : bool
}.

(** Modelled from the spec: [Download::populateEntry] writes the triple
    (entry, peer source, complete flag) of section 3; a directory download
    has no complete flag and persists [false]. *)
Definition populateEntry (d : Download) : Queue_Entry :=
  match d with
  | File f => mkQueue_Entry (fd_entry f) (fd_peerSourceID f) (fd_complete f)
  | Dir d => mkQueue_Entry (dd_entry d) (dd_peerSourceID d) false
  end.

(** *** Trace of the calls that leave the manager *)

Inductive Event :=
| L_WARN_entry_already_queued (name : string)
| L_ERRO_version_mismatch (version : Z)
| L_WARN_queue_file_missing
| L_WARN_queue_unknown_exception
| L_ERRO_persistent_data_io
| Call_retrieveEntries (dirDownload : nat)
| Call_start (fileDownload : nat)
| Call_getAChunkToDownload (fileDownload : nat)
| Call_timer_start
| Call_connect_downloadFinished (fileDownload chunk : nat)
| Call_startDownloading (fileDownload chunk : nat) (started : bool)
| Slot_chunkDownloadFinished (fileDownload chunk : nat)
| Call_rmValue
| Call_setValue (ok : bool).

(** *** QTimer *)

Record QTimer := mkQTimer {
  interval : Z;
  singleShot : bool;
  active : bool
}.

Definition new_QTimer : QTimer := mkQTimer 0 false false.
Definition setInterval (msec : Z) (t : QTimer) : QTimer :=
  mkQTimer msec (singleShot t) (active t).
Definition setSingleShot (b : bool) (t : QTimer) : QTimer :=
  mkQTimer (interval t) b (active t).
Definition timer_start (t : QTimer) : QTimer :=
  mkQTimer (interval t) (singleShot t) true.
Definition timer_expire (t : QTimer) : QTimer :=
  mkQTimer (interval t) (singleShot t) (negb (singleShot t)).

(** *** The manager *)

Record DownloadManager := mkDownloadManager {
  NUMBER_OF_DOWNLOADER : Z;
  downloads : list Download;
  numberOfDownload : Z;
  retrievingEntries : bool;
  timer : QTimer;
  persistent : PersistentData;
  nextID : nat;
  log : list Event
}.

Definition set_downloads (ds : list Download) (this : DownloadManager) :=
  mkDownloadManager (NUMBER_OF_DOWNLOADER this) ds (numberOfDownload this)
    (retrievingEntries this) (timer this) (persistent this) (nextID this)
    (log this).

Definition set_numberOfDownload (n : Z) (this : DownloadManager) :=
  mkDownloadManager (NUMBER_OF_DOWNLOADER this) (downloads this) n
    (retrievingEntries this) (timer this) (persistent this) (nextID this)
    (log this).

Definition set_retrievingEntries (b : bool) (this : DownloadManager) :=
  mkDownloadManager (NUMBER_OF_DOWNLOADER this) (downloads this)
    (numberOfDownload this) b (timer this) (persistent this) (nextID this)
    (log this).

Definition set_timer (t : QTimer) (this : DownloadManager) :=
  mkDownloadManager (NUMBER_OF_DOWNLOADER this) (downloads this)
    (numberOfDownload this) (retrievingEntries this) t (persistent this)
    (nextID this) (log this).

Definition set_persistent (p : PersistentData) (this : DownloadManager) :=
  mkDownloadManager (NUMBER_OF_DOWNLOADER this) (downloads this)
    (numberOfDownload this) (retrievingEntries this) (timer this) p
    (nextID this) (log this).

Definition set_nextID (n : nat) (this : DownloadManager) :=
  mkDownloadManager (NUMBER_OF_DOWNLOADER this) (downloads this)
    (numberOfDownload this) (retrievingEntries this) (timer this)
    (persistent this) n (log this).

Definition emit (e : Event) (this : DownloadManager) :=
  mkDownloadManager (NUMBER_OF_DOWNLOADER this) (downloads this)
    (numberOfDownload this) (retrievingEntries this) (timer this)
    (persistent this) (nextID this) (log this ++ [e]).

Section Constants.

(** [priv/Constants.h] is not part of the sources: its two constants are
    parameters of the model. *)
Variable RESCAN_QUEUE_PERIOD_IF_ERROR : Z.
Variable FILE_QUEUE_VERSION : Z.

(** [DownloadManager::DownloadManager]: the setting [number_of_downloader]
    is read as a [quint32] and cast to [int]. *)
Definition new_DownloadManager (number_of_downloader : Z)
    (store : PersistentData) : DownloadManager :=
  {| NUMBER_OF_DOWNLOADER := to_int number_of_downloader;
     downloads := [];
     numberOfDownload := 0;
     retrievingEntries := false;
     timer := setSingleShot true
                (setInterval RESCAN_QUEUE_PERIOD_IF_ERROR new_QTimer);
     persistent := store;
     nextID := 0%nat;
     log := [] |}.

(** [DownloadManager::isEntryAlreadyQueued] *)
Definition same_key (a b : Entry) : bool :=
  Entry_Type_eqb (entry_type a) (entry_type b)
  && String.eqb (entry_path a) (entry_path b)
  && String.eqb (entry_name a) (entry_name b)
  && (entry_size a =? entry_size b).

Fixpoint isEntryAlreadyQueued_loop (i : list Download) (entry : Entry) : bool :=
  match i with
  | [] => false
  | download :: i' =>
      if same_key (getEntry download) entry then true
      else isEntryAlreadyQueued_loop i' entry
  end.

Definition isEntryAlreadyQueued (entry : Entry) (this : DownloadManager) : bool :=
  isEntryAlreadyQueued_loop (downloads this) entry.

(** Modelled from the spec: [DirDownload::retrieveEntries] sends the
    one-shot request of section 4.D; the directory download is
    [retrieving] from then on. *)
Definition retrieveEntries (d : DirDownload) : DirDownload :=
  mkDirDownload (dd_id d) (dd_entry d) (dd_peerSourceID d) true.

(** [DownloadManager::scanTheQueueToRetrieveEntries]: the loop returns the
    queue with the first directory download asked for its entries, and
    whether there was one. *)
Fixpoint scanTheQueueToRetrieveEntries_loop (i : list Download)
    : option (nat * list Download) :=
  match i with
  | [] => None
  | Dir dirDownload :: i' =>
      Some (dd_id dirDownload, Dir (retrieveEntries dirDownload) :: i')
  | File f :: i' =>
      match scanTheQueueToRetrieveEntries_loop i' with
      | Some (id, i'') => Some (id, File f :: i'')
      | None => None
      end
  end.

Definition scanTheQueueToRetrieveEntries (this : DownloadManager)
    : DownloadManager :=
  if retrievingEntries this then this
  else
    match scanTheQueueToRetrieveEntries_loop (downloads this) with
    | Some (id, ds) =>
        set_retrievingEntries true
          (emit (Call_retrieveEntries id) (set_downloads ds this))
    | None => this
    end.

(** [QMutableListIterator<Download*>]: a position between two items of the
    queue, counted from the front.  [insert] puts the item at the position
    (and moves the iterator it is called on behind it); a position behind
    the last item appends. *)
Definition iterator_insert {A} (iterator : nat) (x : A) (l : list A) : list A :=
  take iterator l ++ x :: drop iterator l.

(** [QList] is not part of the sources.  A [QMutableListIterator] is a
    pointer into the array of the list.  [insert], called on a copy of an
    iterator, moves the copy behind the new item; the iterator the copy was
    made of keeps pointing at the same place in memory.  Which position of
    the list that is afterwards depends on what [QListData::insert] did to
    the array, and this is left to an oracle:
    - it moved the items behind the position up, or appended at the end of
      the array: the other iterator is still in front of the new item;
    - it moved the items in front of the position down: the other iterator
      is now behind the new item;
    - it reallocated the array: the other iterator dangles.  C++ leaves the
      use of it undefined; [QList::insert] subtracts the start of the array
      from it and [QListData::insert] clamps the difference between the two
      ends of the list, which gives some position of the list. *)
Inductive QListData_insert :=
| moved_items_behind
| moved_items_in_front
| reallocated (position : nat).

Definition stale_iterator (moved : QListData_insert) (iterator : nat) : nat :=
  match moved with
  | moved_items_behind => iterator
  | moved_items_in_front => S iterator
  | reallocated position => position
  end.

(** [DownloadManager::addDownload(entry, peerSource, complete, iterator)].
    The iterator is passed by value: the insertion moves the callee's copy,
    not the iterator of the caller. *)
Definition addDownload_at (entry : Entry) (peerSource : Hash) (complete : bool)
    (iterator : nat) (this : DownloadManager) : DownloadManager :=
  if isEntryAlreadyQueued entry this then
    emit (L_WARN_entry_already_queued (entry_name entry)) this
  else
    match entry_type entry with
    | Entry_Type_DIR =>
        let dirDownload := new_DirDownload (nextID this) peerSource entry in
        let this := set_nextID (S (nextID this)) this in
        let this :=
          set_downloads
            (iterator_insert iterator (Dir dirDownload) (downloads this)) this in
        scanTheQueueToRetrieveEntries this
    | Entry_Type_FILE =>
        let fileDownload :=
          new_FileDownload (nextID this) peerSource entry complete in
        let this := set_nextID (S (nextID this)) this in
        let this :=
          set_downloads
            (iterator_insert iterator (File fileDownload) (downloads this)) this in
        emit (Call_start (fd_id fileDownload)) this
    end.

(** [DownloadManager::addDownload(entry, peerSource)] and
    [DownloadManager::addDownload(entry, peerSource, complete)]:
    [i.toBack()]. *)
Definition addDownload (entry : Entry) (peerSource : Hash)
    (this : DownloadManager) : DownloadManager :=
  addDownload_at entry peerSource false (length (downloads this)) this.

Definition addDownload_complete (entry : Entry) (peerSource : Hash)
    (complete : bool) (this : DownloadManager) : DownloadManager :=
  addDownload_at entry peerSource complete (length (downloads this)) this.

(** [QMutableListIterator::findNext]: the position of the first item that is
    the given object. *)
Fixpoint findNext (id : nat) (l : list Download) : option nat :=
  match l with
  | [] => None
  | d :: l' =>
      if Nat.eqb (getID d) id then Some 0%nat
      else match findNext id l' with Some k => Some (S k) | None => None end
  end.

(** The loop of [DownloadManager::newEntries] over [entries.entry(n)].
    Every call of [addDownload] gets a copy of the iterator [i]; when the
    call has inserted a download, what [i] designates afterwards is the
    answer [moved n] of the oracle.  An entry that is already queued is not
    inserted, and [i] is left as it is. *)
Fixpoint newEntries_loop (moved : nat -> QListData_insert)
    (peerSource : Hash) (entries : list Entry) (n : nat) (i : nat)
    (this : DownloadManager) : DownloadManager :=
  match entries with
  | [] => this
  | entry :: entries' =>
      let inserted := negb (isEntryAlreadyQueued entry this) in
      let this := addDownload_at entry peerSource false i this in
      let i := if inserted then stale_iterator (moved n) i else i in
      newEntries_loop moved peerSource entries' (S n) i this
  end.

(** [DownloadManager::newEntries]; [dirDownload] is the sender of the
    signal.  After [i.remove()] the iterator designates the position the
    sender had. *)
Definition newEntries (dirDownload : DirDownload) (entries : list Entry)
    (moved : nat -> QListData_insert) (this : DownloadManager)
    : DownloadManager :=
  let this := set_retrievingEntries false this in
  match findNext (dd_id dirDownload) (downloads this) with
  | None => this
  | Some i =>
      let this := set_downloads (delete i (downloads this)) this in
      let this :=
        newEntries_loop moved (dd_peerSourceID dirDownload) entries 0 i this in
      scanTheQueueToRetrieveEntries this
  end.

(** [DownloadManager::downloadDeleted]: [QList::removeOne]. *)
Fixpoint removeOne (id : nat) (l : list Download) : list Download :=
  match l with
  | [] => []
  | d :: l' => if Nat.eqb (getID d) id then l' else d :: removeOne id l'
  end.

Definition downloadDeleted (download : nat) (this : DownloadManager)
    : DownloadManager :=
  set_downloads (removeOne download (downloads this)) this.

(** *** The scheduling loop

    [FileDownload::getAChunkToDownload], [FileDownload::getStatus] and
    [ChunkDownload::startDownloading] are not part of the sources.  What they
    answer when the loop visits a file download is read from an oracle,
    indexed by the identity of the file download: the chunk proposed, the
    status of the file download after the proposal, and whether the chunk
    could be started. *)

Record Answer := mkAnswer {
  answer_chunk : option nat;
  answer_status : Z;
  answer_started : bool
}.

Definition Oracle := nat -> Answer.

Definition with_status (s : Z) (f : FileDownload) : FileDownload :=
  mkFileDownload (fd_id f) (fd_entry f) (fd_peerSourceID f) (fd_complete f) s
    (fd_chunkDownloads f).

Definition with_chunkDownloads (cs : list ChunkDownload) (f : FileDownload)
    : FileDownload :=
  mkFileDownload (fd_id f) (fd_entry f) (fd_peerSourceID f) (fd_complete f)
    (fd_status f) cs.

Definition alter_chunk (g : ChunkDownload -> ChunkDownload) (i : nat)
    (f : FileDownload) : FileDownload :=
  with_chunkDownloads (alter g i (fd_chunkDownloads f)) f.

Definition is_IDLE (c : ChunkDownload) : bool :=
  match chunk_status c with IDLE => true | _ => false end.

Definition is_DOWNLOADING (c : ChunkDownload) : bool :=
  match chunk_status c with DOWNLOADING => true | _ => false end.

(** Modelled from the spec: section 4.C, chunk selection.  Only a chunk
    download that exists and is IDLE is eligible; which of the eligible
    ones has a free holder is the oracle's answer. *)
Definition getAChunkToDownload (answer : Answer) (f : FileDownload)
    : option nat * FileDownload :=
  let f' := with_status (answer_status answer) f in
  match answer_chunk answer with
  | Some i =>
      match fd_chunkDownloads f !! i with
      | Some c => if is_IDLE c then (Some i, f') else (None, f')
      | None => (None, f')
      end
  | None => (None, f')
  end.

(** Modelled from the spec: section 4.B, step 2.  A chunk download that
    starts is marked DOWNLOADING; one that cannot start is left as it is. *)
Definition set_status (s : ChunkStatus) (c : ChunkDownload) : ChunkDownload :=
  mkChunkDownload s (chunk_connections c).

Definition startDownloading (answer : Answer) (c : ChunkDownload)
    : bool * ChunkDownload :=
  if answer_started answer then (true, set_status DOWNLOADING c) else (false, c).

(** [connect(chunkDownload, SIGNAL(downloadFinished()), this,
    SLOT(chunkDownloadFinished()))] and
    [sender()->disconnect(this, SLOT(chunkDownloadFinished()))]. *)
Definition connect (c : ChunkDownload) : ChunkDownload :=
  mkChunkDownload (chunk_status c) (S (chunk_connections c)).

Definition disconnect (c : ChunkDownload) : ChunkDownload :=
  mkChunkDownload (chunk_status c) 0%nat.

(** The body of the loop of [DownloadManager::scanTheQueue] for one file
    download. *)
Definition scanTheQueue_body (oracle : Oracle) (fileDownload : FileDownload)
    (numberOfDownloadCopy : Z) (this : DownloadManager)
    : FileDownload * Z * DownloadManager :=
  let id := fd_id fileDownload in
  let '(chunkDownload, fileDownload) :=
    getAChunkToDownload (oracle id) fileDownload in
  let this := emit (Call_getAChunkToDownload id) this in
  let this :=
    if 0x20 <=? fd_status fileDownload
    then set_timer (timer_start (timer this)) (emit Call_timer_start this)
    else this in
  match chunkDownload with
  | None => (fileDownload, numberOfDownloadCopy, this)
  | Some i =>
      let fileDownload := alter_chunk connect i fileDownload in
      let this := emit (Call_connect_downloadFinished id i) this in
      let started := answer_started (oracle id) in
      let fileDownload :=
        alter_chunk (fun c => snd (startDownloading (oracle id) c)) i
          fileDownload in
      let this := emit (Call_startDownloading id i started) this in
      if started then
        let this := set_numberOfDownload (numberOfDownload this + 1) this in
        (fileDownload, numberOfDownload this, this)
      else (fileDownload, numberOfDownloadCopy, this)
  end.

(** [DownloadManager::scanTheQueue]: the loop walks the queue and updates
    the file downloads in place; it returns the queue it leaves. *)
Fixpoint scanTheQueue_loop (oracle : Oracle) (i : list Download)
    (numberOfDownloadCopy : Z) (this : DownloadManager)
    : list Download * DownloadManager :=
  match i with
  | [] => ([], this)
  | download :: i' =>
      if numberOfDownloadCopy <? NUMBER_OF_DOWNLOADER this then
        match download with
        | Dir _ =>
            let '(ds, this) :=
              scanTheQueue_loop oracle i' numberOfDownloadCopy this in
            (download :: ds, this)
        | File fileDownload =>
            let '(fileDownload, numberOfDownloadCopy, this) :=
              scanTheQueue_body oracle fileDownload numberOfDownloadCopy this in
            let '(ds, this) :=
              scanTheQueue_loop oracle i' numberOfDownloadCopy this in
            (File fileDownload :: ds, this)
        end
      else (i, this)
  end.

Definition scanTheQueue (oracle : Oracle) (this : DownloadManager)
    : DownloadManager :=
  let numberOfDownloadCopy := numberOfDownload this in
  let '(ds, this) :=
    scanTheQueue_loop oracle (downloads this) numberOfDownloadCopy this in
  set_downloads ds this.

(** [DownloadManager::peerNoLongerDownloadingChunk] *)
Definition peerNoLongerDownloadingChunk (oracle : Oracle)
    (this : DownloadManager) : DownloadManager :=
  scanTheQueue oracle this.

(** The chunk download [chunk] of the download at [position] in the queue. *)
Definition alter_download_chunk (g : ChunkDownload -> ChunkDownload)
    (position chunk : nat) (ds : list Download) : list Download :=
  alter (fun d => match d with
                  | File f => File (alter_chunk g chunk f)
                  | Dir d => Dir d
                  end) position ds.

Definition lookup_chunk (position chunk : nat) (ds : list Download)
    : option ChunkDownload :=
  match ds !! position with
  | Some (File f) => fd_chunkDownloads f !! chunk
  | _ => None
  end.

Definition id_at (position : nat) (ds : list Download) : nat :=
  match ds !! position with Some d => getID d | None => 0%nat end.

(** [DownloadManager::chunkDownloadFinished]; the sender is the chunk
    download [chunk] of the file download at [position]. *)
Definition chunkDownloadFinished (position chunk : nat)
    (this : DownloadManager) : DownloadManager :=
  let this :=
    set_downloads
      (alter_download_chunk disconnect position chunk (downloads this)) this in
  let this :=
    emit (Slot_chunkDownloadFinished (id_at position (downloads this)) chunk)
      this in
  set_numberOfDownload (numberOfDownload this - 1) this.

(** Modelled from the spec: section 4.B, steps 5 and 6.  The transfer of a
    chunk ends with the status [s] and the chunk download emits
    [downloadFinished()].  The connections are direct: the slot runs at
    once, if the signal is connected.  The slot disconnects every
    connection of the sender, so it runs once however many there were. *)
Definition downloadFinished (position chunk : nat) (s : ChunkStatus)
    (this : DownloadManager) : DownloadManager :=
  let connected :=
    match lookup_chunk position chunk (downloads this) with
    | Some c => negb (Nat.eqb (chunk_connections c) 0)
    | None => false
    end in
  let this :=
    set_downloads
      (alter_download_chunk (set_status s) position chunk (downloads this))
      this in
  if connected then chunkDownloadFinished position chunk this else this.

(** Modelled from the spec: section 4.C, hash acquisition.  Each hash
    received creates a chunk download in IDLE. *)
Definition new_ChunkDownload : ChunkDownload := mkChunkDownload IDLE 0%nat.

Definition hashReceived (position : nat) (this : DownloadManager)
    : DownloadManager :=
  set_downloads
    (alter (fun d => match d with
                     | File f =>
                         File (with_chunkDownloads
                                 (fd_chunkDownloads f ++ [new_ChunkDownload]) f)
                     | Dir d => Dir d
                     end) position (downloads this)) this.

(** Modelled from the spec: section 4.C, DOWNLOADING --(all chunks
    COMPLETE)--> COMPLETE.  The file download is complete from then on, and
    that is what [populateEntry] persists. *)
Definition completed (f : FileDownload) : FileDownload :=
  mkFileDownload (fd_id f) (fd_entry f) (fd_peerSourceID f) true
    STATUS_COMPLETE (fd_chunkDownloads f).

Definition fileCompleted (position : nat) (this : DownloadManager)
    : DownloadManager :=
  set_downloads
    (alter (fun d => match d with
                     | File f => File (completed f)
                     | Dir d => Dir d
                     end) position (downloads this)) this.

(** *** Persistence

    The persistent store throws; [try]/[catch] is written out in a state
    and exception monad over the manager. *)

Inductive exception :=
| UnknownValueException
| PersistentDataIOException
| unknown_exception.

Inductive outcome (A : Type) :=
| returns (a : A)
| throws (e : exception).
Arguments returns {A} a.
Arguments throws {A} e.

Definition M (A : Type) : Type := DownloadManager -> outcome A * DownloadManager.

Definition ret {A} (a : A) : M A := fun this => (returns a, this).

Definition bind {A B} (m : M A) (k : A -> M B) : M B :=
  fun this =>
    match m this with
    | (returns a, this') => k a this'
    | (throws e, this') => (throws e, this')
    end.

Definition throw {A} (e : exception) : M A := fun this => (throws e, this).

Definition call (f : DownloadManager -> DownloadManager) : M unit :=
  fun this => (returns tt, f this).

Definition try_catch (body : M unit) (handler : exception -> M unit) : M unit :=
  fun this =>
    match body this with
    | (returns a, this') => (returns a, this')
    | (throws e, this') => handler e this'
    end.

Fixpoint for_each {A} (l : list A) (body : A -> M unit) : M unit :=
  match l with
  | [] => ret tt
  | a :: l' => bind (body a) (fun _ => for_each l' body)
  end.

Notation "x <- m ;; k" := (bind m (fun x => k))
  (at level 100, m at next level, right associativity).
Notation "m ;;; k" := (bind m (fun _ => k))
  (at level 100, right associativity).

(** Modelled from the spec: section 4.F and the interface
    [get(name) -> bytes | missing], [set(name, bytes)], [remove(name)]. *)
Definition getValue : M Queue :=
  fun this =>
    match FILE_QUEUE (persistent this) with
    | missing => (throws UnknownValueException, this)
    | undecodable => (throws unknown_exception, this)
    | stored q => (returns q, this)
    end.

Definition setValue (q : Queue) : M unit :=
  fun this =>
    if writable (persistent this) then
      (returns tt,
       emit (Call_setValue true)
         (set_persistent (mkPersistentData (stored q) true) this))
    else (throws PersistentDataIOException, emit (Call_setValue false) this).

Definition rmValue : M unit :=
  call (fun this =>
          emit Call_rmValue
            (set_persistent
               (mkPersistentData missing (writable (persistent this))) this)).

(** [DownloadManager::loadQueueFromFile] *)
Definition loadQueueFromFile : M unit :=
  try_catch
    (savedQueue <- getValue ;;
     if negb (to_int (queue_version savedQueue) =? FILE_QUEUE_VERSION) then
       call (emit (L_ERRO_version_mismatch (queue_version savedQueue))) ;;;
       rmValue
     else
       for_each (queue_entry savedQueue)
         (fun entry =>
            call (addDownload_complete (qe_entry entry) (qe_peer_id entry)
                    (qe_complete entry))))
    (fun e =>
       match e with
       | UnknownValueException => call (emit L_WARN_queue_file_missing)
       | _ => call (emit L_WARN_queue_unknown_exception)
       end).

(** [DownloadManager::fileCacheLoaded] *)
Definition fileCacheLoaded (this : DownloadManager) : DownloadManager :=
  snd (loadQueueFromFile this).

(** [DownloadManager::saveQueueToFile] *)
Definition saveQueueToFile : M unit :=
  fun this =>
    let savedQueue :=
      mkQueue (to_quint32 FILE_QUEUE_VERSION)
        (populateEntry <$> downloads this) in
    try_catch (setValue savedQueue)
      (fun e =>
         match e with
         | PersistentDataIOException => call (emit L_ERRO_persistent_data_io)
         | e => throw e
         end) this.

(** The slot of the timer's [timeout()]. *)
Definition timeout (oracle : Oracle) (this : DownloadManager)
    : DownloadManager :=
  scanTheQueue oracle (set_timer (timer_expire (timer this)) this).

(** *** The manager as a transition system

    One input per slot of the manager and per event of the classes around
    it. *)

Inductive Input :=
| In_addDownload (entry : Entry) (peerSource : Hash)
| In_fileCacheLoaded
| In_newEntries (dirDownload : DirDownload) (entries : list Entry)
    (moved : nat -> QListData_insert)
| In_downloadDeleted (download : nat)
| In_peerNoLongerDownloadingChunk (oracle : Oracle)
| In_timeout (oracle : Oracle)
| In_hashReceived (position : nat)
| In_downloadFinished (position chunk : nat) (s : ChunkStatus)
| In_fileCompleted (position : nat).

Definition handle (input : Input) (this : DownloadManager) : DownloadManager :=
  match input with
  | In_addDownload entry peerSource => addDownload entry peerSource this
  | In_fileCacheLoaded => fileCacheLoaded this
  | In_newEntries dirDownload entries moved =>
      newEntries dirDownload entries moved this
  | In_downloadDeleted download => downloadDeleted download this
  | In_peerNoLongerDownloadingChunk oracle =>
      peerNoLongerDownloadingChunk oracle this
  | In_timeout oracle => timeout oracle this
  | In_hashReceived position => hashReceived position this
  | In_downloadFinished position chunk s =>
      downloadFinished position chunk s this
  | In_fileCompleted position => fileCompleted position this
  end.

Definition no_chunk_downloading (d : Download) : Prop :=
  match d with
  | File f => forall c, c ∈ fd_chunkDownloads f -> chunk_status c <> DOWNLOADING
  | Dir _ => True
  end.

(** Modelled from the spec: when the events of the absent classes can
    occur.  [newEntries] is emitted by a queued directory download that is
    retrieving (4.D); a download is destroyed after its in-flight chunk work
    was cancelled (3, lifecycles); [downloadFinished()] is emitted by a chunk
    download that is DOWNLOADING and leaves that state (4.B); a file
    download completes when all its chunks are COMPLETE (4.C); the timer
    fires when it is active. *)
Definition admissible (input : Input) (this : DownloadManager) : Prop :=
  match input with
  | In_newEntries dirDownload entries _ =>
      Dir dirDownload ∈ downloads this /\ dd_retrieving dirDownload = true
  | In_downloadDeleted download =>
      forall d, d ∈ downloads this -> getID d = download ->
                no_chunk_downloading d
  | In_timeout _ => active (timer this) = true
  | In_downloadFinished position chunk s =>
      (exists c, lookup_chunk position chunk (downloads this) = Some c
                 /\ chunk_status c = DOWNLOADING)
      /\ s <> DOWNLOADING
  | In_fileCompleted position =>
      forall f, downloads this !! position = Some (File f) ->
                Forall (fun c => chunk_status c = COMPLETE)
                  (fd_chunkDownloads f)
  | _ => True
  end.

Inductive step (this : DownloadManager) : Input -> DownloadManager -> Prop :=
| step_handle input :
    admissible input this -> step this input (handle input this).

Inductive reachable (number_of_downloader : Z) (store : PersistentData)
    : DownloadManager -> Prop :=
| reachable_new :
    reachable number_of_downloader store
      (new_DownloadManager number_of_downloader store)
| reachable_step this input this' :
    reachable number_of_downloader store this ->
    step this input this' ->
    reachable number_of_downloader store this'.

(** A sequence of inputs, each one admissible when it arrives, and the
    state it leads to. *)
Fixpoint admissible_run (inputs : list Input) (this : DownloadManager)
    : Prop :=
  match inputs with
  | [] => True
  | input :: inputs' =>
      admissible input this /\ admissible_run inputs' (handle input this)
  end.

Fixpoint run (inputs : list Input) (this : DownloadManager)
    : DownloadManager :=
  match inputs with
  | [] => this
  | input :: inputs' => run inputs' (handle input this)
  end.

End Constants.

Arguments returns {A} a.
Arguments throws {A} e.

(** *** What the statements observe *)

(** The identity of a download and what [populateEntry] persists of it. *)
Definition describe (d : Download) : nat * Queue_Entry :=
  (getID d, populateEntry d).

Definition keys (ds : list Download) : list (Entry_Type * string * string * Z) :=
  (fun d => key (getEntry d)) <$> ds.

Definition chunks_of (d : Download) : list ChunkDownload :=
  match d with File f => fd_chunkDownloads f | Dir _ => [] end.

(** The chunk downloads of all the file downloads of a queue. *)
Fixpoint all_chunks (ds : list Download) : list ChunkDownload :=
  match ds with
  | [] => []
  | d :: ds' => chunks_of d ++ all_chunks ds'
  end.

Fixpoint count {A} (p : A -> bool) (l : list A) : nat :=
  match l with
  | [] => 0%nat
  | x :: l' => ((if p x then 1 else 0) + count p l')%nat
  end.

(** The number of chunk downloads in the DOWNLOADING state. *)
Definition downloading (ds : list Download) : nat :=
  count is_DOWNLOADING (all_chunks ds).

Definition is_retrieving (d : Download) : bool :=
  match d with Dir d => dd_retrieving d | File _ => false end.

(** The number of directory downloads that are retrieving their entries. *)
Definition retrieving (ds : list Download) : nat := count is_retrieving ds.

Definition is_Dir (d : Download) : bool :=
  match d with Dir _ => true | File _ => false end.

(** The increments and the decrements of [numberOfDownload] in a trace. *)
Definition is_increment (e : Event) : bool :=
  match e with Call_startDownloading _ _ true => true | _ => false end.

Definition is_decrement (e : Event) : bool :=
  match e with Slot_chunkDownloadFinished _ _ => true | _ => false end.

Definition increments (l : list Event) : nat := count is_increment l.
Definition decrements (l : list Event) : nat := count is_decrement l.

(** The file downloads the scheduling loop asked for a chunk, and the
    attempts to start a chunk, in a trace. *)
Definition visit_of (e : Event) : option nat :=
  match e with Call_getAChunkToDownload id => Some id | _ => None end.

Definition visited (l : list Event) : list nat := omap visit_of l.

Definition is_start_attempt (e : Event) : bool :=
  match e with Call_startDownloading _ _ _ => true | _ => false end.

Definition file_ids (ds : list Download) : list nat :=
  omap (fun d => match d with File f => Some (fd_id f) | Dir _ => None end) ds.

(** The downloads [newEntries] creates, in the order the entries are
    received: one for every entry whose key is not queued when its turn
    comes, with the identities from [id] on.  [queued] holds the entries of
    the queue. *)
Fixpoint children (peerSource : Hash) (queued : list Entry) (id : nat)
    (entries : list Entry) : list (nat * Queue_Entry) :=
  match entries with
  | [] => []
  | entry :: entries' =>
      if existsb (fun q => same_key q entry) queued
      then children peerSource queued id entries'
      else (id, mkQueue_Entry entry peerSource false)
             :: children peerSource (entry :: queued) (S id) entries'
  end.

(** *** The other loops over the queue *)

Section Absent.

(** [FileDownload::retreiveHashes] and [FileDownload::getUnfinishedChunks]
    are not part of the sources: what the first answers and makes of the
    file download, and the list the second leaves, are parameters.  [Chunk]
    stands for [QSharedPointer<IChunkDownload>]. *)
Variable retreiveHashes : FileDownload -> bool * FileDownload.
Variable Chunk : Type.
Variable fd_getUnfinishedChunks : FileDownload -> list Chunk -> Z -> list Chunk.

(** [DownloadManager::peerNoLongerAskingForHashes]: the loop returns the
    file downloads it asked, in the order of the calls, and the queue it
    leaves. *)
Fixpoint peerNoLongerAskingForHashes_loop (i : list Download)
    : list nat * list Download :=
  match i with
  | [] => ([], [])
  | Dir dirDownload :: i' =>
      let '(asked, ds) := peerNoLongerAskingForHashes_loop i' in
      (asked, Dir dirDownload :: ds)
  | File fileDownload :: i' =>
      let '(accepted, fileDownload') := retreiveHashes fileDownload in
      if accepted then ([fd_id fileDownload], File fileDownload' :: i')
      else
        let '(asked, ds) := peerNoLongerAskingForHashes_loop i' in
        (fd_id fileDownload :: asked, File fileDownload' :: ds)
  end.

Definition peerNoLongerAskingForHashes (this : DownloadManager)
    : list nat * DownloadManager :=
  let '(asked, ds) := peerNoLongerAskingForHashes_loop (downloads this) in
  (asked, set_downloads ds this).

(** [DownloadManager::getUnfinishedChunks]; [n] is an [int]. *)
Fixpoint getUnfinishedChunks_loop (i : list Download)
    (unfinishedChunks : list Chunk) (n : Z) : list Chunk :=
  match i with
  | [] => unfinishedChunks
  | download :: i' =>
      if Z.of_nat (length unfinishedChunks) <? n then
        match download with
        | Dir _ => getUnfinishedChunks_loop i' unfinishedChunks n
        | File fileDownload =>
            getUnfinishedChunks_loop i'
              (fd_getUnfinishedChunks fileDownload unfinishedChunks n) n
        end
      else unfinishedChunks
  end.

Definition getUnfinishedChunks (n : Z) (this : DownloadManager) : list Chunk :=
  getUnfinishedChunks_loop (downloads this) [] n.

End Absent.

Arguments getUnfinishedChunks_loop {Chunk} fd_getUnfinishedChunks i
  unfinishedChunks n.
Arguments getUnfinishedChunks {Chunk} fd_getUnfinishedChunks n this.

End DM.

(** ** Part II -- the sizes of the directories of the file cache *)

Module FM.

Local Open Scope Z_scope.

(** [qint64] arithmetic, on 64-bit two's complement. *)
Definition to_qint64 (z : Z) : Z :=
  let m := z mod 2 ^ 64 in if m <? 2 ^ 63 then m else m - 2 ^ 64.

(** The cache is a heap of directories and files; a [Directory*] or a
    [File*] is a key of the heap.  [File.cpp] is not part of the sources: of
    a file the model keeps the directory it points to and its size. *)
Record File := mkFile {
  file_dir : nat;
  file_size : Z
}.

Record Directory := mkDirectory {
  dir_parent : option nat;
  dir_size : Z;
  dir_subDirs : list nat;
  dir_files : list nat
}.

Record Cache := mkCache {
  directories : gmap nat Directory;
  fileobjects : gmap nat File
}.

Definition set_directories (ds : gmap nat Directory) (heap : Cache) : Cache :=
  mkCache ds (fileobjects heap).

Definition with_parent (p : option nat) (d : Directory) : Directory :=
  mkDirectory p (dir_size d) (dir_subDirs d) (dir_files d).
Definition with_size (s : Z) (d : Directory) : Directory :=
  mkDirectory (dir_parent d) s (dir_subDirs d) (dir_files d).
Definition with_subDirs (l : list nat) (d : Directory) : Directory :=
  mkDirectory (dir_parent d) (dir_size d) l (dir_files d).
Definition with_files (l : list nat) (d : Directory) : Directory :=
  mkDirectory (dir_parent d) (dir_size d) (dir_subDirs d) l.

Definition update (this : nat) (g : Directory -> Directory) (heap : Cache)
    : option Cache :=
  d ← directories heap !! this;
  Some (set_directories (<[this := g d]> (directories heap)) heap).

Definition getSize (this : nat) (heap : Cache) : option Z :=
  dir_size <$> directories heap !! this.

Definition file_getSize (file : nat) (heap : Cache) : option Z :=
  file_size <$> fileobjects heap !! file.

(** [Directory::operator+=] and [Directory::operator-=].  [depth] bounds
    the depth of the recursion to the parent; a dangling pointer or a chain
    of parents longer than [depth] gives [None]. *)
Fixpoint operator_plus_eq (depth : nat) (this : nat) (size : Z) (heap : Cache)
    : option Cache :=
  match depth with
  | O => None
  | S depth' =>
      d ← directories heap !! this;
      let heap :=
        set_directories
          (<[this := with_size (to_qint64 (dir_size d + size)) d]>
             (directories heap)) heap in
      match dir_parent d with
      | Some p => operator_plus_eq depth' p size heap
      | None => Some heap
      end
  end.

Fixpoint operator_minus_eq (depth : nat) (this : nat) (size : Z) (heap : Cache)
    : option Cache :=
  match depth with
  | O => None
  | S depth' =>
      d ← directories heap !! this;
      let heap :=
        set_directories
          (<[this := with_size (to_qint64 (dir_size d - size)) d]>
             (directories heap)) heap in
      match dir_parent d with
      | Some p => operator_minus_eq depth' p size heap
      | None => Some heap
      end
  end.

(** [QList::removeOne] *)
Fixpoint removeOne (x : nat) (l : list nat) : list nat :=
  match l with
  | [] => []
  | y :: l' => if Nat.eqb y x then l' else y :: removeOne x l'
  end.

Definition contains (x : nat) (l : list nat) : bool :=
  existsb (Nat.eqb x) l.

(** [Directory::Directory(Directory* parent, ...)]: the new directory, at
    the fresh address [this], is appended to the sub-directories of its
    parent ([Directory::append]). *)
Definition append (this dir : nat) (heap : Cache) : option Cache :=
  update this (fun d => with_subDirs (dir_subDirs d ++ [dir]) d) heap.

Definition new_Directory (this parent : nat) (heap : Cache) : option Cache :=
  let heap :=
    set_directories
      (<[this := mkDirectory (Some parent) 0 [] []]> (directories heap)) heap in
  append parent this heap.

(** [Directory::addFile] *)
Definition addFile (depth : nat) (this file : nat) (heap : Cache)
    : option Cache :=
  d ← directories heap !! this;
  if contains file (dir_files d) then Some heap
  else
    heap ← update this (fun d => with_files (dir_files d ++ [file]) d) heap;
    size ← file_getSize file heap;
    operator_plus_eq depth this size heap.

(** [Directory::fileDeleted] *)
Definition fileDeleted (depth : nat) (this file : nat) (heap : Cache)
    : option Cache :=
  size ← file_getSize file heap;
  heap ← operator_minus_eq depth this size heap;
  update this (fun d => with_files (removeOne file (dir_files d)) d) heap.

(** [Directory::fileSizeChanged] *)
Definition fileSizeChanged (depth : nat) (this : nat) (oldSize newSize : Z)
    (heap : Cache) : option Cache :=
  operator_plus_eq depth this (to_qint64 (newSize - oldSize)) heap.

(** [Directory::subDirDeleted] *)
Definition subDirDeleted (this dir : nat) (heap : Cache) : option Cache :=
  update this (fun d => with_subDirs (removeOne dir (dir_subDirs d)) d) heap.

Section StealContent.

(** [File::changeDirectory] is not part of the sources: it is a parameter
    of [stealContent]. *)
Variable changeDirectory : nat -> nat -> Cache -> Cache.

(** The two loops of [Directory::stealContent]. *)
Fixpoint stealContent_subDirs (depth : nat) (this dir : nat) (l : list nat)
    (heap : Cache) : option Cache :=
  match l with
  | [] => Some heap
  | d :: l' =>
      heap ← update d (with_parent (Some this)) heap;
      size ← getSize d heap;
      heap ← operator_plus_eq depth this size heap;
      size ← getSize d heap;
      heap ← operator_minus_eq depth dir size heap;
      stealContent_subDirs depth this dir l' heap
  end.

Fixpoint stealContent_files (this : nat) (l : list nat) (heap : Cache) : Cache :=
  match l with
  | [] => heap
  | f :: l' => stealContent_files this l' (changeDirectory f this heap)
  end.

(** [Directory::stealContent] *)
Definition stealContent (depth : nat) (this dir : nat) (heap : Cache)
    : option Cache :=
  if Nat.eqb dir this then Some heap
  else
    from ← directories heap !! dir;
    heap ←
      update this
        (fun d =>
           with_files (dir_files d ++ dir_files from)
             (with_subDirs (dir_subDirs d ++ dir_subDirs from) d)) heap;
    heap ← stealContent_subDirs depth this dir (dir_subDirs from) heap;
    let heap := stealContent_files this (dir_files from) heap in
    update dir (fun d => with_files [] (with_subDirs [] d)) heap.

End StealContent.

(** A [changeDirectory] that re-points the file and does nothing else. *)
Definition changeDirectory_pointer (file dir : nat) (heap : Cache) : Cache :=
  mkCache (directories heap)
    (alter (fun f => mkFile dir (file_size f)) file (fileobjects heap)).

(** The size a directory should have: the sizes of its files and of its
    sub-directories, summed. *)
Definition sum_sizes (l : list (option Z)) : Z :=
  fold_right (fun s acc => default 0 s + acc) 0 l.

Definition content_size (d : Directory) (heap : Cache) : Z :=
  sum_sizes ((fun f => file_getSize f heap) <$> dir_files d)
  + sum_sizes ((fun s => getSize s heap) <$> dir_subDirs d).

Definition aggregated (this : nat) (heap : Cache) : Prop :=
  forall d, directories heap !! this = Some d -> dir_size d = content_size d heap.

(** The chain of parents of a directory, itself first. *)
Fixpoint ancestors (depth : nat) (this : nat) (heap : Cache) : option (list nat) :=
  match depth with
  | O => None
  | S depth' =>
      d ← directories heap !! this;
      match dir_parent d with
      | Some p => (fun l => this :: l) <$> ancestors depth' p heap
      | None => Some [this]
      end
  end.

(** The directory [x] at address [d] once [delta] was added to the size of
    every directory of [chain]. *)
Definition adjusted (chain : list nat) (delta : Z) (d : nat)
    (x : Directory) : Directory :=
  if bool_decide (d ∈ chain)
  then with_size (to_qint64 (dir_size x + delta)) x
  else x.

(** *** The tree of directories *)

(** [Directory::getRoot] *)
Fixpoint getRoot (depth : nat) (this : nat) (heap : Cache) : option nat :=
  match depth with
  | O => None
  | S depth' =>
      d ← directories heap !! this;
      match dir_parent d with
      | Some p => getRoot depth' p heap
      | None => Some this
      end
  end.

(** [Directory::isAChildOf]: the parent is compared with [dir] before it is
    followed. *)
Fixpoint isAChildOf (depth : nat) (this dir : nat) (heap : Cache)
    : option bool :=
  match depth with
  | O => None
  | S depth' =>
      d ← directories heap !! this;
      match dir_parent d with
      | Some p =>
          if Nat.eqb p dir then Some true else isAChildOf depth' p dir heap
      | None => Some false
      end
  end.

Section Names.

(** [Entry::getName] belongs to the base class [Entry], which is not part of
    the sources: the name of the entry at an address is a parameter. *)
Variable getName : nat -> string.

(** [Directory::getPath]: the loop climbs while the directory has a parent
    that has a parent, and prepends the name of the parent and a slash. *)
Fixpoint getPath_loop (depth : nat) (dir : nat) (path : string) (heap : Cache)
    : option string :=
  match depth with
  | O => None
  | S depth' =>
      d ← directories heap !! dir;
      match dir_parent d with
      | None => Some path
      | Some p =>
          dp ← directories heap !! p;
          match dir_parent dp with
          | None => Some path
          | Some _ =>
              getPath_loop depth' p
                (String.append "/" (String.append (getName p) path)) heap
          end
      end
  end.

Definition getPath (depth : nat) (this : nat) (heap : Cache) : option string :=
  getPath_loop depth this "/" heap.

(** [Directory::getFullPath] *)
Fixpoint getFullPath (depth : nat) (this : nat) (heap : Cache) : option string :=
  match depth with
  | O => None
  | S depth' =>
      d ← directories heap !! this;
      match dir_parent d with
      | None => Some (getName this)
      | Some p =>
          s ← getFullPath depth' p heap;
          Some (String.append (String.append s "/") (getName this))
      end
  end.

(** [Directory::getSubDir]: the first sub-directory with the name, or the
    null pointer. *)
Fixpoint getSubDir_loop (name : string) (l : list nat) : option nat :=
  match l with
  | [] => None
  | d :: l' =>
      if String.eqb (getName d) name then Some d else getSubDir_loop name l'
  end.

Definition getSubDir (this : nat) (name : string) (heap : Cache)
    : option (option nat) :=
  d ← directories heap !! this;
  Some (getSubDir_loop name (dir_subDirs d)).

(** [Directory::createSubDirectory]; [fresh] is the address [new] returns.
    The result is the sub-directory, the names and the heap. *)
Definition createSubDirectory (fresh : nat) (this : nat) (name : string)
    (heap : Cache) : option (nat * (nat -> string) * Cache) :=
  subDir ← getSubDir this name heap;
  match subDir with
  | Some subDir => Some (subDir, getName, heap)
  | None =>
      heap ← new_Directory fresh this heap;
      Some (fresh,
            (fun d => if Nat.eqb d fresh then name else getName d), heap)
  end.

End Names.

(** *** DirIterator

    The iterator is its list [dirsToVisit]. *)

Definition new_DirIterator (dir : nat) (heap : Cache) : option (list nat) :=
  dir_subDirs <$> directories heap !! dir.

(** [DirIterator::next]: the directory returned (or the null pointer) and
    the directories left to visit. *)
Definition DirIterator_next (dirsToVisit : list nat) (heap : Cache)
    : option (option nat * list nat) :=
  match dirsToVisit with
  | [] => Some (None, [])
  | dir :: dirsToVisit' =>
      d ← directories heap !! dir;
      Some (Some dir, dirsToVisit' ++ dir_subDirs d)
  end.

(** The directories [next] returns, call after call, until it returns the
    null pointer; [None] when [calls] calls do not reach it. *)
Fixpoint DirIterator_all (calls : nat) (dirsToVisit : list nat) (heap : Cache)
    : option (list nat) :=
  match calls with
  | O => None
  | S calls' =>
      r ← DirIterator_next dirsToVisit heap;
      match r.1 with
      | None => Some []
      | Some dir => (fun l => dir :: l) <$> DirIterator_all calls' r.2 heap
      end
  end.

(** *** What the statements about the tree observe *)

(** The lists of sub-directories and the parent pointers agree. *)
Definition linked (heap : Cache) : Prop :=
  (forall q dq, directories heap !! q = Some dq ->
     NoDup (dir_subDirs dq)
     /\ forall c, c ∈ dir_subDirs dq ->
          exists dc, directories heap !! c = Some dc
                     /\ dir_parent dc = Some q)
  /\ (forall c dc p, directories heap !! c = Some dc ->
        dir_parent dc = Some p ->
        exists dp, directories heap !! p = Some dp /\ c ∈ dir_subDirs dp).

(** The sizes a [qint64] holds. *)
Definition is_qint64 (z : Z) : Prop := - 2 ^ 63 <= z < 2 ^ 63.

(** Adding [delta] to the size of the directories of [chain] does not
    overflow. *)
Definition no_overflow (chain : list nat) (delta : Z) (heap : Cache) : Prop :=
  forall d dir, d ∈ chain -> directories heap !! d = Some dir ->
                is_qint64 (dir_size dir + delta).

End FM.

(** ** Part III -- the selection to pause in the downloads widget *)

Module GUI.

Local Open Scope Z_scope.

(** [DownloadsModel] is not part of the sources: the three accessors the
    widget calls are the fields of a record.  A row is an [int], a download
    ID a [quint64]. *)
Record DownloadsModel := mkDownloadsModel {
  getDownloadID : Z -> Z;
  isFileComplete : Z -> bool;
  isDownloadPaused : Z -> bool
}.

(** The requests the widget sends to the core connection. *)
Inductive Request :=
| pauseDownloads (IDs : list Z) (pause : bool)
| cancelDownloads (IDs : list Z) (complete : bool).

(** [WidgetDownloads::getDownloadIDsToPause]; [i] iterates over the
    selected rows. *)
Fixpoint getDownloadIDsToPause_loop (downloadsModel : DownloadsModel)
    (i : list Z) (downloadIDs : list Z) (allPaused : bool) : list Z * bool :=
  match i with
  | [] => (downloadIDs, allPaused)
  | row :: i' =>
      let ID := getDownloadID downloadsModel row in
      if negb (ID =? 0) && negb (isFileComplete downloadsModel row) then
        let downloadIDs := downloadIDs ++ [ID] in
        let allPaused :=
          if negb (isDownloadPaused downloadsModel row) then false
          else allPaused in
        getDownloadIDsToPause_loop downloadsModel i' downloadIDs allPaused
      else getDownloadIDsToPause_loop downloadsModel i' downloadIDs allPaused
  end.

Definition getDownloadIDsToPause (downloadsModel : DownloadsModel)
    (selectedRows : list Z) : list Z * bool :=
  let '(downloadIDs, allPaused) :=
    getDownloadIDsToPause_loop downloadsModel selectedRows [] true in
  (downloadIDs, negb allPaused).

Definition isEmpty {A} (l : list A) : bool :=
  match l with [] => true | _ => false end.

(** [WidgetDownloads::pauseSelectedEntries]: the requests sent. *)
Definition pauseSelectedEntries (downloadsModel : DownloadsModel)
    (selectedRows : list Z) : list Request :=
  let IDs := getDownloadIDsToPause downloadsModel selectedRows in
  if negb (isEmpty (fst IDs)) then [pauseDownloads (fst IDs) (snd IDs)]
  else [].

(** The rows of the selection whose download can be paused. *)
Definition pausable (downloadsModel : DownloadsModel) (row : Z) : bool :=
  negb (getDownloadID downloadsModel row =? 0)
  && negb (isFileComplete downloadsModel row).

(** *** Removing downloads

    [ICoreConnection.h] is not part of the sources: a call of
    [cancelDownloads] is recorded with the arguments the widget writes, the
    second one being absent where the call leaves it to its default. *)

Inductive StandardButton := Ok | Cancel.

Inductive Action :=
| QMessageBox_exec
| coreConnection_cancelDownloads (IDs : list Z) (complete : option bool).

(** [WidgetDownloads::removeSelectedEntries]: the loop over the selected
    rows. *)
Fixpoint removeSelectedEntries_loop (downloadsModel : DownloadsModel)
    (i : list Z) (downloadIDs : list Z) (allComplete : bool) : list Z * bool :=
  match i with
  | [] => (downloadIDs, allComplete)
  | row :: i' =>
      let ID := getDownloadID downloadsModel row in
      let downloadIDs :=
        if negb (ID =? 0) then downloadIDs ++ [ID] else downloadIDs in
      let allComplete :=
        if negb (isFileComplete downloadsModel row) then false
        else allComplete in
      removeSelectedEntries_loop downloadsModel i' downloadIDs allComplete
  end.

(** [WidgetDownloads::removeSelectedEntries]; [msgBox_exec] is the button
    the user answers the confirmation dialog with, if it is shown. *)
Definition removeSelectedEntries (downloadsModel : DownloadsModel)
    (selectedRows : list Z) (msgBox_exec : StandardButton) : list Action :=
  let '(downloadIDs, allComplete) :=
    removeSelectedEntries_loop downloadsModel selectedRows [] true in
  if negb (isEmpty downloadIDs) then
    if negb allComplete then
      QMessageBox_exec ::
        match msgBox_exec with
        | Ok => [coreConnection_cancelDownloads downloadIDs None]
        | Cancel => []
        end
    else [coreConnection_cancelDownloads downloadIDs None]
  else [].

(** [WidgetDownloads::removeCompletedFiles] *)
Definition removeCompletedFiles : list Action :=
  [coreConnection_cancelDownloads [] (Some true)].

(** *** The global progress bar

    [WidgetDownloads::updateGlobalProgressBar].  The three numbers the model
    gives are [quint64]; the product by [10000LL] is taken in [quint64] and
    the quotient is handed to [QProgressBar::setValue(int)].  The texts of
    the two sizes are made by [Common::Global::formatByteSize], which is not
    part of the sources: the record keeps the numbers formatted. *)

Definition to_quint64 (z : Z) : Z := z mod 2 ^ 64.

Record GlobalProgress := mkGlobalProgress {
  setValue : Z;
  format_bytesDownloaded : Z;
  format_bytesInQueue : Z;
  format_eta : option Z
}.

Definition updateGlobalProgressBar (bytesInQueue bytesDownloaded eta : Z)
    : GlobalProgress :=
  {| setValue :=
       DM.to_int
         (if bytesInQueue =? 0 then 0
          else to_quint64 (bytesDownloaded * 10000) / bytesInQueue);
     format_bytesDownloaded := bytesDownloaded;
     format_bytesInQueue := bytesInQueue;
     format_eta :=
       if (eta =? 0) || (604800 <? eta) then None else Some eta |}.

(** *** The context menu

    [WidgetDownloads::displayContextMenuDownloads]: the actions of the menu,
    each with its icon, its text (as written, before [tr] translates it) and
    the slot it is connected to.  [isFileLocationKnown] is the accessor of
    the downloads model the function calls. *)

Inductive Slot :=
| SLOT_openLocationSelectedEntries
| SLOT_removeCompletedFiles
| SLOT_removeSelectedEntries
| SLOT_pauseSelectedEntries.

Record QAction := mkQAction {
  action_icon : string;
  action_text : string;
  action_slot : Slot
}.

Fixpoint showOpenLocation_loop (isFileLocationKnown : Z -> bool) (i : list Z)
    : bool :=
  match i with
  | [] => false
  | row :: i' =>
      if isFileLocationKnown row then true
      else showOpenLocation_loop isFileLocationKnown i'
  end.

Definition displayContextMenuDownloads (downloadsModel : DownloadsModel)
    (isFileLocationKnown : Z -> bool) (selectedRows : list Z) : list QAction :=
  let showOpenLocation :=
    showOpenLocation_loop isFileLocationKnown selectedRows in
  let IDs := getDownloadIDsToPause downloadsModel selectedRows in
  (if showOpenLocation then
     [mkQAction ":/icons/ressources/explore_folder.png" "Open location"
        SLOT_openLocationSelectedEntries]
   else [])
  ++ [mkQAction ":/icons/ressources/remove_complete_files.png"
        "Remove completed files" SLOT_removeCompletedFiles;
      mkQAction ":/icons/ressources/delete.png" "Remove selected entries"
        SLOT_removeSelectedEntries;
      mkQAction ":/icons/ressources/pause.png"
        (if snd IDs then "Pause selected entries"
         else "Unpause selected entries")
        SLOT_pauseSelectedEntries].

End GUI.

(** ** Examples *)

Module Examples.

Import DM.

Definition period : Z := 10000.
Definition version : Z := 1.
Definition peer : Hash := [Byte.x01].
Definition store : PersistentData := mkPersistentData missing true.

Definition file_x : Entry :=
  mkEntry Entry_Type_FILE "/" "x.bin" 4096 false [].
Definition file_y : Entry :=
  mkEntry Entry_Type_FILE "/" "y.bin" 10 false [].
Definition file_a : Entry :=
  mkEntry Entry_Type_FILE "/d/" "a.bin" 1 false [].
Definition file_b : Entry :=
  mkEntry Entry_Type_FILE "/d/" "b.bin" 2 false [].
(** The key of [file_y], another [is_empty]. *)
Definition file_y' : Entry :=
  mkEntry Entry_Type_FILE "/" "y.bin" 10 true [].
Definition dir_d : Entry :=
  mkEntry Entry_Type_DIR "/" "d" 0 false [].

Definition manager (number_of_downloader : Z) : DownloadManager :=
  new_DownloadManager period number_of_downloader store.

(** The queue [x.bin; d; y.bin]; the directory download is retrieving. *)
Definition queue_x_d_y (number_of_downloader : Z) : DownloadManager :=
  handle version (In_addDownload file_y peer)
    (handle version (In_addDownload dir_d peer)
       (handle version (In_addDownload file_x peer)
          (manager number_of_downloader))).

Definition download_x : Download :=
  File (new_FileDownload 0 peer file_x false).
Definition download_y : Download :=
  File (new_FileDownload 2 peer file_y false).
Definition sender : DirDownload := mkDirDownload 1 dir_d peer true.

(** Every file download proposes its first chunk, which starts. *)
Definition answers_start : Oracle := fun _ => mkAnswer (Some 0%nat) 3 true.
(** Every file download reports a soft error and proposes no chunk. *)
Definition answers_soft : Oracle := fun _ => mkAnswer None 0x21 false.


(** The queue [x.bin; d; y.bin] after the only chunk of [x.bin] was
    downloaded and the file completed. *)
Definition finished_x : DownloadManager :=
  handle version (In_fileCompleted 0)
    (handle version (In_downloadFinished 0 0 COMPLETE)
       (handle version (In_peerNoLongerDownloadingChunk answers_start)
          (handle version (In_hashReceived 0) (queue_x_d_y 2)))).

(** A manager without downloader whose queue holds one directory. *)
Definition queue_d : DownloadManager :=
  handle version (In_addDownload dir_d peer) (manager 0).

Definition dir_e : Entry :=
  mkEntry Entry_Type_DIR "/" "e" 0 false [].

(** The directory download of [queue_d] and of [queue_d_e]. *)
Definition sender_first : DirDownload := mkDirDownload 0 dir_d peer true.

(** The same manager after the directory download, which was retrieving,
    was deleted and another directory was added: the queue is [e]. *)
Definition stuck : DownloadManager :=
  handle version (In_addDownload dir_e peer)
    (handle version (In_downloadDeleted 0) queue_d).

(** The queue [d; e]: the first directory download is retrieving, the
    second one waits. *)
Definition queue_d_e (number_of_downloader : Z) : DownloadManager :=
  handle version (In_addDownload dir_e peer)
    (handle version (In_addDownload dir_d peer)
       (manager number_of_downloader)).

(** The queue [x.bin; y.bin; d]; the directory download is retrieving. *)
Definition queue_x_y_d (number_of_downloader : Z) : DownloadManager :=
  handle version (In_addDownload dir_d peer)
    (handle version (In_addDownload file_y peer)
       (handle version (In_addDownload file_x peer)
          (manager number_of_downloader))).

Definition sender_last : DirDownload := mkDirDownload 2 dir_d peer true.

(** [QListData::insert] has room at the end of the array, or moves the
    items behind the position. *)
Definition moves_behind : nat -> QListData_insert :=
  fun _ => moved_items_behind.
(** [QListData::insert] moves the items in front of the position. *)
Definition moves_in_front : nat -> QListData_insert :=
  fun _ => moved_items_in_front.

(** Two roots of the file cache: directory 1 is empty, directory 2 holds
    the file 10, of 5 bytes. *)
Definition two_roots : FM.Cache :=
  FM.mkCache
    (<[1%nat := FM.mkDirectory None 0 [] []]>
       (<[2%nat := FM.mkDirectory None 5 [] [10%nat]]> ∅))
    (<[10%nat := FM.mkFile 2 5]> ∅).

(** A tree of the file cache: the root [share] holds the directory [music],
    which holds the file 10 (5 bytes) and the directory [live], which holds
    the file 11 (7 bytes).  The file 12 (4 bytes) is in no directory yet. *)
Definition tree : FM.Cache :=
  FM.mkCache
    (<[1%nat := FM.mkDirectory None 12 [2%nat] []]>
       (<[2%nat := FM.mkDirectory (Some 1%nat) 12 [3%nat] [10%nat]]>
          (<[3%nat := FM.mkDirectory (Some 2%nat) 7 [] [11%nat]]> ∅)))
    (<[10%nat := FM.mkFile 2 5]>
       (<[11%nat := FM.mkFile 3 7]> (<[12%nat := FM.mkFile 3 4]> ∅))).

Definition tree_names (d : nat) : string :=
  match d with
  | 1%nat => "share"
  | 2%nat => "music"
  | 3%nat => "live"
  | _ => ""
  end.

(** Two directories of one root: the root 1 holds the directory 2, which
    holds the directory 4 with the file 11 (7 bytes), and the empty
    directory 3. *)
Definition shares : FM.Cache :=
  FM.mkCache
    (<[1%nat := FM.mkDirectory None 7 [2%nat; 3%nat] []]>
       (<[2%nat := FM.mkDirectory (Some 1%nat) 7 [4%nat] []]>
          (<[3%nat := FM.mkDirectory (Some 1%nat) 0 [] []]>
             (<[4%nat := FM.mkDirectory (Some 2%nat) 7 [] [11%nat]]> ∅))))
    (<[11%nat := FM.mkFile 4 7]> ∅).

End Examples.

(** ** Part IV -- the pause selection *)

Section PauseSelection.

Import GUI.

Variable downloadsModel : DownloadsModel.

Lemma getDownloadIDsToPause_loop_spec (i : list Z) (downloadIDs : list Z)
    (allPaused : bool) :
  getDownloadIDsToPause_loop downloadsModel i downloadIDs allPaused
  = (downloadIDs
     ++ map (getDownloadID downloadsModel)
          (List.filter (pausable downloadsModel) i),
     allPaused
     && forallb (isDownloadPaused downloadsModel)
          (List.filter (pausable downloadsModel) i)).
Proof.
  revert downloadIDs allPaused.
  induction i as [|row i IH]; intros downloadIDs allPaused; simpl.
  - by rewrite app_nil_r, andb_true_r.
  - change (negb (getDownloadID downloadsModel row =? 0)%Z
            && negb (isFileComplete downloadsModel row))
      with (pausable downloadsModel row).
    destruct (pausable downloadsModel row); simpl.
    + rewrite IH, <- app_assoc. simpl. f_equal.
      destruct (isDownloadPaused downloadsModel row), allPaused; reflexivity.
    + apply IH.
Qed.

Lemma existsb_negb_forallb {A} (p : A -> bool) (l : list A) :
  negb (forallb p l) = existsb (fun x => negb (p x)) l.
Proof.
  induction l as [|x l IH]; simpl; [done|].
  rewrite negb_andb, IH. reflexivity.
Qed.

(** C10.  [getDownloadIDsToPause] returns the IDs of the selected rows whose
    ID is not zero and whose file is not complete, in the order of the
    selection; its boolean is true iff one of those downloads is not paused;
    no ID it returns is zero or belongs to a completed file; and
    [pauseSelectedEntries] sends one [pauseDownloads] request with that list
    and that boolean, or no request at all when the list is empty. *)
Theorem getDownloadIDsToPause_selects (selectedRows : list Z) :
  let rows := List.filter (pausable downloadsModel) selectedRows in
  let IDs := getDownloadIDsToPause downloadsModel selectedRows in
  fst IDs = map (getDownloadID downloadsModel) rows
  /\ snd IDs
     = existsb (fun row => negb (isDownloadPaused downloadsModel row)) rows
  /\ (forall ID, In ID (fst IDs) ->
        exists row, In row selectedRows
                    /\ getDownloadID downloadsModel row = ID
                    /\ ID <> 0%Z
                    /\ isFileComplete downloadsModel row = false)
  /\ (fst IDs = [] -> pauseSelectedEntries downloadsModel selectedRows = [])
  /\ (fst IDs <> [] ->
        pauseSelectedEntries downloadsModel selectedRows
        = [pauseDownloads (fst IDs) (snd IDs)]).
Proof.
  intros rows IDs.
  assert (HIDs : IDs = (map (getDownloadID downloadsModel) rows,
                        existsb (fun row => negb (isDownloadPaused downloadsModel row)) rows)).
  { subst IDs rows. unfold getDownloadIDsToPause.
    rewrite getDownloadIDsToPause_loop_spec. simpl.
    by rewrite existsb_negb_forallb. }
  split; [by rewrite HIDs|]. split; [by rewrite HIDs|]. split.
  - intros ID HID. rewrite HIDs in HID. simpl in HID.
    apply in_map_iff in HID as (row & <- & Hrow).
    subst rows. apply filter_In in Hrow as [Hin Hp].
    unfold pausable in Hp. apply andb_true_iff in Hp as [Hz Hc].
    exists row. repeat split; [done| |].
    + apply negb_true_iff in Hz. by apply Z.eqb_neq in Hz.
    + by apply negb_true_iff in Hc.
  - unfold pauseSelectedEntries. fold IDs. split.
    + intros ->. reflexivity.
    + intros Hne. destruct (fst IDs); [done|reflexivity].
Qed.

End PauseSelection.

(** ** Part V -- the download manager: the queue *)

Section DownloadManagerFacts.

Import DM.

Variable RESCAN_QUEUE_PERIOD_IF_ERROR : Z.
Variable FILE_QUEUE_VERSION : Z.

Ltac destruct_manager this :=
  destruct this as [?N ?ds ?n ?r ?t ?p ?nx ?lg]; simpl in *.

(** *** Lists *)

Lemma count_app {A} (p : A -> bool) (l1 l2 : list A) :
  count p (l1 ++ l2) = count p l1 + count p l2.
Proof. induction l1 as [|x l1 IH]; simpl; [done|]. rewrite IH. lia. Qed.

Lemma count_zero_Forall {A} (p : A -> bool) (l : list A) :
  count p l = 0 <-> Forall (fun x => p x = false) l.
Proof.
  induction l as [|x l IH]; simpl.
  - split; [constructor|done].
  - rewrite Forall_cons. destruct (p x); simpl.
    + split; [lia|]. intros [? _]. done.
    + rewrite IH. tauto.
Qed.

Lemma count_fmap_eq {A} (p : A -> bool) (l1 l2 : list A) :
  p <$> l1 = p <$> l2 -> count p l1 = count p l2.
Proof.
  revert l2. induction l1 as [|x l1 IH]; intros [|y l2] H; try done.
  rewrite !fmap_cons in H. injection H as Hx Hl.
  simpl. by rewrite Hx, (IH l2 Hl).
Qed.

Lemma all_chunks_app (ds1 ds2 : list Download) :
  all_chunks (ds1 ++ ds2) = all_chunks ds1 ++ all_chunks ds2.
Proof. induction ds1 as [|d ds1 IH]; simpl; [done|]. by rewrite IH, app_assoc. Qed.

Lemma all_chunks_fmap_eq (ds1 ds2 : list Download) :
  chunks_of <$> ds1 = chunks_of <$> ds2 -> all_chunks ds1 = all_chunks ds2.
Proof.
  revert ds2. induction ds1 as [|x l1 IH]; intros [|y l2] H; try done.
  rewrite !fmap_cons in H. injection H as Hx Hl.
  simpl. by rewrite Hx, (IH l2 Hl).
Qed.

Lemma iterator_insert_fmap {A B} (f : A -> B) (i : nat) (x : A) (l : list A) :
  f <$> iterator_insert i x l = iterator_insert i (f x) (f <$> l).
Proof.
  unfold iterator_insert. by rewrite fmap_app, fmap_cons, fmap_take, fmap_drop.
Qed.

Lemma iterator_insert_Permutation {A} (i : nat) (x : A) (l : list A) :
  iterator_insert i x l ≡ₚ x :: l.
Proof.
  unfold iterator_insert. rewrite <- Permutation_middle.
  by rewrite take_drop.
Qed.

Lemma iterator_insert_length_app {A} (x : A) (l1 l2 : list A) :
  iterator_insert (length l1) x (l1 ++ l2) = l1 ++ x :: l2.
Proof.
  unfold iterator_insert. by rewrite take_app_length, drop_app_length.
Qed.

Lemma iterator_insert_back {A} (x : A) (l : list A) :
  iterator_insert (length l) x l = l ++ [x].
Proof.
  unfold iterator_insert. by rewrite firstn_all, drop_all.
Qed.

Lemma count_iterator_insert {A} (p : A -> bool) (i : nat) (x : A) (l : list A) :
  count p (iterator_insert i x l) = (if p x then 1 else 0) + count p l.
Proof.
  unfold iterator_insert. rewrite count_app. simpl.
  rewrite <- (take_drop i l) at 3. rewrite count_app. lia.
Qed.

Lemma all_chunks_iterator_insert (i : nat) (d : Download) (ds : list Download) :
  chunks_of d = [] ->
  all_chunks (iterator_insert i d ds) = all_chunks ds.
Proof.
  intros Hd. unfold iterator_insert. rewrite all_chunks_app. simpl.
  rewrite Hd. simpl. rewrite <- all_chunks_app. by rewrite take_drop.
Qed.

(** *** Keys *)

Lemma Entry_Type_eqb_eq (a b : Entry_Type) : Entry_Type_eqb a b = true <-> a = b.
Proof. destruct a, b; simpl; split; congruence. Qed.

Lemma same_key_spec (a b : Entry) : same_key a b = true <-> key a = key b.
Proof.
  unfold same_key, key. rewrite !andb_true_iff, Entry_Type_eqb_eq.
  rewrite !String.eqb_eq, Z.eqb_eq. split.
  - intros [[[-> ->] ->] ->]. done.
  - intros H. by simplify_eq.
Qed.

Lemma isEntryAlreadyQueued_loop_spec (ds : list Download) (entry : Entry) :
  isEntryAlreadyQueued_loop ds entry = true <-> key entry ∈ keys ds.
Proof.
  unfold keys. induction ds as [|d ds IH]; simpl.
  - split; [done|]. intros H. by apply elem_of_nil in H.
  - rewrite elem_of_cons.
    destruct (same_key (getEntry d) entry) eqn:Hk.
    + apply same_key_spec in Hk. split; [|done]. intros _. by left.
    + rewrite IH. split; [by right|]. intros [H|H]; [|done].
      symmetry in H. apply same_key_spec in H. congruence.
Qed.

Lemma isEntryAlreadyQueued_false (entry : Entry) (this : DownloadManager) :
  isEntryAlreadyQueued entry this = false <-> key entry ∉ keys (downloads this).
Proof.
  unfold isEntryAlreadyQueued. rewrite <- isEntryAlreadyQueued_loop_spec.
  by destruct (isEntryAlreadyQueued_loop _ _).
Qed.

(** *** The directory-resolution loop *)

Lemma retrieve_loop_Some (ds : list Download) (id : nat) (ds' : list Download) :
  scanTheQueueToRetrieveEntries_loop ds = Some (id, ds') ->
  exists pre d post,
    ds = pre ++ Dir d :: post
    /\ ds' = pre ++ Dir (retrieveEntries d) :: post
    /\ id = dd_id d
    /\ count is_Dir pre = 0.
Proof.
  revert id ds'. induction ds as [|[f|d] ds IH]; intros id ds' H; simpl in H.
  - done.
  - destruct (scanTheQueueToRetrieveEntries_loop ds) as [[id0 ds0]|]; [|done].
    simplify_eq. destruct (IH _ _ eq_refl) as (pre & d & post & -> & -> & -> & Hc).
    exists (File f :: pre), d, post. by repeat split.
  - simplify_eq. exists [], d, ds. by repeat split.
Qed.

Lemma retrieve_loop_None (ds : list Download) :
  scanTheQueueToRetrieveEntries_loop ds = None -> count is_Dir ds = 0.
Proof.
  induction ds as [|[f|d] ds IH]; simpl; intros H; try done.
  destruct (scanTheQueueToRetrieveEntries_loop ds) as [[id0 ds0]|]; [done|].
  by apply IH.
Qed.

Lemma scanTheQueueToRetrieveEntries_cases (this : DownloadManager) :
  (scanTheQueueToRetrieveEntries this = this
   /\ (retrievingEntries this = true \/ count is_Dir (downloads this) = 0))
  \/ (retrievingEntries this = false
      /\ exists pre d post,
           downloads this = pre ++ Dir d :: post
           /\ count is_Dir pre = 0
           /\ scanTheQueueToRetrieveEntries this
              = set_retrievingEntries true
                  (emit (Call_retrieveEntries (dd_id d))
                     (set_downloads (pre ++ Dir (retrieveEntries d) :: post)
                        this))).
Proof.
  unfold scanTheQueueToRetrieveEntries.
  destruct (retrievingEntries this) eqn:Hr; [left; auto|].
  destruct (scanTheQueueToRetrieveEntries_loop (downloads this))
    as [[id ds']|] eqn:Hl.
  - right. split; [done|].
    apply retrieve_loop_Some in Hl as (pre & d & post & H1 & -> & -> & Hc).
    by exists pre, d, post.
  - left. split; [done|]. right. by apply retrieve_loop_None.
Qed.

(** *** What the handlers of the queue leave alone *)

Definition counter_view (this : DownloadManager) :=
  (NUMBER_OF_DOWNLOADER this, numberOfDownload this,
   all_chunks (downloads this), increments (log this), decrements (log this),
   count is_start_attempt (log this), timer this).

Lemma counter_view_emit (e : Event) (this : DownloadManager) :
  is_increment e = false -> is_decrement e = false ->
  is_start_attempt e = false ->
  counter_view (emit e this) = counter_view this.
Proof.
  intros H1 H2 H3. unfold counter_view, increments, decrements. simpl.
  rewrite !count_app. simpl. rewrite H1, H2, H3. simpl.
  by rewrite !Nat.add_0_r.
Qed.

Lemma counter_view_scanTheQueueToRetrieveEntries (this : DownloadManager) :
  counter_view (scanTheQueueToRetrieveEntries this) = counter_view this.
Proof.
  destruct (scanTheQueueToRetrieveEntries_cases this)
    as [[-> _]|(_ & pre & d & post & Hds & _ & ->)]; [done|].
  unfold counter_view, increments, decrements. simpl.
  rewrite !count_app. simpl. rewrite !Nat.add_0_r.
  rewrite Hds, !all_chunks_app. done.
Qed.

Lemma counter_view_addDownload_at (entry : Entry) (peerSource : Hash)
    (complete : bool) (iterator : nat) (this : DownloadManager) :
  counter_view (addDownload_at entry peerSource complete iterator this)
  = counter_view this.
Proof.
  unfold addDownload_at.
  destruct (isEntryAlreadyQueued entry this); [by apply counter_view_emit|].
  destruct (entry_type entry).
  - rewrite counter_view_emit by done.
    unfold counter_view. simpl.
    by rewrite all_chunks_iterator_insert.
  - rewrite counter_view_scanTheQueueToRetrieveEntries.
    unfold counter_view. simpl.
    by rewrite all_chunks_iterator_insert.
Qed.

Lemma counter_view_newEntries_loop (moved : nat -> QListData_insert)
    (peerSource : Hash) (entries : list Entry) (n i : nat)
    (this : DownloadManager) :
  counter_view (newEntries_loop moved peerSource entries n i this)
  = counter_view this.
Proof.
  revert n i this.
  induction entries as [|e entries IH]; intros n i this; simpl; [done|].
  by rewrite IH, counter_view_addDownload_at.
Qed.

(** *** Removing one download *)

Inductive removal (ds : list Download) : list Download -> Prop :=
| removal_none : removal ds ds
| removal_one l1 x l2 : ds = l1 ++ x :: l2 -> removal ds (l1 ++ l2).

Lemma removeOne_removal (id : nat) (ds : list Download) :
  removal ds (DM.removeOne id ds).
Proof.
  induction ds as [|d ds IH]; simpl; [constructor|].
  destruct (Nat.eqb (getID d) id).
  - by apply (removal_one _ [] d ds).
  - destruct IH as [|l1 x l2 ->]; [constructor|].
    by apply (removal_one _ (d :: l1) x l2).
Qed.

Lemma removeOne_found (id : nat) (ds : list Download) :
  DM.removeOne id ds = ds
  \/ exists l1 x l2, ds = l1 ++ x :: l2 /\ getID x = id
                     /\ DM.removeOne id ds = l1 ++ l2.
Proof.
  induction ds as [|d ds IH]; simpl; [by left|].
  destruct (Nat.eqb (getID d) id) eqn:Hid.
  - right. exists [], d, ds. apply Nat.eqb_eq in Hid. done.
  - destruct IH as [->|(l1 & x & l2 & -> & Hx & ->)]; [by left|].
    right. by exists (d :: l1), x, l2.
Qed.

Lemma findNext_Some (id : nat) (ds : list Download) (i : nat) :
  findNext id ds = Some i ->
  exists l1 x l2, ds = l1 ++ x :: l2 /\ length l1 = i /\ getID x = id
                  /\ Forall (fun d => getID d <> id) l1.
Proof.
  revert i. induction ds as [|d ds IH]; intros i H; simpl in H; [done|].
  destruct (Nat.eqb (getID d) id) eqn:Hid.
  - simplify_eq. apply Nat.eqb_eq in Hid. exists [], d, ds. by repeat split.
  - destruct (findNext id ds) as [k|]; [|done]. simplify_eq.
    destruct (IH k eq_refl) as (l1 & x & l2 & -> & <- & Hx & Hl1).
    apply Nat.eqb_neq in Hid.
    exists (d :: l1), x, l2. repeat split; [done|]. by constructor.
Qed.

Lemma findNext_None (id : nat) (ds : list Download) :
  findNext id ds = None -> Forall (fun d => getID d <> id) ds.
Proof.
  induction ds as [|d ds IH]; simpl; intros H; [constructor|].
  destruct (Nat.eqb (getID d) id) eqn:Hid; [done|].
  destruct (findNext id ds); [done|].
  apply Nat.eqb_neq in Hid. constructor; auto.
Qed.

Lemma delete_length_app {A} (l1 : list A) (x : A) (l2 : list A) :
  delete (length l1) (l1 ++ x :: l2) = l1 ++ l2.
Proof.
  induction l1 as [|y l1 IH]; simpl; [done|]. by rewrite IH.
Qed.

(** *** The queue stays well formed *)

Lemma keys_describe (ds : list Download) :
  keys ds = (fun x => key (qe_entry x.2)) <$> (describe <$> ds).
Proof.
  unfold keys. rewrite <- list_fmap_compose. apply list_fmap_ext.
  intros _ [f|d] _; reflexivity.
Qed.

Lemma ids_describe (ds : list Download) :
  getID <$> ds = fst <$> (describe <$> ds).
Proof. rewrite <- list_fmap_compose. by apply list_fmap_ext. Qed.

Definition queue_inv (this : DownloadManager) : Prop :=
  NoDup (keys (downloads this))
  /\ NoDup (getID <$> downloads this)
  /\ Forall (fun d => getID d < nextID this) (downloads this)
  /\ retrieving (downloads this) <= 1
  /\ (retrievingEntries this = false -> retrieving (downloads this) = 0).

Definition queue_view (this : DownloadManager) :=
  (getID <$> downloads this, keys (downloads this),
   is_retrieving <$> downloads this, retrievingEntries this, nextID this).

Lemma queue_inv_view (this this' : DownloadManager) :
  queue_view this' = queue_view this -> queue_inv this -> queue_inv this'.
Proof.
  unfold queue_view, queue_inv. intros Hv (H1 & H2 & H3 & H4 & H5).
  injection Hv as Hi Hk Hr Hf Hn.
  unfold retrieving in *. rewrite (count_fmap_eq _ _ _ Hr), Hf, Hk, Hi, Hn.
  repeat split; try done.
  apply (Forall_fmap getID (fun x => x < nextID this)). rewrite Hi.
  by apply Forall_fmap.
Qed.

Lemma queue_inv_scanTheQueueToRetrieveEntries (this : DownloadManager) :
  queue_inv this -> queue_inv (scanTheQueueToRetrieveEntries this).
Proof.
  intros (H1 & H2 & H3 & H4 & H5).
  destruct (scanTheQueueToRetrieveEntries_cases this)
    as [[-> _]|(Hr & pre & d & post & Hds & _ & ->)]; [done|].
  specialize (H5 Hr). unfold queue_inv, retrieving, keys in *. simpl.
  rewrite Hds in *. rewrite !fmap_app, !fmap_cons in *.
  apply Forall_app in H3 as [? [? ?]%Forall_cons].
  rewrite count_app in H5. simpl in H5.
  rewrite count_app. simpl.
  repeat split; try done.
  - apply Forall_app. split; [done|]. by apply Forall_cons.
  - destruct (dd_retrieving d); lia.
Qed.

Lemma queue_inv_insert (iterator : nat) (d : Download) (this : DownloadManager) :
  queue_inv this ->
  key (getEntry d) ∉ keys (downloads this) ->
  getID d = nextID this ->
  is_retrieving d = false ->
  queue_inv
    (set_downloads (iterator_insert iterator d (downloads this))
       (set_nextID (S (nextID this)) this)).
Proof.
  intros (H1 & H2 & H3 & H4 & H5) Hk Hid Hr.
  unfold queue_inv, retrieving, keys in *. simpl.
  rewrite !iterator_insert_fmap, !iterator_insert_Permutation.
  rewrite count_iterator_insert, Hr. simpl.
  rewrite !NoDup_cons. repeat split; try done.
  - intros Hin. apply list_elem_of_fmap in Hin as (x & Hx & Hin).
    rewrite Forall_forall in H3. specialize (H3 x Hin). lia.
  - assert (H3' : Forall (fun d0 => getID d0 < S (nextID this)) (downloads this)).
    { eapply Forall_impl; [exact H3|]. simpl. intros. lia. }
    unfold iterator_insert. apply Forall_app. split; [by apply Forall_take|].
    apply Forall_cons. split; [lia|by apply Forall_drop].
Qed.

Lemma queue_inv_addDownload_at (entry : Entry) (peerSource : Hash)
    (complete : bool) (iterator : nat) (this : DownloadManager) :
  queue_inv this ->
  queue_inv (addDownload_at entry peerSource complete iterator this).
Proof.
  intros Hinv. unfold addDownload_at.
  destruct (isEntryAlreadyQueued entry this) eqn:Hq.
  - by apply (queue_inv_view this).
  - apply isEntryAlreadyQueued_false in Hq.
    destruct (entry_type entry).
    + pose proof (queue_inv_insert iterator
        (File (new_FileDownload (nextID this) peerSource entry complete))
        this Hinv Hq eq_refl eq_refl) as H.
      revert H. by apply queue_inv_view.
    + apply queue_inv_scanTheQueueToRetrieveEntries.
      exact (queue_inv_insert iterator
        (Dir (new_DirDownload (nextID this) peerSource entry))
        this Hinv Hq eq_refl eq_refl).
Qed.

Lemma queue_inv_newEntries_loop (moved : nat -> QListData_insert)
    (peerSource : Hash) (entries : list Entry) (n i : nat)
    (this : DownloadManager) :
  queue_inv this ->
  queue_inv (newEntries_loop moved peerSource entries n i this).
Proof.
  revert n i this.
  induction entries as [|e entries IH]; intros n i this H; simpl; [done|].
  by apply IH, queue_inv_addDownload_at.
Qed.

Lemma count_removal (p : Download -> bool) (ds ds' : list Download) :
  removal ds ds' -> count p ds' <= count p ds.
Proof.
  intros [|l1 x l2 ->]; [done|]. rewrite !count_app. simpl. lia.
Qed.

Lemma queue_inv_removal (ds' : list Download) (this : DownloadManager) :
  removal (downloads this) ds' ->
  queue_inv this -> queue_inv (set_downloads ds' this).
Proof.
  intros Hrem (H1 & H2 & H3 & H4 & H5).
  pose proof (count_removal is_retrieving _ _ Hrem) as Hc.
  destruct Hrem as [|l1 x l2 Hds]; [by destruct this|].
  unfold queue_inv, retrieving, keys in *. simpl.
  rewrite Hds in *. rewrite !fmap_app, !fmap_cons in *.
  apply Forall_app in H3 as [? [? ?]%Forall_cons].
  apply NoDup_app in H1 as (? & Hk & [? ?]%NoDup_cons).
  apply NoDup_app in H2 as (? & Hi & [? ?]%NoDup_cons).
  repeat split; try lia.
  - apply NoDup_app. repeat split; try done.
    intros k Hk1 Hk2. eapply Hk; [done|]. by right.
  - apply NoDup_app. repeat split; try done.
    intros k Hk1 Hk2. eapply Hi; [done|]. by right.
  - by apply Forall_app.
  - intros Hr. specialize (H5 Hr). lia.
Qed.

Lemma findNext_app (id : nat) (l1 : list Download) (x : Download)
    (l2 : list Download) :
  Forall (fun d => getID d <> id) l1 -> getID x = id ->
  findNext id (l1 ++ x :: l2) = Some (length l1).
Proof.
  intros Hl1 Hx. induction Hl1 as [|d l1 Hd Hl1 IH]; simpl.
  - apply Nat.eqb_eq in Hx. by rewrite Hx.
  - apply Nat.eqb_neq in Hd. by rewrite Hd, IH.
Qed.

(** With distinct identities, the sender of [newEntries] is found where it
    stands in the queue. *)
Lemma sender_found (d : DirDownload) (ds : list Download) :
  NoDup (getID <$> ds) -> Dir d ∈ ds ->
  exists l1 l2, ds = l1 ++ Dir d :: l2
                /\ findNext (dd_id d) ds = Some (length l1).
Proof.
  intros Hnd Hin. apply list_elem_of_split in Hin as (l1 & l2 & ->).
  exists l1, l2. split; [done|]. apply findNext_app; [|done].
  rewrite fmap_app, fmap_cons in Hnd.
  apply NoDup_app in Hnd as (_ & Hd & _).
  apply Forall_forall. intros x Hx Heq.
  apply (Hd (getID x)); [by apply list_elem_of_fmap_2|].
  rewrite Heq. by left.
Qed.

Lemma queue_inv_newEntries (d : DirDownload) (entries : list Entry)
    (moved : nat -> QListData_insert) (this : DownloadManager) :
  queue_inv this ->
  Dir d ∈ downloads this -> dd_retrieving d = true ->
  queue_inv (newEntries d entries moved this).
Proof.
  intros Hinv Hin Hr. unfold newEntries. simpl.
  destruct (sender_found d (downloads this)) as (l1 & l2 & Hds & ->);
    [apply Hinv|done|].
  apply queue_inv_scanTheQueueToRetrieveEntries, queue_inv_newEntries_loop.
  rewrite Hds, delete_length_app.
  assert (Hrem : queue_inv (set_downloads (l1 ++ l2) this)).
  { apply queue_inv_removal; [|done]. by apply (removal_one _ l1 (Dir d) l2). }
  destruct Hinv as (_ & _ & _ & H4 & _).
  destruct Hrem as (H1 & H2 & H3 & _ & _).
  unfold queue_inv, retrieving in *. simpl in *.
  rewrite Hds in H4. rewrite !count_app in *. simpl in H4.
  rewrite Hr in H4.
  repeat split; try done; lia.
Qed.

Lemma queue_inv_downloadDeleted (download : nat) (this : DownloadManager) :
  queue_inv this -> queue_inv (downloadDeleted download this).
Proof. apply queue_inv_removal, removeOne_removal. Qed.

(** *** The scheduling loop *)

Lemma alter_alter {A} (g2 g1 : A -> A) (i : nat) (l : list A) :
  alter g2 i (alter g1 i l) = alter (fun x => g2 (g1 x)) i l.
Proof.
  revert i. induction l as [|x l IH]; intros [|i]; f_equal/=; auto.
Qed.

Lemma count_alter {A} (p : A -> bool) (g : A -> A) (i : nat) (l : list A)
    (c : A) :
  l !! i = Some c ->
  count p (alter g i l) + (if p c then 1 else 0)
  = count p l + (if p (g c) then 1 else 0).
Proof.
  revert i. induction l as [|x l IH]; intros [|i] H; simplify_eq/=.
  - lia.
  - specialize (IH i H). lia.
Qed.

(** A chunk download that is DOWNLOADING is connected to the slot. *)
Definition connected (c : ChunkDownload) : Prop :=
  is_DOWNLOADING c = true -> chunk_connections c <> 0.

(** The status a visited file download reports is in the soft-error
    class. *)
Definition soft_error (oracle : Oracle) (id : nat) : bool :=
  (0x20 <=? answer_status (oracle id))%Z.

Lemma scanTheQueue_body_spec (oracle : Oracle) (f : FileDownload) (copy : Z)
    (this : DownloadManager) :
  let '(f', copy', this') := scanTheQueue_body oracle f copy this in
  exists evs,
    log this' = log this ++ evs
    /\ describe (File f') = describe (File f)
    /\ this'
       = mkDownloadManager (NUMBER_OF_DOWNLOADER this) (downloads this)
           (numberOfDownload this + Z.of_nat (increments evs))
           (retrievingEntries this)
           (mkQTimer (interval (timer this)) (singleShot (timer this))
              (active (timer this) || soft_error oracle (fd_id f)))
           (persistent this) (nextID this) (log this ++ evs)
    /\ copy' = (if Nat.eqb (increments evs) 0 then copy
                else numberOfDownload this')
    /\ increments evs <= 1
    /\ decrements evs = 0
    /\ visited evs = [fd_id f]
    /\ count is_DOWNLOADING (fd_chunkDownloads f')
       = count is_DOWNLOADING (fd_chunkDownloads f) + increments evs
    /\ (Forall connected (fd_chunkDownloads f) ->
        Forall connected (fd_chunkDownloads f'))
    /\ (soft_error oracle (fd_id f) = true -> Call_timer_start ∈ evs).
Proof.
  unfold scanTheQueue_body, getAChunkToDownload, soft_error.
  destruct this as [N ds n r [iv ss ac] p nx lg].
  destruct (oracle (fd_id f)) as [ch st started] eqn:Ho. simpl.
  assert (Hnone : forall f0,
    describe (File f0) = describe (File f) ->
    fd_chunkDownloads f0 = fd_chunkDownloads f ->
    let '(f', copy', this') :=
      (f0, copy,
       if (32 <=? st)%Z
       then set_timer (mkQTimer iv ss true)
              (emit Call_timer_start
                 (emit (Call_getAChunkToDownload (fd_id f))
                    (mkDownloadManager N ds n r (mkQTimer iv ss ac) p nx lg)))
       else emit (Call_getAChunkToDownload (fd_id f))
              (mkDownloadManager N ds n r (mkQTimer iv ss ac) p nx lg)) in
    exists evs,
      log this' = lg ++ evs
      /\ describe (File f') = describe (File f)
      /\ this'
         = mkDownloadManager N ds (n + Z.of_nat (increments evs)) r
             (mkQTimer iv ss (ac || (32 <=? st)%Z)) p nx (lg ++ evs)
      /\ copy' = (if Nat.eqb (increments evs) 0 then copy
                  else numberOfDownload this')
      /\ increments evs <= 1
      /\ decrements evs = 0
      /\ visited evs = [fd_id f]
      /\ count is_DOWNLOADING (fd_chunkDownloads f')
         = count is_DOWNLOADING (fd_chunkDownloads f) + increments evs
      /\ (Forall connected (fd_chunkDownloads f) ->
          Forall connected (fd_chunkDownloads f'))
      /\ ((32 <=? st)%Z = true -> Call_timer_start ∈ evs)).
  { intros f0 Hd Hc. destruct (32 <=? st)%Z; simpl; eexists;
      (split; [rewrite <- ?app_assoc; reflexivity|]);
      unfold set_timer, emit, increments, decrements, visited; simpl;
      rewrite <- ?app_assoc, Hc, ?orb_true_r, ?orb_false_r, Z.add_0_r;
      repeat split; try done; try lia.
    intros _. apply elem_of_cons. right. by left. }
  destruct ch as [i|]; [|by apply (Hnone (with_status st f))].
  destruct (fd_chunkDownloads f !! i) as [c|] eqn:Hi;
    [|by apply (Hnone (with_status st f))].
  destruct (is_IDLE c) eqn:Hidle; [|by apply (Hnone (with_status st f))].
  assert (Hnd : is_DOWNLOADING c = false).
  { unfold is_IDLE, is_DOWNLOADING in *. by destruct (chunk_status c). }
  clear Hnone. unfold alter_chunk, startDownloading. simpl.
  rewrite alter_alter.
  destruct started; destruct (32 <=? st)%Z; simpl; eexists;
    (split; [rewrite <- ?app_assoc; reflexivity|]);
    unfold set_timer, emit, set_numberOfDownload, increments, decrements,
      visited; simpl;
    rewrite <- ?app_assoc, ?orb_true_r, ?orb_false_r, ?Z.add_0_r; simpl;
    (repeat split; try done; try lia);
    try (pose proof (count_alter is_DOWNLOADING
           (fun x => set_status DOWNLOADING (connect x)) i _ c Hi) as Hc;
         rewrite Hnd in Hc; simpl in Hc; lia);
    try (pose proof (count_alter is_DOWNLOADING (fun x => connect x) i _ c Hi)
           as Hc;
         cbv beta in Hc;
         change (is_DOWNLOADING (connect c)) with (is_DOWNLOADING c) in Hc;
         rewrite Hnd in Hc; lia);
    try (intros HF; apply Forall_alter; [done|];
         intros x _ _; unfold connected; simpl; lia);
    try (intros _; apply elem_of_cons; right; by left).
Qed.

Lemma visited_app (l1 l2 : list Event) :
  visited (l1 ++ l2) = visited l1 ++ visited l2.
Proof. apply omap_app. Qed.

Lemma scanTheQueue_loop_spec (oracle : Oracle) (ds : list Download) (copy : Z)
    (this : DownloadManager) :
  copy = numberOfDownload this ->
  let '(ds', this') := scanTheQueue_loop oracle ds copy this in
  exists evs,
    this'
    = mkDownloadManager (NUMBER_OF_DOWNLOADER this) (downloads this)
        (numberOfDownload this + Z.of_nat (increments evs))
        (retrievingEntries this)
        (mkQTimer (interval (timer this)) (singleShot (timer this))
           (active (timer this) || existsb (soft_error oracle) (visited evs)))
        (persistent this) (nextID this) (log this ++ evs)
    /\ describe <$> ds' = describe <$> ds
    /\ is_retrieving <$> ds' = is_retrieving <$> ds
    /\ decrements evs = 0
    /\ downloading ds' = downloading ds + increments evs
    /\ (Forall connected (all_chunks ds) -> Forall connected (all_chunks ds'))
    /\ visited evs `prefix_of` file_ids ds
    /\ (visited evs <> file_ids ds ->
        (NUMBER_OF_DOWNLOADER this <= numberOfDownload this')%Z)
    /\ (numberOfDownload this'
        <= Z.max (numberOfDownload this) (NUMBER_OF_DOWNLOADER this))%Z
    /\ (existsb (soft_error oracle) (visited evs) = true ->
        Call_timer_start ∈ evs)
    /\ (count is_start_attempt evs <> 0 ->
        (numberOfDownload this < NUMBER_OF_DOWNLOADER this)%Z).
Proof.
  revert copy this.
  induction ds as [|d ds IH]; intros copy this Hcopy; simpl.
  - exists []. destruct this as [N ds0 n r [iv ss ac] p nx lg]. simpl.
    rewrite app_nil_r, orb_false_r, Z.add_0_r.
    repeat split; try done; try lia.
  - destruct (copy <? NUMBER_OF_DOWNLOADER this)%Z eqn:Hguard.
    2:{ exists []. destruct this as [N ds0 n r [iv ss ac] p nx lg].
        simpl in *. rewrite app_nil_r, orb_false_r, Z.add_0_r.
        apply Z.ltb_ge in Hguard.
        repeat split; try done; try lia.
        apply prefix_nil. }
    apply Z.ltb_lt in Hguard.
    destruct d as [f|dd].
    + pose proof (scanTheQueue_body_spec oracle f copy this) as Hb.
      destruct (scanTheQueue_body oracle f copy this) as [[f' copy'] this0].
      destruct Hb as (evs0 & _ & Hdesc & Hthis0 & Hcopy' & Hle & Hdec0 & Hvis0
                      & Hcnt0 & Hconn0 & Hsoft0).
      assert (Hc0 : copy' = numberOfDownload this0).
      { rewrite Hcopy'. destruct (Nat.eqb_spec (increments evs0) 0) as [He|He];
          [|done]. rewrite Hthis0, He. simpl. lia. }
      specialize (IH copy' this0 Hc0).
      destruct (scanTheQueue_loop oracle ds copy' this0) as [ds1 this1].
      destruct IH as (evs1 & Hthis1 & Hdesc1 & Hret1 & Hdec1 & Hcnt1 & Hconn1
                      & Hvis1 & Hstop1 & Hbound1 & Hsoft1 & Hatt1).
      exists (evs0 ++ evs1). subst this0 this1. simpl in *.
      unfold increments, decrements, downloading in *.
      rewrite !count_app, visited_app, Hvis0, app_assoc in *. simpl in *.
      rewrite !count_app in *.
      repeat split; try done.
      * by rewrite orb_assoc, Nat2Z.inj_add, Z.add_assoc.
      * by f_equal.
      * by f_equal.
      * lia.
      * lia.
      * rewrite !Forall_app. intros [H1 H2]. split; auto.
      * by apply prefix_cons.
      * intros Hne. etransitivity; [apply Hstop1; congruence|]. lia.
      * lia.
      * intros [Hs|Hs]%orb_true_iff; apply elem_of_app; auto.
      * intros _. lia.
    + specialize (IH copy this Hcopy).
      destruct (scanTheQueue_loop oracle ds copy this) as [ds1 this1].
      destruct IH as (evs1 & Hthis1 & Hdesc1 & Hret1 & Hdec1 & Hcnt1 & Hconn1
                      & Hvis1 & Hstop1 & Hbound1 & Hsoft1 & Hatt1).
      exists evs1. rewrite !fmap_cons, Hdesc1, Hret1.
      repeat split; done.
Qed.

Lemma scanTheQueue_spec (oracle : Oracle) (this : DownloadManager) :
  exists ds' evs,
    scanTheQueue oracle this
    = mkDownloadManager (NUMBER_OF_DOWNLOADER this) ds'
        (numberOfDownload this + Z.of_nat (increments evs))
        (retrievingEntries this)
        (mkQTimer (interval (timer this)) (singleShot (timer this))
           (active (timer this) || existsb (soft_error oracle) (visited evs)))
        (persistent this) (nextID this) (log this ++ evs)
    /\ describe <$> ds' = describe <$> downloads this
    /\ is_retrieving <$> ds' = is_retrieving <$> downloads this
    /\ decrements evs = 0
    /\ downloading ds' = downloading (downloads this) + increments evs
    /\ (Forall connected (all_chunks (downloads this)) ->
        Forall connected (all_chunks ds'))
    /\ visited evs `prefix_of` file_ids (downloads this)
    /\ (visited evs <> file_ids (downloads this) ->
        (NUMBER_OF_DOWNLOADER this
         <= numberOfDownload this + Z.of_nat (increments evs))%Z)
    /\ (numberOfDownload this + Z.of_nat (increments evs)
        <= Z.max (numberOfDownload this) (NUMBER_OF_DOWNLOADER this))%Z
    /\ (existsb (soft_error oracle) (visited evs) = true ->
        Call_timer_start ∈ evs)
    /\ (count is_start_attempt evs <> 0 ->
        (numberOfDownload this < NUMBER_OF_DOWNLOADER this)%Z).
Proof.
  pose proof (scanTheQueue_loop_spec oracle (downloads this)
                (numberOfDownload this) this eq_refl) as H.
  unfold scanTheQueue.
  destruct (scanTheQueue_loop oracle (downloads this) (numberOfDownload this)
              this) as [ds' this'].
  destruct H as (evs & -> & H). exists ds', evs. split; [done|]. exact H.
Qed.

(** *** Updates of one download in place *)

Lemma fmap_alter_same {A B} (v : A -> B) (g : A -> A) (k : nat) (l : list A) :
  (forall x, v (g x) = v x) -> v <$> alter g k l = v <$> l.
Proof.
  intros H. rewrite (list_fmap_alter v g id).
  - by apply list_alter_id.
  - apply Forall_forall. intros x _. apply H.
Qed.

Lemma all_chunks_alter_Some (g : Download -> Download) (k : nat)
    (ds : list Download) (d : Download) :
  ds !! k = Some d ->
  exists l1 l2,
    all_chunks ds = l1 ++ chunks_of d ++ l2
    /\ all_chunks (alter g k ds) = l1 ++ chunks_of (g d) ++ l2.
Proof.
  revert k. induction ds as [|x ds IH]; intros [|k] H; simplify_eq/=.
  - by exists [], (all_chunks ds).
  - destruct (IH k H) as (l1 & l2 & -> & ->).
    exists (chunks_of x ++ l1), l2. by rewrite <- !app_assoc.
Qed.

Lemma all_chunks_alter_None (g : Download -> Download) (k : nat)
    (ds : list Download) :
  ds !! k = None -> alter g k ds = ds.
Proof.
  revert k. induction ds as [|x ds IH]; intros [|k] H; simplify_eq/=;
    f_equal; auto.
Qed.

(** *** The invariant of the counter *)

Definition counter_inv (this : DownloadManager) : Prop :=
  numberOfDownload this = Z.of_nat (downloading (downloads this))
  /\ Forall connected (all_chunks (downloads this))
  /\ (numberOfDownload this <= Z.max 0 (NUMBER_OF_DOWNLOADER this))%Z
  /\ Z.of_nat (increments (log this))
     = (Z.of_nat (decrements (log this)) + numberOfDownload this)%Z
  /\ ((NUMBER_OF_DOWNLOADER this <= 0)%Z ->
      count is_start_attempt (log this) = 0)
  /\ interval (timer this) = RESCAN_QUEUE_PERIOD_IF_ERROR
  /\ singleShot (timer this) = true.

Lemma counter_inv_view (this this' : DownloadManager) :
  counter_view this' = counter_view this ->
  counter_inv this -> counter_inv this'.
Proof.
  unfold counter_view, counter_inv, downloading.
  intros Hv. injection Hv as -> -> -> -> -> -> ->. done.
Qed.

Lemma counter_inv_scanTheQueue (oracle : Oracle) (this : DownloadManager) :
  counter_inv this -> counter_inv (scanTheQueue oracle this).
Proof.
  intros (H1 & H2 & H3 & H4 & H5 & H6 & H7).
  destruct (scanTheQueue_spec oracle this)
    as (ds' & evs & -> & _ & _ & Hdec & Hcnt & Hconn & _ & _ & Hb & _ & Hatt).
  unfold counter_inv, increments, decrements in *. simpl.
  rewrite !count_app, Hdec, Hcnt.
  repeat split; try done; try lia; auto.
Qed.

Lemma counter_inv_timeout (oracle : Oracle) (this : DownloadManager) :
  counter_inv this -> counter_inv (timeout oracle this).
Proof.
  intros H. apply counter_inv_scanTheQueue.
  destruct H as (H1 & H2 & H3 & H4 & H5 & H6 & H7).
  by repeat split.
Qed.

Lemma connected_new_ChunkDownload : connected new_ChunkDownload.
Proof. done. Qed.

Lemma counter_inv_hashReceived (position : nat) (this : DownloadManager) :
  counter_inv this -> counter_inv (hashReceived position this).
Proof.
  intros (H1 & H2 & H3 & H4 & H5 & H6 & H7).
  unfold hashReceived.
  destruct (downloads this !! position) as [d|] eqn:Hd.
  2:{ rewrite all_chunks_alter_None by done. by destruct this. }
  edestruct (all_chunks_alter_Some) as (l1 & l2 & Hl & Hl'); [exact Hd|].
  unfold counter_inv, downloading in *. simpl. rewrite Hl'. rewrite Hl in *.
  clear Hl Hl'.
  destruct d as [f|dd]; simpl in *; [|done].
  rewrite !count_app in H1. rewrite !count_app. simpl.
  apply Forall_app in H2 as [Ha [Hb Hc]%Forall_app].
  repeat split; try done; try lia.
  rewrite !Forall_app. repeat split; try done.
  repeat constructor. done.
Qed.

Lemma lookup_chunk_Some (position chunk : nat) (ds : list Download)
    (c : ChunkDownload) :
  lookup_chunk position chunk ds = Some c ->
  exists f, ds !! position = Some (File f)
            /\ fd_chunkDownloads f !! chunk = Some c.
Proof.
  unfold lookup_chunk. destruct (ds !! position) as [[f|dd]|]; try done.
  intros H. by exists f.
Qed.

Lemma lookup_chunk_elem (position chunk : nat) (ds : list Download)
    (c : ChunkDownload) :
  lookup_chunk position chunk ds = Some c -> c ∈ all_chunks ds.
Proof.
  intros (f & Hf & Hc)%lookup_chunk_Some.
  apply (all_chunks_alter_Some id) in Hf as (l1 & l2 & -> & _).
  rewrite !elem_of_app. right. left. simpl.
  by apply list_elem_of_lookup_2 in Hc.
Qed.

Lemma counter_inv_downloadFinished (position chunk : nat) (s : ChunkStatus)
    (this : DownloadManager) :
  admissible (In_downloadFinished position chunk s) this ->
  counter_inv this -> counter_inv (downloadFinished position chunk s this).
Proof.
  intros [(c & Hc & Hst) Hs] (H1 & H2 & H3 & H4 & H5 & H6 & H7).
  unfold downloadFinished. rewrite Hc.
  assert (Hconn : chunk_connections c <> 0).
  { rewrite Forall_forall in H2. apply (H2 c).
    - by apply lookup_chunk_elem in Hc.
    - unfold is_DOWNLOADING. by rewrite Hst. }
  apply Nat.eqb_neq in Hconn. rewrite Hconn. simpl.
  unfold chunkDownloadFinished, alter_download_chunk. simpl.
  rewrite alter_alter.
  apply lookup_chunk_Some in Hc as (f & Hf & Hc).
  edestruct (all_chunks_alter_Some) as (l1 & l2 & Hl & Hl'); [exact Hf|].
  unfold counter_inv, downloading, increments, decrements in *. simpl.
  rewrite Hl'. rewrite Hl in *. clear Hl Hl'. simpl in *.
  rewrite !count_app in *. simpl. rewrite alter_alter.
  pose proof (count_alter is_DOWNLOADING
                (fun x => disconnect (set_status s x)) chunk _ c Hc) as Hcnt.
  cbv beta in Hcnt.
  assert (Hs' : is_DOWNLOADING (disconnect (set_status s c)) = false)
    by (by destruct s).
  assert (Hc' : is_DOWNLOADING c = true)
    by (unfold is_DOWNLOADING; by rewrite Hst).
  rewrite Hs', Hc' in Hcnt.
  apply Forall_app in H2 as [Ha [Hb Hd]%Forall_app].
  repeat split; try done; try lia.
  rewrite !Forall_app. repeat split; try done.
  apply Forall_alter; [done|]. intros x _ _.
  unfold connected, is_DOWNLOADING. simpl. by destruct s.
Qed.

Lemma counter_inv_downloadDeleted (download : nat) (this : DownloadManager) :
  admissible (In_downloadDeleted download) this ->
  counter_inv this -> counter_inv (downloadDeleted download this).
Proof.
  intros Hadm (H1 & H2 & H3 & H4 & H5 & H6 & H7).
  unfold downloadDeleted.
  destruct (removeOne_found download (downloads this))
    as [->|(l1 & x & l2 & Hds & Hx & ->)]; [by destruct this|].
  simpl in Hadm. specialize (Hadm x). rewrite Hds in Hadm.
  assert (Hnone : count is_DOWNLOADING (chunks_of x) = 0).
  { apply count_zero_Forall, Forall_forall. intros c Hc.
    assert (Hx' : no_chunk_downloading x).
    { apply Hadm; [|done]. apply elem_of_app. right. by left. }
    destruct x as [f|dd]; simpl in *; [|by apply elem_of_nil in Hc].
    specialize (Hx' c Hc). unfold is_DOWNLOADING.
    by destruct (chunk_status c). }
  unfold counter_inv, downloading in *. simpl. rewrite Hds in *.
  rewrite !all_chunks_app in *. simpl in *.
  rewrite !count_app in *. rewrite !Forall_app in *.
  repeat split; try tauto; try lia.
Qed.

(** *** What the scheduling handlers leave alone *)

Lemma queue_view_scanTheQueue (oracle : Oracle) (this : DownloadManager) :
  queue_view (scanTheQueue oracle this) = queue_view this.
Proof.
  destruct (scanTheQueue_spec oracle this) as (ds' & evs & -> & Hd & Hr & _).
  unfold queue_view. simpl.
  by rewrite keys_describe, ids_describe, Hd, Hr, <- keys_describe,
    <- ids_describe.
Qed.

Lemma queue_view_timeout (oracle : Oracle) (this : DownloadManager) :
  queue_view (timeout oracle this) = queue_view this.
Proof. unfold timeout. by rewrite queue_view_scanTheQueue. Qed.

Lemma queue_view_hashReceived (position : nat) (this : DownloadManager) :
  queue_view (hashReceived position this) = queue_view this.
Proof.
  unfold queue_view, hashReceived, keys. simpl.
  rewrite !fmap_alter_same; [done| | |]; by intros [f|d].
Qed.

Lemma queue_view_fileCompleted (position : nat) (this : DownloadManager) :
  queue_view (fileCompleted position this) = queue_view this.
Proof.
  unfold queue_view, fileCompleted, keys. simpl.
  rewrite !fmap_alter_same; [done| | |]; by intros [f|d].
Qed.

Lemma counter_view_fileCompleted (position : nat) (this : DownloadManager) :
  counter_view (fileCompleted position this) = counter_view this.
Proof.
  unfold counter_view, fileCompleted. simpl.
  rewrite (all_chunks_fmap_eq _ (downloads this)); [done|].
  apply fmap_alter_same. by intros [f|d].
Qed.

Lemma queue_view_alter_download_chunk (g : ChunkDownload -> ChunkDownload)
    (position chunk : nat) (this : DownloadManager) :
  queue_view
    (set_downloads (alter_download_chunk g position chunk (downloads this))
       this)
  = queue_view this.
Proof.
  unfold queue_view, alter_download_chunk, keys. simpl.
  rewrite !fmap_alter_same; [done| | |]; by intros [f|d].
Qed.

Lemma queue_view_downloadFinished (position chunk : nat) (s : ChunkStatus)
    (this : DownloadManager) :
  queue_view (downloadFinished position chunk s this) = queue_view this.
Proof.
  unfold downloadFinished.
  pose proof (queue_view_alter_download_chunk (set_status s) position chunk
                this) as H1.
  destruct (match lookup_chunk position chunk (downloads this) with
            | Some c => negb (Nat.eqb (chunk_connections c) 0)
            | None => false
            end); [|done].
  rewrite <- H1.
  apply (queue_view_alter_download_chunk disconnect position chunk).
Qed.

(** *** Loading the queue *)

Lemma for_each_call {A} (g : A -> DownloadManager -> DownloadManager)
    (l : list A) (this : DownloadManager) :
  for_each l (fun x => call (g x)) this
  = (returns tt, fold_left (fun this x => g x this) l this).
Proof.
  revert this. induction l as [|x l IH]; intros this; simpl; [done|].
  unfold bind, call at 1. by rewrite IH.
Qed.

Definition replay (entries : list Queue_Entry) (this : DownloadManager)
    : DownloadManager :=
  fold_left
    (fun this entry =>
       addDownload_complete (qe_entry entry) (qe_peer_id entry)
         (qe_complete entry) this)
    entries this.

Lemma loadQueueFromFile_cases (this : DownloadManager) :
  loadQueueFromFile FILE_QUEUE_VERSION this
  = (returns tt,
     match FILE_QUEUE (persistent this) with
     | missing => emit L_WARN_queue_file_missing this
     | undecodable => emit L_WARN_queue_unknown_exception this
     | stored savedQueue =>
         if (to_int (queue_version savedQueue) =? FILE_QUEUE_VERSION)%Z
         then replay (queue_entry savedQueue) this
         else
           emit Call_rmValue
             (set_persistent
                (mkPersistentData missing (writable (persistent this)))
                (emit (L_ERRO_version_mismatch (queue_version savedQueue))
                   this))
     end).
Proof.
  unfold loadQueueFromFile, try_catch, bind, getValue.
  destruct (FILE_QUEUE (persistent this)) as [| |q]; try done.
  destruct (to_int (queue_version q) =? FILE_QUEUE_VERSION)%Z; simpl.
  - by rewrite for_each_call.
  - done.
Qed.

Lemma counter_view_replay (entries : list Queue_Entry) (this : DownloadManager) :
  counter_view (replay entries this) = counter_view this.
Proof.
  revert this. induction entries as [|e entries IH]; intros this; [done|].
  simpl. rewrite IH. apply counter_view_addDownload_at.
Qed.

Lemma queue_inv_replay (entries : list Queue_Entry) (this : DownloadManager) :
  queue_inv this -> queue_inv (replay entries this).
Proof.
  revert this. induction entries as [|e entries IH]; intros this H; [done|].
  simpl. by apply IH, queue_inv_addDownload_at.
Qed.

Lemma counter_view_fileCacheLoaded (this : DownloadManager) :
  counter_view (fileCacheLoaded FILE_QUEUE_VERSION this) = counter_view this.
Proof.
  unfold fileCacheLoaded. rewrite loadQueueFromFile_cases. simpl.
  destruct (FILE_QUEUE (persistent this)) as [| |q];
    try by apply counter_view_emit.
  destruct (to_int (queue_version q) =? FILE_QUEUE_VERSION)%Z.
  - apply counter_view_replay.
  - rewrite counter_view_emit by done.
    by rewrite <- (counter_view_emit
                     (L_ERRO_version_mismatch (queue_version q)) this).
Qed.

Lemma queue_inv_fileCacheLoaded (this : DownloadManager) :
  queue_inv this -> queue_inv (fileCacheLoaded FILE_QUEUE_VERSION this).
Proof.
  intros H. unfold fileCacheLoaded. rewrite loadQueueFromFile_cases. simpl.
  destruct (FILE_QUEUE (persistent this)) as [| |q]; try done.
  destruct (to_int (queue_version q) =? FILE_QUEUE_VERSION)%Z; [|done].
  by apply queue_inv_replay.
Qed.

Lemma counter_view_newEntries (d : DirDownload) (entries : list Entry)
    (moved : nat -> QListData_insert) (this : DownloadManager) :
  NoDup (getID <$> downloads this) -> Dir d ∈ downloads this ->
  counter_view (newEntries d entries moved this) = counter_view this.
Proof.
  intros Hnd Hin. unfold newEntries. simpl.
  destruct (sender_found d (downloads this) Hnd Hin) as (l1 & l2 & Hds & ->).
  rewrite counter_view_scanTheQueueToRetrieveEntries.
  rewrite counter_view_newEntries_loop.
  unfold counter_view. simpl.
  rewrite Hds, delete_length_app, !all_chunks_app. done.
Qed.

(** *** Every reachable state is well formed *)

Local Abbreviation reachable :=
  (DM.reachable RESCAN_QUEUE_PERIOD_IF_ERROR FILE_QUEUE_VERSION).
Local Abbreviation new_DownloadManager :=
  (DM.new_DownloadManager RESCAN_QUEUE_PERIOD_IF_ERROR).
Local Abbreviation handle := (DM.handle FILE_QUEUE_VERSION).
Local Abbreviation step := (DM.step FILE_QUEUE_VERSION).

Lemma counter_view_NUMBER_OF_DOWNLOADER (this this' : DownloadManager) :
  counter_view this' = counter_view this ->
  NUMBER_OF_DOWNLOADER this' = NUMBER_OF_DOWNLOADER this.
Proof. by intros [= ? _]. Qed.

Lemma queue_inv_handle (input : Input) (this : DownloadManager) :
  admissible input this -> queue_inv this -> queue_inv (handle input this).
Proof.
  intros Hadm Hinv. destruct input; simpl.
  - by apply queue_inv_addDownload_at.
  - by apply queue_inv_fileCacheLoaded.
  - destruct Hadm. by apply queue_inv_newEntries.
  - by apply queue_inv_downloadDeleted.
  - revert Hinv. apply queue_inv_view, queue_view_scanTheQueue.
  - revert Hinv. apply queue_inv_view, queue_view_timeout.
  - revert Hinv. apply queue_inv_view, queue_view_hashReceived.
  - revert Hinv. apply queue_inv_view, queue_view_downloadFinished.
  - revert Hinv. apply queue_inv_view, queue_view_fileCompleted.
Qed.

Lemma counter_inv_handle (input : Input) (this : DownloadManager) :
  admissible input this -> queue_inv this -> counter_inv this ->
  counter_inv (handle input this).
Proof.
  intros Hadm Hq Hinv. destruct input; simpl.
  - revert Hinv. apply counter_inv_view, counter_view_addDownload_at.
  - revert Hinv. apply counter_inv_view, counter_view_fileCacheLoaded.
  - revert Hinv. destruct Hadm.
    apply counter_inv_view, counter_view_newEntries; [apply Hq|done].
  - by apply counter_inv_downloadDeleted.
  - by apply counter_inv_scanTheQueue.
  - by apply counter_inv_timeout.
  - by apply counter_inv_hashReceived.
  - by apply counter_inv_downloadFinished.
  - revert Hinv. apply counter_inv_view, counter_view_fileCompleted.
Qed.

Lemma NUMBER_OF_DOWNLOADER_handle (input : Input) (this : DownloadManager) :
  NUMBER_OF_DOWNLOADER (handle input this) = NUMBER_OF_DOWNLOADER this.
Proof.
  destruct input; cbn [DM.handle]; unfold peerNoLongerDownloadingChunk.
  - apply counter_view_NUMBER_OF_DOWNLOADER, counter_view_addDownload_at.
  - apply counter_view_NUMBER_OF_DOWNLOADER, counter_view_fileCacheLoaded.
  - unfold newEntries. simpl.
    destruct (findNext (dd_id dirDownload) (downloads this)); [|done].
    etransitivity;
      [apply counter_view_NUMBER_OF_DOWNLOADER,
         counter_view_scanTheQueueToRetrieveEntries|].
    etransitivity;
      [apply counter_view_NUMBER_OF_DOWNLOADER,
         counter_view_newEntries_loop|].
    done.
  - done.
  - by destruct (scanTheQueue_spec oracle this) as (ds' & evs & -> & _).
  - unfold timeout.
    by destruct (scanTheQueue_spec oracle
                   (set_timer (timer_expire (timer this)) this))
      as (ds' & evs & -> & _).
  - done.
  - unfold downloadFinished.
    by destruct (match _ with Some _ => _ | None => _ end).
  - done.
Qed.

Lemma reachable_inv (number_of_downloader : Z) (store : PersistentData)
    (this : DownloadManager) :
  reachable number_of_downloader store this ->
  queue_inv this /\ counter_inv this
  /\ NUMBER_OF_DOWNLOADER this = to_int number_of_downloader.
Proof.
  induction 1 as [|this input this' Hreach (Hq & Hc & HN) Hstep].
  - repeat split; simpl; try done; try lia; try apply NoDup_nil_2;
      try (unfold retrieving; simpl; lia); constructor.
  - destruct Hstep as [input Hadm]. split; [|split].
    + by apply queue_inv_handle.
    + by apply counter_inv_handle.
    + by rewrite NUMBER_OF_DOWNLOADER_handle.
Qed.

(** *** The variant of a download agrees with the type of its entry *)

Definition well_typed (d : Download) : Prop :=
  entry_type (getEntry d)
  = if is_Dir d then Entry_Type_DIR else Entry_Type_FILE.

Definition typed_inv (this : DownloadManager) : Prop :=
  Forall well_typed (downloads this).

Lemma typed_inv_scanTheQueueToRetrieveEntries (this : DownloadManager) :
  typed_inv this -> typed_inv (scanTheQueueToRetrieveEntries this).
Proof.
  unfold typed_inv. intros H.
  destruct (scanTheQueueToRetrieveEntries_cases this)
    as [[-> _]|(_ & pre & d & post & Hds & _ & ->)]; [done|].
  simpl. rewrite Hds in H.
  apply Forall_app in H as [H1 [H2 H3]%Forall_cons].
  apply Forall_app. split; [done|]. by apply Forall_cons.
Qed.

Lemma Forall_iterator_insert {A} (P : A -> Prop) (i : nat) (x : A) (l : list A) :
  P x -> Forall P l -> Forall P (iterator_insert i x l).
Proof.
  intros Hx Hl. unfold iterator_insert. apply Forall_app.
  split; [by apply Forall_take|]. apply Forall_cons.
  split; [done|by apply Forall_drop].
Qed.

Lemma typed_inv_addDownload_at (entry : Entry) (peerSource : Hash)
    (complete : bool) (iterator : nat) (this : DownloadManager) :
  typed_inv this ->
  typed_inv (addDownload_at entry peerSource complete iterator this).
Proof.
  intros H. unfold addDownload_at.
  destruct (isEntryAlreadyQueued entry this); [done|].
  destruct (entry_type entry) eqn:Ht.
  - unfold typed_inv. simpl. by apply Forall_iterator_insert.
  - apply typed_inv_scanTheQueueToRetrieveEntries.
    unfold typed_inv. simpl. by apply Forall_iterator_insert.
Qed.

Lemma typed_inv_newEntries_loop (moved : nat -> QListData_insert)
    (peerSource : Hash) (entries : list Entry) (n i : nat)
    (this : DownloadManager) :
  typed_inv this ->
  typed_inv (newEntries_loop moved peerSource entries n i this).
Proof.
  revert n i this.
  induction entries as [|e entries IH]; intros n i this H; simpl; [done|].
  by apply IH, typed_inv_addDownload_at.
Qed.

Lemma typed_inv_replay (entries : list Queue_Entry) (this : DownloadManager) :
  typed_inv this -> typed_inv (replay entries this).
Proof.
  revert this. induction entries as [|e entries IH]; intros this H; [done|].
  simpl. by apply IH, typed_inv_addDownload_at.
Qed.

Lemma typed_scanTheQueue_loop (oracle : Oracle) (ds : list Download) (copy : Z)
    (this : DownloadManager) :
  Forall well_typed ds ->
  Forall well_typed (scanTheQueue_loop oracle ds copy this).1.
Proof.
  revert copy this. induction ds as [|d ds IH]; intros copy this H; simpl;
    [done|].
  destruct (copy <? NUMBER_OF_DOWNLOADER this)%Z; [|done].
  apply Forall_cons in H as [Hd H]. destruct d as [f|dd].
  - pose proof (scanTheQueue_body_spec oracle f copy this) as Hb.
    destruct (scanTheQueue_body oracle f copy this) as [[f' copy'] this0].
    destruct Hb as (evs & _ & Hdesc & _).
    specialize (IH copy' this0 H).
    destruct (scanTheQueue_loop oracle ds copy' this0) as [ds1 this1].
    simpl in *. constructor; [|done].
    unfold well_typed in *. simpl in *. by injection Hdesc as _ -> _ _.
  - specialize (IH copy this H).
    destruct (scanTheQueue_loop oracle ds copy this) as [ds1 this1].
    simpl in *. by constructor.
Qed.

Lemma typed_inv_scanTheQueue (oracle : Oracle) (this : DownloadManager) :
  typed_inv this -> typed_inv (scanTheQueue oracle this).
Proof.
  unfold typed_inv, scanTheQueue. intros H.
  pose proof (typed_scanTheQueue_loop oracle (downloads this)
                (numberOfDownload this) this H) as H'.
  by destruct (scanTheQueue_loop oracle (downloads this)
                 (numberOfDownload this) this).
Qed.

Lemma typed_inv_handle (input : Input) (this : DownloadManager) :
  typed_inv this -> typed_inv (handle input this).
Proof.
  intros H. destruct input; cbn [DM.handle].
  - by apply typed_inv_addDownload_at.
  - unfold fileCacheLoaded. rewrite loadQueueFromFile_cases. simpl.
    destruct (FILE_QUEUE (persistent this)) as [| |q]; try done.
    destruct (to_int (queue_version q) =? FILE_QUEUE_VERSION)%Z; [|done].
    by apply typed_inv_replay.
  - unfold newEntries. simpl.
    destruct (findNext (dd_id dirDownload) (downloads this)); [|done].
    apply typed_inv_scanTheQueueToRetrieveEntries,
      typed_inv_newEntries_loop.
    unfold typed_inv. simpl. by apply Forall_delete.
  - unfold typed_inv, downloadDeleted in *. simpl.
    destruct (removeOne_removal download (downloads this)) as [|l1 x l2 Hds];
      [done|].
    rewrite Hds in H.
    apply Forall_app in H as [H1 [H2 H3]%Forall_cons]. by apply Forall_app.
  - by apply typed_inv_scanTheQueue.
  - by apply typed_inv_scanTheQueue.
  - unfold typed_inv, hashReceived. simpl.
    apply Forall_alter; [done|]. by intros [f|d] _.
  - unfold downloadFinished, chunkDownloadFinished, alter_download_chunk,
      typed_inv.
    destruct (match _ with Some _ => _ | None => _ end); simpl;
      repeat (apply Forall_alter; [|by intros [f|d] _]); done.
  - unfold typed_inv, fileCompleted. simpl.
    apply Forall_alter; [done|]. by intros [f|d] _.
Qed.

Lemma reachable_typed (number_of_downloader : Z) (store : PersistentData)
    (this : DownloadManager) :
  reachable number_of_downloader store this -> typed_inv this.
Proof.
  induction 1 as [|this input this' Hreach IH Hstep].
  - constructor.
  - destruct Hstep. by apply typed_inv_handle.
Qed.

(** *** The queue as [populateEntry] sees it *)

Definition qkeys (q : list (nat * Queue_Entry))
    : list (Entry_Type * string * string * Z) :=
  (fun x => key (qe_entry x.2)) <$> q.

Lemma keys_qkeys (ds : list Download) : keys ds = qkeys (describe <$> ds).
Proof. apply keys_describe. Qed.

Definition new_description (this : DownloadManager) (entry : Entry)
    (peerSource : Hash) (complete : bool) : nat * Queue_Entry :=
  (nextID this,
   mkQueue_Entry entry peerSource
     (match entry_type entry with
      | Entry_Type_FILE => complete
      | Entry_Type_DIR => false
      end)).

Lemma describe_scanTheQueueToRetrieveEntries (this : DownloadManager) :
  describe <$> downloads (scanTheQueueToRetrieveEntries this)
  = describe <$> downloads this
  /\ nextID (scanTheQueueToRetrieveEntries this) = nextID this.
Proof.
  destruct (scanTheQueueToRetrieveEntries_cases this)
    as [[-> _]|(_ & pre & d & post & Hds & _ & ->)]; [done|].
  simpl. rewrite Hds, !fmap_app, !fmap_cons. done.
Qed.

Lemma describe_addDownload_at (entry : Entry) (peerSource : Hash)
    (complete : bool) (iterator : nat) (this : DownloadManager) :
  describe <$> downloads
                 (addDownload_at entry peerSource complete iterator this)
  = (if isEntryAlreadyQueued entry this then describe <$> downloads this
     else iterator_insert iterator
            (new_description this entry peerSource complete)
            (describe <$> downloads this))
  /\ nextID (addDownload_at entry peerSource complete iterator this)
     = (if isEntryAlreadyQueued entry this then nextID this
        else S (nextID this)).
Proof.
  unfold addDownload_at, new_description.
  destruct (isEntryAlreadyQueued entry this); [done|].
  destruct (entry_type entry).
  - simpl. by rewrite iterator_insert_fmap.
  - match goal with
    | |- context [scanTheQueueToRetrieveEntries ?st] =>
        destruct (describe_scanTheQueueToRetrieveEntries st) as [-> ->]
    end.
    simpl. by rewrite iterator_insert_fmap.
Qed.

Lemma isEntryAlreadyQueued_qkeys (entry : Entry) (this : DownloadManager) :
  isEntryAlreadyQueued entry this = true
  <-> key entry ∈ qkeys (describe <$> downloads this).
Proof.
  unfold isEntryAlreadyQueued. rewrite isEntryAlreadyQueued_loop_spec.
  by rewrite keys_qkeys.
Qed.

Lemma qkeys_app (q1 q2 : list (nat * Queue_Entry)) :
  qkeys (q1 ++ q2) = qkeys q1 ++ qkeys q2.
Proof. apply fmap_app. Qed.

Lemma qkeys_cons (x : nat * Queue_Entry) (q : list (nat * Queue_Entry)) :
  qkeys (x :: q) = key (qe_entry x.2) :: qkeys q.
Proof. reflexivity. Qed.

Ltac qkeys_norm :=
  repeat first
    [ rewrite qkeys_app in * | rewrite qkeys_cons in *
    | rewrite elem_of_app in * | rewrite elem_of_cons in *
    | rewrite elem_of_nil in * ].

(** *** Resolving a directory download

    The queue as [populateEntry] sees it while [newEntries] inserts the
    children: [splice] is the loop of [newEntries] on the descriptions. *)

Definition queued (q : list (nat * Queue_Entry)) (entry : Entry) : bool :=
  existsb (fun e => same_key e entry) ((fun x => qe_entry x.2) <$> q).

Fixpoint splice (moved : nat -> QListData_insert) (peerSource : Hash)
    (entries : list Entry) (n i id : nat) (q : list (nat * Queue_Entry))
    : list (nat * Queue_Entry) :=
  match entries with
  | [] => q
  | entry :: entries' =>
      if queued q entry then splice moved peerSource entries' (S n) i id q
      else
        splice moved peerSource entries' (S n) (stale_iterator (moved n) i)
          (S id)
          (iterator_insert i (id, mkQueue_Entry entry peerSource false) q)
  end.

Lemma entries_describe (ds : list Download) :
  (fun x => qe_entry x.2) <$> (describe <$> ds) = getEntry <$> ds.
Proof.
  rewrite <- list_fmap_compose. apply list_fmap_ext.
  intros _ [f|d] _; reflexivity.
Qed.

Lemma isEntryAlreadyQueued_queued (entry : Entry) (this : DownloadManager) :
  isEntryAlreadyQueued entry this = queued (describe <$> downloads this) entry.
Proof.
  unfold isEntryAlreadyQueued, queued. rewrite entries_describe.
  induction (downloads this) as [|d ds IH]; [done|].
  rewrite fmap_cons. cbn [isEntryAlreadyQueued_loop existsb]. rewrite IH.
  by destruct (same_key (getEntry d) entry).
Qed.

Lemma queued_spec (q : list (nat * Queue_Entry)) (entry : Entry) :
  queued q entry = true <-> key entry ∈ qkeys q.
Proof.
  unfold queued, qkeys. induction q as [|x q IH]; simpl.
  - split; [done|]. by intros ?%elem_of_nil.
  - rewrite orb_true_iff, IH, elem_of_cons, same_key_spec.
    split; intros [?|?]; auto.
Qed.

Lemma describe_newEntries_loop (moved : nat -> QListData_insert)
    (peerSource : Hash) (entries : list Entry) (n i : nat)
    (this : DownloadManager) :
  describe <$> downloads (newEntries_loop moved peerSource entries n i this)
  = splice moved peerSource entries n i (nextID this)
      (describe <$> downloads this).
Proof.
  revert n i this.
  induction entries as [|e entries IH]; intros n i this; [done|].
  simpl. rewrite IH.
  destruct (describe_addDownload_at e peerSource false i this) as [-> ->].
  rewrite <- isEntryAlreadyQueued_queued.
  destruct (isEntryAlreadyQueued e this); simpl; [done|].
  unfold new_description. by destruct (entry_type e).
Qed.

Lemma existsb_iterator_insert {A} (p : A -> bool) (i : nat) (x : A)
    (l : list A) :
  existsb p (iterator_insert i x l) = p x || existsb p l.
Proof.
  unfold iterator_insert. rewrite existsb_app. simpl.
  rewrite <- (take_drop i l) at 3. rewrite existsb_app.
  destruct (existsb p (take i l)), (p x), (existsb p (drop i l)); done.
Qed.

Lemma filter_iterator_insert {A} (p : A -> bool) (i : nat) (x : A)
    (l : list A) :
  p x = false ->
  List.filter p (iterator_insert i x l) = List.filter p l.
Proof.
  intros Hx. unfold iterator_insert. rewrite List.filter_app. simpl.
  rewrite Hx, <- List.filter_app. by rewrite take_drop.
Qed.

Lemma filter_iterator_insert_Permutation {A} (p : A -> bool) (i : nat)
    (x : A) (l : list A) :
  p x = true ->
  List.filter p (iterator_insert i x l) ≡ₚ x :: List.filter p l.
Proof.
  intros Hx. unfold iterator_insert. rewrite List.filter_app. simpl.
  rewrite Hx, <- Permutation_middle. apply Permutation_skip.
  rewrite <- List.filter_app. by rewrite take_drop.
Qed.

Lemma children_ext (peerSource : Hash) (l1 l2 : list Entry) (id : nat)
    (entries : list Entry) :
  (forall e, existsb (fun q => same_key q e) l1
             = existsb (fun q => same_key q e) l2) ->
  children peerSource l1 id entries = children peerSource l2 id entries.
Proof.
  revert l1 l2 id.
  induction entries as [|e entries IH]; intros l1 l2 id H; [done|].
  simpl. rewrite (H e).
  destruct (existsb (fun q => same_key q e) l2); [by apply IH|].
  f_equal. apply IH. intros e'. simpl. by rewrite H.
Qed.

Lemma children_insert (peerSource : Hash) (i : nat) (x : nat * Queue_Entry)
    (q : list (nat * Queue_Entry)) (id : nat) (entries : list Entry) :
  children peerSource
    ((fun x => qe_entry x.2) <$> iterator_insert i x q) id entries
  = children peerSource (qe_entry x.2 :: ((fun x => qe_entry x.2) <$> q)) id
      entries.
Proof.
  apply children_ext. intros e.
  by rewrite iterator_insert_fmap, existsb_iterator_insert.
Qed.

(** The downloads that were queued keep their order, whatever the oracle
    answers. *)
Lemma splice_old (moved : nat -> QListData_insert) (peerSource : Hash)
    (entries : list Entry) (n i id id0 : nat) (q : list (nat * Queue_Entry)) :
  id0 <= id ->
  List.filter (fun x => x.1 <? id0) (splice moved peerSource entries n i id q)
  = List.filter (fun x => x.1 <? id0) q.
Proof.
  revert n i id q.
  induction entries as [|e entries IH]; intros n i id q Hid; [done|].
  simpl. destruct (queued q e); [by apply IH|].
  rewrite IH by lia. apply filter_iterator_insert. simpl.
  apply Nat.ltb_ge. lia.
Qed.

(** The downloads inserted are the children, whatever the oracle answers. *)
Lemma splice_new (moved : nat -> QListData_insert) (peerSource : Hash)
    (entries : list Entry) (n i id id0 : nat) (q : list (nat * Queue_Entry)) :
  id0 <= id ->
  List.filter (fun x => id0 <=? x.1) (splice moved peerSource entries n i id q)
  ≡ₚ List.filter (fun x => id0 <=? x.1) q
     ++ children peerSource ((fun x => qe_entry x.2) <$> q) id entries.
Proof.
  revert n i id q.
  induction entries as [|e entries IH]; intros n i id q Hid; simpl.
  { by rewrite app_nil_r. }
  unfold queued at 1.
  destruct (existsb (fun q => same_key q e) ((fun x => qe_entry x.2) <$> q));
    [by apply IH|].
  rewrite IH by lia. rewrite children_insert. simpl.
  rewrite filter_iterator_insert_Permutation
    by (simpl; apply Nat.leb_le; lia).
  simpl. by rewrite <- Permutation_middle.
Qed.

(** Every entry received is queued afterwards. *)
Lemma splice_keys (moved : nat -> QListData_insert) (peerSource : Hash)
    (entries : list Entry) (n i id : nat) (q : list (nat * Queue_Entry)) :
  (forall k, k ∈ qkeys q ->
     k ∈ qkeys (splice moved peerSource entries n i id q))
  /\ (forall e, e ∈ entries ->
        key e ∈ qkeys (splice moved peerSource entries n i id q)).
Proof.
  revert n i id q.
  induction entries as [|e entries IH]; intros n i id q; simpl.
  { split; [done|]. by intros e ?%elem_of_nil. }
  destruct (queued q e) eqn:Hq.
  - destruct (IH (S n) i id q) as [IH1 IH2]. split; [done|].
    intros e' [->|He']%elem_of_cons; [|by apply IH2].
    by apply IH1, queued_spec.
  - set (x := (id, mkQueue_Entry e peerSource false)).
    destruct (IH (S n) (stale_iterator (moved n) i) (S id)
                (iterator_insert i x q)) as [IH1 IH2].
    assert (Hins : forall k, k ∈ qkeys (iterator_insert i x q)
                             <-> k = key e \/ k ∈ qkeys q).
    { intros k. unfold qkeys.
      rewrite iterator_insert_fmap, iterator_insert_Permutation.
      by rewrite elem_of_cons. }
    split.
    + intros k Hk. apply IH1, Hins. by right.
    + intros e' [->|He']%elem_of_cons; [|by apply IH2].
      apply IH1, Hins. by left.
Qed.

(** When [QListData::insert] moves the items in front of the position, the
    children stand in the order received. *)
Lemma splice_in_front (moved : nat -> QListData_insert) (peerSource : Hash)
    (entries : list Entry) (n id : nat)
    (pre mid post : list (nat * Queue_Entry)) :
  (forall n, moved n = moved_items_in_front) ->
  splice moved peerSource entries n (length (pre ++ mid)) id
    (pre ++ mid ++ post)
  = pre
    ++ (mid
        ++ children peerSource
             ((fun x => qe_entry x.2) <$> pre ++ mid ++ post) id entries)
    ++ post.
Proof.
  intros Hmoved. revert n id mid.
  induction entries as [|e entries IH]; intros n id mid; simpl.
  { by rewrite app_nil_r. }
  unfold queued at 1.
  destruct (existsb (fun q => same_key q e)
              ((fun x => qe_entry x.2) <$> pre ++ mid ++ post));
    [by apply IH|].
  set (x := (id, mkQueue_Entry e peerSource false)).
  rewrite Hmoved. simpl.
  rewrite (app_assoc pre mid post), iterator_insert_length_app.
  replace (S (length (pre ++ mid))) with (length (pre ++ (mid ++ [x])))
    by (rewrite !length_app; simpl; lia).
  replace ((pre ++ mid) ++ x :: post) with (pre ++ (mid ++ [x]) ++ post)
    by (by rewrite <- !app_assoc).
  rewrite IH. rewrite <- !app_assoc. simpl. do 4 f_equal.
  apply children_ext. intros e'.
  repeat (rewrite ?fmap_app, ?fmap_cons, ?existsb_app; cbn [existsb]).
  subst x. cbn [snd qe_entry].
  repeat match goal with
         | |- context [existsb ?p ?l] => destruct (existsb p l)
         end;
    by destruct (same_key e e').
Qed.

(** When [QListData::insert] moves the items behind the position, or
    appends, the children stand in the reverse of the order received. *)
Lemma splice_behind (moved : nat -> QListData_insert) (peerSource : Hash)
    (entries : list Entry) (n id : nat)
    (pre mid post : list (nat * Queue_Entry)) :
  (forall n, moved n = moved_items_behind) ->
  splice moved peerSource entries n (length pre) id (pre ++ mid ++ post)
  = pre
    ++ (rev (children peerSource
               ((fun x => qe_entry x.2) <$> pre ++ mid ++ post) id entries)
        ++ mid)
    ++ post.
Proof.
  intros Hmoved. revert n id mid.
  induction entries as [|e entries IH]; intros n id mid; [done|].
  simpl. unfold queued at 1.
  destruct (existsb (fun q => same_key q e)
              ((fun x => qe_entry x.2) <$> pre ++ mid ++ post));
    [by apply IH|].
  set (x := (id, mkQueue_Entry e peerSource false)).
  rewrite Hmoved. simpl. rewrite iterator_insert_length_app.
  replace (pre ++ x :: mid ++ post) with (pre ++ (x :: mid) ++ post) by done.
  rewrite IH. rewrite <- !app_assoc. simpl. do 3 f_equal.
  apply children_ext. intros e'.
  repeat (rewrite ?fmap_app, ?fmap_cons, ?existsb_app; cbn [existsb]).
  subst x. cbn [snd qe_entry].
  repeat match goal with
         | |- context [existsb ?p ?l] => destruct (existsb p l)
         end;
    by destruct (same_key e e').
Qed.

(** When the array is not reallocated, the children stand together where
    the sender stood. *)
Lemma splice_block (moved : nat -> QListData_insert) (peerSource : Hash)
    (entries : list Entry) (n id id0 j : nat)
    (pre block post : list (nat * Queue_Entry)) :
  (forall n position, moved n <> reallocated position) ->
  id0 <= id -> Forall (fun x => id0 <= x.1) block ->
  j <= length block ->
  exists block',
    splice moved peerSource entries n (length pre + j) id
      (pre ++ block ++ post)
    = pre ++ block' ++ post
    /\ Forall (fun x => id0 <= x.1) block'.
Proof.
  intros Hmoved. revert n id j block.
  induction entries as [|e entries IH]; intros n id j block Hid Hnew Hj; simpl.
  { by exists block. }
  destruct (queued (pre ++ block ++ post) e); [by apply IH|].
  set (x := (id, mkQueue_Entry e peerSource false)).
  assert (Hins : iterator_insert (length pre + j) x (pre ++ block ++ post)
                 = pre ++ (take j block ++ x :: drop j block) ++ post).
  { unfold iterator_insert.
    rewrite take_app_add', drop_app_add' by done.
    rewrite take_app_le, drop_app_le by done.
    by rewrite <- !app_assoc. }
  rewrite Hins.
  assert (Hlen : length (take j block ++ x :: drop j block)
                 = S (length block)).
  { rewrite length_app. simpl. rewrite length_take, length_drop. lia. }
  assert (Hnew' : Forall (fun x => id0 <= x.1)
                    (take j block ++ x :: drop j block)).
  { apply Forall_app. split; [by apply Forall_take|].
    constructor; [done|by apply Forall_drop]. }
  destruct (moved n) as [| |position] eqn:Hn; simpl.
  - apply IH; [lia|done|lia].
  - replace (S (length pre + j)) with (length pre + S j) by lia.
    apply IH; [lia|done|lia].
  - by destruct (Hmoved n position).
Qed.

Lemma newEntries_found (d : DirDownload) (entries : list Entry)
    (moved : nat -> QListData_insert) (this : DownloadManager)
    (pre post : list Download) :
  downloads this = pre ++ Dir d :: post ->
  Forall (fun x => getID x <> dd_id d) pre ->
  newEntries d entries moved this
  = scanTheQueueToRetrieveEntries
      (newEntries_loop moved (dd_peerSourceID d) entries 0 (length pre)
         (set_downloads (pre ++ post) (set_retrievingEntries false this))).
Proof.
  intros Hds Hpre. unfold newEntries. simpl.
  rewrite Hds, (findNext_app (dd_id d) pre (Dir d) post Hpre eq_refl),
    delete_length_app.
  done.
Qed.

Lemma newEntries_describe (d : DirDownload) (entries : list Entry)
    (moved : nat -> QListData_insert) (this : DownloadManager)
    (pre post : list Download) :
  downloads this = pre ++ Dir d :: post ->
  Forall (fun x => getID x <> dd_id d) pre ->
  describe <$> downloads (newEntries d entries moved this)
  = splice moved (dd_peerSourceID d) entries 0 (length pre) (nextID this)
      (describe <$> pre ++ post).
Proof.
  intros Hds Hpre.
  rewrite (newEntries_found d entries moved this pre post Hds Hpre).
  match goal with
  | |- context [scanTheQueueToRetrieveEntries ?st] =>
      destruct (describe_scanTheQueueToRetrieveEntries st) as [-> _]
  end.
  by rewrite describe_newEntries_loop.
Qed.

(** *** C2 -- no two queued downloads share a key *)

Lemma count_key_absent (entry : Entry) (ds : list Download) :
  key entry ∉ keys ds ->
  count (fun d => same_key (getEntry d) entry) ds = 0.
Proof.
  intros Hk. apply count_zero_Forall, Forall_forall. intros d Hd.
  destruct (same_key (getEntry d) entry) eqn:Hs; [|done].
  apply same_key_spec in Hs. destruct Hk. rewrite <- Hs.
  unfold keys. by apply (list_elem_of_fmap_2 (fun d => key (getEntry d))).
Qed.

Lemma count_key_NoDup (entry : Entry) (ds : list Download) :
  NoDup (keys ds) -> key entry ∈ keys ds ->
  count (fun d => same_key (getEntry d) entry) ds = 1.
Proof.
  unfold keys. induction ds as [|d ds IH]; simpl; intros Hnd Hin.
  - by apply elem_of_nil in Hin.
  - apply NoDup_cons in Hnd as [Hd Hnd].
    destruct (same_key (getEntry d) entry) eqn:Hs.
    + apply same_key_spec in Hs. rewrite Hs in Hd.
      by rewrite (count_key_absent entry ds Hd).
    + apply elem_of_cons in Hin as [Hin|Hin]; [|by apply IH].
      symmetry in Hin. apply same_key_spec in Hin. congruence.
Qed.

Lemma addDownload_at_queued (entry : Entry) (peerSource : Hash)
    (complete : bool) (iterator : nat) (this : DownloadManager) :
  key entry
  ∈ keys (downloads (addDownload_at entry peerSource complete iterator this)).
Proof.
  rewrite keys_qkeys.
  destruct (describe_addDownload_at entry peerSource complete iterator this)
    as [-> _].
  destruct (isEntryAlreadyQueued entry this) eqn:Hq.
  - by apply isEntryAlreadyQueued_qkeys.
  - unfold qkeys. rewrite iterator_insert_fmap, iterator_insert_Permutation.
    by left.
Qed.

Lemma addDownload_at_duplicate (entry : Entry) (peerSource : Hash)
    (complete : bool) (iterator : nat) (this : DownloadManager) :
  key entry ∈ keys (downloads this) ->
  addDownload_at entry peerSource complete iterator this
  = emit (L_WARN_entry_already_queued (entry_name entry)) this.
Proof.
  intros Hk. unfold addDownload_at.
  destruct (isEntryAlreadyQueued entry this) eqn:Hq; [done|].
  by apply isEntryAlreadyQueued_false in Hq.
Qed.

(** C2.  In every reachable state the keys (type, path, name, size) of the
    queued downloads are pairwise distinct; [addDownload] of an entry whose
    key is already queued changes nothing but the log, which gets the
    warning; after [addDownload(e); addDownload(e)] exactly one queued
    download has the key of [e], and on a new manager the queue has exactly
    one item. *)
Theorem addDownload_rejects_duplicates (number_of_downloader : Z)
    (store : PersistentData) :
  (forall this, reachable number_of_downloader store this ->
     NoDup (keys (downloads this)))
  /\ (forall this entry peerSource,
        key entry ∈ keys (downloads this) ->
        addDownload entry peerSource this
        = emit (L_WARN_entry_already_queued (entry_name entry)) this)
  /\ (forall this entry peerSource1 peerSource2,
        reachable number_of_downloader store this ->
        let this' :=
          addDownload entry peerSource2 (addDownload entry peerSource1 this) in
        count (fun d => same_key (getEntry d) entry) (downloads this') = 1
        /\ downloads this' = downloads (addDownload entry peerSource1 this))
  /\ (forall entry peerSource1 peerSource2,
        length
          (downloads
             (addDownload entry peerSource2
                (addDownload entry peerSource1
                   (new_DownloadManager number_of_downloader store))))
        = 1).
Proof.
  split; [|split; [|split]].
  - intros this Hreach. apply reachable_inv in Hreach as [Hq _].
    by destruct Hq as [H _].
  - intros this entry peerSource. apply addDownload_at_duplicate.
  - intros this entry p1 p2 Hreach this'. subst this'.
    pose proof (addDownload_at_queued entry p1 false
                  (length (downloads this)) this) as Hq.
    fold (addDownload entry p1 this) in Hq.
    unfold addDownload at 1 3.
    rewrite (addDownload_at_duplicate entry p2 false _ _ Hq). simpl.
    split; [|done]. apply count_key_NoDup; [|done].
    apply reachable_inv in Hreach as [Hinv _].
    apply (queue_inv_addDownload_at entry p1 false
             (length (downloads this))) in Hinv.
    by destruct Hinv as [H _].
  - intros entry p1 p2.
    set (this := new_DownloadManager number_of_downloader store).
    pose proof (addDownload_at_queued entry p1 false
                  (length (downloads this)) this) as Hq.
    fold (addDownload entry p1 this) in Hq.
    unfold addDownload at 1.
    rewrite (addDownload_at_duplicate entry p2 false _ _ Hq). simpl.
    rewrite <- (length_fmap describe). unfold addDownload.
    destruct (describe_addDownload_at entry p1 false (length (downloads this))
                this) as [-> _].
    done.
Qed.

(** *** The retrieval in flight (C6 is in Part XII) *)

Lemma retrievingEntries_scanTheQueueToRetrieveEntries (this : DownloadManager) :
  retrievingEntries this = true ->
  retrievingEntries (scanTheQueueToRetrieveEntries this) = true.
Proof.
  intros H. unfold scanTheQueueToRetrieveEntries. by rewrite H.
Qed.

Lemma retrievingEntries_scan_or_set (this : DownloadManager) :
  retrievingEntries this = true ->
  retrievingEntries (scanTheQueueToRetrieveEntries this) = true.
Proof. apply retrievingEntries_scanTheQueueToRetrieveEntries. Qed.

Lemma retrievingEntries_addDownload_at (entry : Entry) (peerSource : Hash)
    (complete : bool) (iterator : nat) (this : DownloadManager) :
  retrievingEntries this = true ->
  retrievingEntries (addDownload_at entry peerSource complete iterator this)
  = true.
Proof.
  intros H. unfold addDownload_at.
  destruct (isEntryAlreadyQueued entry this); [done|].
  destruct (entry_type entry); [done|].
  by apply retrievingEntries_scanTheQueueToRetrieveEntries.
Qed.

Lemma retrievingEntries_replay (entries : list Queue_Entry)
    (this : DownloadManager) :
  retrievingEntries this = true -> retrievingEntries (replay entries this) = true.
Proof.
  revert this. induction entries as [|e entries IH]; intros this H; [done|].
  simpl. by apply IH, retrievingEntries_addDownload_at.
Qed.

Lemma queue_view_retrievingEntries (this this' : DownloadManager) :
  queue_view this' = queue_view this ->
  retrievingEntries this' = retrievingEntries this.
Proof. unfold queue_view. intros H. by simplify_eq. Qed.

Lemma retrievingEntries_handle (input : Input) (this : DownloadManager) :
  retrievingEntries this = true ->
  retrievingEntries (handle input this) = false ->
  exists d entries moved, input = In_newEntries d entries moved.
Proof.
  intros Ht Hf. destruct input; cbn [DM.handle] in Hf.
  - unfold addDownload in Hf.
    by rewrite retrievingEntries_addDownload_at in Hf.
  - unfold fileCacheLoaded in Hf. rewrite loadQueueFromFile_cases in Hf.
    simpl in Hf.
    destruct (FILE_QUEUE (persistent this)) as [| |q]; simpl in Hf;
      try congruence.
    destruct (to_int (queue_version q) =? FILE_QUEUE_VERSION)%Z;
      simpl in Hf; [|congruence].
    by rewrite retrievingEntries_replay in Hf.
  - by exists dirDownload, entries, moved.
  - simpl in Hf. congruence.
  - pose proof (queue_view_retrievingEntries _ _
                  (queue_view_scanTheQueue oracle this)) as Hr.
    unfold peerNoLongerDownloadingChunk in Hf. congruence.
  - pose proof (queue_view_retrievingEntries _ _
                  (queue_view_timeout oracle this)) as Hr.
    congruence.
  - pose proof (queue_view_retrievingEntries _ _
                  (queue_view_hashReceived position this)) as Hr.
    congruence.
  - pose proof (queue_view_retrievingEntries _ _
                  (queue_view_downloadFinished position chunk s this)) as Hr.
    congruence.
  - simpl in Hf. congruence.
Qed.

(** *** C1 -- the counter of the chunk downloads in progress *)





(** *** C7 -- a soft error arms the timer and does not stop the loop *)

Lemma existsb_elem_of {A} (p : A -> bool) (l : list A) :
  existsb p l = true <-> exists x, x ∈ l /\ p x = true.
Proof.
  rewrite existsb_exists. split; intros (x & Hx & Hp); exists x.
  - by rewrite list_elem_of_In.
  - by rewrite <- list_elem_of_In.
Qed.

(** C7.  A run of [scanTheQueue] from a reachable state asks file
    downloads for a chunk in the order of the queue.  If one of them
    reports a status of the soft-error class ([>= 0x20]), the timer is
    started: it is then active, single-shot, with the interval
    [RESCAN_QUEUE_PERIOD_IF_ERROR].  The loop stops before the end of the
    queue only when the counter has reached [NUMBER_OF_DOWNLOADER]. *)
Theorem scanTheQueue_soft_error (number_of_downloader : Z)
    (store : PersistentData) (this : DownloadManager) (oracle : Oracle) :
  reachable number_of_downloader store this ->
  exists evs,
    log (scanTheQueue oracle this) = log this ++ evs
    /\ visited evs `prefix_of` file_ids (downloads this)
    /\ (visited evs <> file_ids (downloads this) ->
        (NUMBER_OF_DOWNLOADER this
         <= numberOfDownload (scanTheQueue oracle this))%Z)
    /\ (forall id, id ∈ visited evs -> soft_error oracle id = true ->
          Call_timer_start ∈ evs
          /\ timer (scanTheQueue oracle this)
             = mkQTimer RESCAN_QUEUE_PERIOD_IF_ERROR true true).
Proof.
  intros Hreach.
  destruct (reachable_inv _ _ _ Hreach) as (_ & Hc & _).
  destruct Hc as (_ & _ & _ & _ & _ & Hiv & Hss).
  destruct (scanTheQueue_spec oracle this)
    as (ds' & evs & -> & _ & _ & _ & _ & _ & Hvis & Hstop & _ & Hsoft & _).
  exists evs. simpl. repeat split; try done.
  - apply Hsoft, existsb_elem_of. by exists id.
  - rewrite Hiv, Hss. f_equal.
    replace (existsb (soft_error oracle) (visited evs)) with true.
    + apply orb_true_r.
    + symmetry. apply existsb_elem_of. by exists id.
Qed.

(** *** The scan when the maximum is reached (C8 is in Part XII) *)

Lemma scanTheQueue_no_budget (oracle : Oracle) (this : DownloadManager) :
  (NUMBER_OF_DOWNLOADER this <= numberOfDownload this)%Z ->
  scanTheQueue oracle this = this.
Proof.
  intros H. unfold scanTheQueue.
  destruct (downloads this) as [|d ds] eqn:Hds; simpl.
  - destruct this. simpl in *. by subst.
  - apply Z.ltb_ge in H. rewrite H. destruct this. simpl in *. by subst.
Qed.

(** *** C5 -- loading the queue *)

(** C5.  [loadQueueFromFile] always returns normally.  When the record is
    missing or cannot be deserialised, it logs a warning and changes nothing
    else.  When the version of the record differs from
    [FILE_QUEUE_VERSION], it logs the error, removes the record from the
    store and leaves the queue as it is.  When the version matches, it
    replays the saved entries through [addDownload] in their order, each
    with its peer source and its complete flag. *)
Theorem loadQueueFromFile_total (this : DownloadManager) :
  fst (loadQueueFromFile FILE_QUEUE_VERSION this) = returns tt
  /\ let this' := snd (loadQueueFromFile FILE_QUEUE_VERSION this) in
     match FILE_QUEUE (persistent this) with
     | missing => this' = emit L_WARN_queue_file_missing this
     | undecodable => this' = emit L_WARN_queue_unknown_exception this
     | stored savedQueue =>
         if (to_int (queue_version savedQueue) =? FILE_QUEUE_VERSION)%Z then
           this'
           = fold_left
               (fun this entry =>
                  addDownload_complete (qe_entry entry) (qe_peer_id entry)
                    (qe_complete entry) this)
               (queue_entry savedQueue) this
         else
           downloads this' = downloads this
           /\ FILE_QUEUE (persistent this') = missing
           /\ log this'
              = log this
                ++ [L_ERRO_version_mismatch (queue_version savedQueue);
                    Call_rmValue]
     end.
Proof.
  rewrite loadQueueFromFile_cases. simpl. split; [done|].
  destruct (FILE_QUEUE (persistent this)) as [| |q]; try done.
  destruct (to_int (queue_version q) =? FILE_QUEUE_VERSION)%Z; [done|].
  simpl. by rewrite <- app_assoc.
Qed.

(** *** C4 -- saving and loading again *)

Lemma to_int_to_quint32 (z : Z) :
  (- 2 ^ 31 <= z < 2 ^ 31)%Z -> to_int (to_quint32 z) = z.
Proof.
  intros Hz. unfold to_int, to_quint32. rewrite Z.mod_mod by lia.
  destruct (Z_lt_le_dec z 0) as [Hneg|Hpos].
  - assert (Hm : (z mod 2 ^ 32 = z + 2 ^ 32)%Z).
    { symmetry. apply (Z.mod_unique _ _ (-1)); lia. }
    rewrite Hm. destruct (Z.ltb_spec (z + 2 ^ 32) (2 ^ 31)); lia.
  - rewrite Z.mod_small by lia.
    destruct (Z.ltb_spec z (2 ^ 31)); lia.
Qed.

Lemma populateEntry_describe (ds : list Download) :
  populateEntry <$> ds = snd <$> (describe <$> ds).
Proof. rewrite <- list_fmap_compose. by apply list_fmap_ext. Qed.

Lemma keys_populateEntry (ds : list Download) :
  keys ds = (fun entry => key (qe_entry entry)) <$> (populateEntry <$> ds).
Proof.
  unfold keys. rewrite <- list_fmap_compose. apply list_fmap_ext.
  intros _ [f|d] _; reflexivity.
Qed.

(** What [Download::populateEntry] writes for a directory download is not
    complete. *)
Definition dir_not_complete (entry : Queue_Entry) : Prop :=
  entry_type (qe_entry entry) = Entry_Type_DIR -> qe_complete entry = false.

Lemma replay_fresh (entries : list Queue_Entry) :
  forall this : DownloadManager,
    NoDup ((fun entry => key (qe_entry entry)) <$> entries) ->
    Forall (fun entry => key (qe_entry entry) ∉ keys (downloads this)) entries ->
    Forall dir_not_complete entries ->
    populateEntry <$> downloads (replay entries this)
    = (populateEntry <$> downloads this) ++ entries.
Proof.
  induction entries as [|e entries IH]; intros this Hnd Hfresh Hdir; simpl.
  - by rewrite app_nil_r.
  - apply NoDup_cons in Hnd as [He Hnd].
    apply Forall_cons in Hfresh as [Hfe Hfresh].
    apply Forall_cons in Hdir as [Hde Hdir].
    destruct (describe_addDownload_at (qe_entry e) (qe_peer_id e)
                (qe_complete e) (length (downloads this)) this) as [Hd _].
    apply isEntryAlreadyQueued_false in Hfe. rewrite Hfe in Hd.
    match type of Hd with
    | _ = iterator_insert ?i ?x ?l =>
        replace (iterator_insert i x l) with (l ++ [x]) in Hd
          by (by rewrite <- (iterator_insert_back x l), length_fmap)
    end.
    fold (addDownload_complete (qe_entry e) (qe_peer_id e) (qe_complete e)
            this) in Hd.
    rewrite IH; try done.
    + rewrite !populateEntry_describe, Hd, fmap_app, <- app_assoc. simpl.
      do 2 f_equal. destruct e as [en pe co]. unfold dir_not_complete in Hde.
      simpl in *. destruct (entry_type en); [done|]. by rewrite Hde.
    + rewrite Forall_forall in *. intros x Hx.
      rewrite keys_qkeys, Hd, qkeys_app, elem_of_app, <- keys_qkeys.
      intros [Hin|Hin]; [by apply (Hfresh x)|].
      apply list_elem_of_singleton in Hin. apply He. simpl in Hin.
      rewrite <- Hin.
      by apply (list_elem_of_fmap_2 (fun entry => key (qe_entry entry))).
Qed.

(** C4.  For a reachable state whose store can be written and a
    [FILE_QUEUE_VERSION] that is an [int], [saveQueueToFile] followed by
    [loadQueueFromFile] on a new manager over the same store yields a queue
    whose triples (entry, peer source, complete flag) are those of the
    original queue, in the same order. *)
Theorem save_then_load (number_of_downloader : Z) (store : PersistentData)
    (this : DownloadManager) (number_of_downloader' : Z) :
  reachable number_of_downloader store this ->
  writable (persistent this) = true ->
  (- 2 ^ 31 <= FILE_QUEUE_VERSION < 2 ^ 31)%Z ->
  let saved := snd (saveQueueToFile FILE_QUEUE_VERSION this) in
  let loaded :=
    snd (loadQueueFromFile FILE_QUEUE_VERSION
           (new_DownloadManager number_of_downloader' (persistent saved))) in
  populateEntry <$> downloads loaded = populateEntry <$> downloads this.
Proof.
  intros Hreach Hw Hv saved loaded. subst loaded saved.
  unfold saveQueueToFile, try_catch, setValue. rewrite Hw. simpl.
  rewrite loadQueueFromFile_cases. simpl.
  rewrite (to_int_to_quint32 _ Hv), Z.eqb_refl.
  destruct (reachable_inv _ _ _ Hreach) as (Hq & _).
  destruct Hq as (Hk & _).
  pose proof (reachable_typed _ _ _ Hreach) as Ht.
  rewrite replay_fresh; try done.
  - by rewrite <- keys_populateEntry.
  - apply Forall_forall. intros x _ Hin. simpl in Hin.
    by apply elem_of_nil in Hin.
  - apply Forall_fmap. eapply Forall_impl; [exact Ht|].
    intros [f|d] Hwt Hdir; unfold well_typed in Hwt; simpl in *;
      [congruence|done].
Qed.

Lemma reachable_handle (number_of_downloader : Z) (store : PersistentData)
    (this : DownloadManager) (input : Input) :
  reachable number_of_downloader store this ->
  admissible input this ->
  reachable number_of_downloader store (handle input this).
Proof.
  intros Hreach Hadm. eapply reachable_step; [exact Hreach|].
  by apply step_handle.
Qed.

End DownloadManagerFacts.

(** *** The theorems at work *)

Lemma queue_x_d_y_reachable (n : Z) :
  DM.reachable Examples.period Examples.version n Examples.store
    (Examples.queue_x_d_y n).
Proof.
  unfold Examples.queue_x_d_y.
  repeat (apply reachable_handle; [|exact I]). apply DM.reachable_new.
Qed.


Lemma finished_x_reachable :
  DM.reachable Examples.period Examples.version 2 Examples.store
    Examples.finished_x.
Proof.
  unfold Examples.finished_x.
  apply reachable_handle.
  - apply reachable_handle.
    + do 2 (apply reachable_handle; [|exact I]). apply queue_x_d_y_reachable.
    + split; [|discriminate]. eexists. split; reflexivity.
  - intros f Hf. vm_compute in Hf. injection Hf as <-.
    repeat constructor.
Qed.

Lemma queue_d_reachable :
  DM.reachable Examples.period Examples.version 0 Examples.store
    Examples.queue_d.
Proof.
  unfold Examples.queue_d.
  repeat (apply reachable_handle; [|exact I]). apply DM.reachable_new.
Qed.


(** C4 at the queue [x.bin; d; y.bin] whose first file is complete. *)
Lemma save_then_load_witness :
  DM.populateEntry <$>
    DM.downloads
      (DM.loadQueueFromFile Examples.version
         (DM.new_DownloadManager Examples.period 2
            (DM.persistent
               (DM.saveQueueToFile Examples.version Examples.finished_x).2))).2
  = DM.populateEntry <$> DM.downloads Examples.finished_x
  /\ DM.populateEntry <$> DM.downloads Examples.finished_x
     = [DM.mkQueue_Entry Examples.file_x Examples.peer true;
        DM.mkQueue_Entry Examples.dir_d Examples.peer false;
        DM.mkQueue_Entry Examples.file_y Examples.peer false].
Proof.
  split; [|reflexivity].
  apply (save_then_load Examples.period Examples.version 2 Examples.store
           Examples.finished_x 2 finished_x_reachable).
  - reflexivity.
  - unfold Examples.version. lia.
Defined.

(** C7 at the queue [x.bin; d; y.bin], both files reporting a soft error:
    both are visited and the timer is armed. *)
Lemma scanTheQueue_soft_error_witness :
  exists evs,
    DM.log (DM.scanTheQueue Examples.answers_soft (Examples.queue_x_d_y 2))
    = DM.log (Examples.queue_x_d_y 2) ++ evs
    /\ DM.visited evs `prefix_of` DM.file_ids
                                    (DM.downloads (Examples.queue_x_d_y 2))
    /\ (DM.visited evs <> DM.file_ids (DM.downloads (Examples.queue_x_d_y 2)) ->
        (DM.NUMBER_OF_DOWNLOADER (Examples.queue_x_d_y 2)
         <= DM.numberOfDownload
              (DM.scanTheQueue Examples.answers_soft
                 (Examples.queue_x_d_y 2)))%Z)
    /\ (forall id, id ∈ DM.visited evs ->
          soft_error Examples.answers_soft id = true ->
          DM.Call_timer_start ∈ evs
          /\ DM.timer
               (DM.scanTheQueue Examples.answers_soft (Examples.queue_x_d_y 2))
             = DM.mkQTimer Examples.period true true).
Proof.
  exact (scanTheQueue_soft_error Examples.period Examples.version 2
           Examples.store (Examples.queue_x_d_y 2) Examples.answers_soft
           (queue_x_d_y_reachable 2)).
Defined.

(** ** Part VI -- the sizes of the directories *)

(** *** The two operators adjust the chain of parents *)

Section Operators.

Import FM.

Lemma ancestors_mono (n m : nat) (this : nat) (heap : Cache) (chain : list nat) :
  ancestors n this heap = Some chain -> n <= m ->
  ancestors m this heap = Some chain.
Proof.
  revert m this chain. induction n as [|n IH]; intros m this chain H Hle;
    [done|].
  destruct m as [|m]; [lia|]. simpl in *.
  destruct (directories heap !! this) as [d|]; [|done]. simpl in *.
  destruct (dir_parent d) as [p|]; [|done].
  destruct (ancestors n p heap) as [c|] eqn:Hc; [|done].
  rewrite (IH m p c Hc); [done|lia].
Qed.

Lemma ancestors_suffix (n : nat) (this : nat) (heap : Cache)
    (chain : list nat) (other : nat) :
  ancestors n this heap = Some chain -> other ∈ chain ->
  exists chain', ancestors n other heap = Some chain'
                 /\ length chain' <= length chain.
Proof.
  revert this chain. induction n as [|n IH]; intros this chain H Hin; [done|].
  simpl in H.
  destruct (directories heap !! this) as [d|] eqn:Hd; [|done]. simpl in H.
  destruct (dir_parent d) as [p|] eqn:Hp.
  - destruct (ancestors n p heap) as [c|] eqn:Hc; [|done].
    simpl in H. injection H as <-.
    apply elem_of_cons in Hin as [->|Hin].
    + exists (this :: c). split; [|done]. simpl. rewrite Hd. simpl.
      by rewrite Hp, Hc.
    + destruct (IH p c Hc Hin) as (c' & Hc' & Hlen).
      exists c'. split; [|simpl; lia].
      apply (ancestors_mono n); [done|lia].
  - injection H as <-. apply list_elem_of_singleton in Hin as ->.
    exists [this]. split; [|done]. simpl. rewrite Hd. simpl. by rewrite Hp.
Qed.

Lemma ancestors_NoDup (n : nat) (this : nat) (heap : Cache) (chain : list nat) :
  ancestors n this heap = Some chain -> NoDup chain.
Proof.
  revert this chain. induction n as [|n IH]; intros this chain H; [done|].
  pose proof H as H'. simpl in H.
  destruct (directories heap !! this) as [d|] eqn:Hd; [|done]. simpl in H.
  destruct (dir_parent d) as [p|] eqn:Hp.
  - destruct (ancestors n p heap) as [c|] eqn:Hc; [|done].
    simpl in H. injection H as <-.
    apply NoDup_cons. split; [|by apply (IH p)].
    intros Hin. destruct (ancestors_suffix n p heap c this Hc Hin)
      as (c' & Hc' & Hlen).
    apply (ancestors_mono n (S n)) in Hc'; [|lia].
    rewrite H' in Hc'. injection Hc' as <-. simpl in Hlen. lia.
  - injection H as <-. apply NoDup_singleton.
Qed.

Lemma ancestors_parents (n : nat) (this : nat) (heap heap' : Cache) :
  (forall d, dir_parent <$> directories heap' !! d
             = dir_parent <$> directories heap !! d) ->
  ancestors n this heap' = ancestors n this heap.
Proof.
  intros Hp. revert this. induction n as [|n IH]; intros this; [done|].
  simpl. specialize (Hp this).
  destruct (directories heap' !! this) as [d'|],
           (directories heap !! this) as [d|]; simplify_eq/=; try done.
  rewrite Hp. destruct (dir_parent d); [|done]. by rewrite IH.
Qed.

Lemma operator_plus_eq_chain (depth : nat) (this : nat) (size : Z)
    (heap : Cache) (chain : list nat) :
  ancestors depth this heap = Some chain ->
  exists heap',
    operator_plus_eq depth this size heap = Some heap'
    /\ fileobjects heap' = fileobjects heap
    /\ forall d, directories heap' !! d
                 = adjusted chain size d <$> directories heap !! d.
Proof.
  revert this heap chain.
  induction depth as [|n IH]; intros this heap chain H; [done|].
  pose proof (ancestors_NoDup _ _ _ _ H) as Hnd. simpl in H. simpl.
  destruct (directories heap !! this) as [d0|] eqn:Hd0; [|done]. simpl in *.
  destruct (dir_parent d0) as [p|] eqn:Hp.
  - destruct (ancestors n p heap) as [c|] eqn:Hc; [|done].
    simpl in H. injection H as <-.
    apply NoDup_cons in Hnd as [Hnotin Hnd].
    set (heap1 := set_directories _ heap).
    assert (Hc1 : ancestors n p heap1 = Some c).
    { rewrite <- Hc. apply ancestors_parents. intros d. subst heap1. simpl.
      destruct (decide (this = d)) as [->|Hne].
      - by rewrite lookup_insert_eq, Hd0.
      - by rewrite lookup_insert_ne. }
    destruct (IH p heap1 c Hc1) as (heap' & Hop & Hf & Hdirs).
    exists heap'. split; [done|]. split; [done|].
    intros d. rewrite Hdirs. subst heap1. simpl. unfold adjusted.
    destruct (decide (this = d)) as [->|Hne].
    + rewrite lookup_insert_eq, Hd0. simpl.
      rewrite bool_decide_eq_false_2 by done.
      rewrite bool_decide_eq_true_2 by (by left). done.
    + rewrite lookup_insert_ne by done.
      destruct (directories heap !! d) as [x|]; [|done]. simpl.
      destruct (bool_decide_reflect (d ∈ c)) as [Hin|Hout].
      * rewrite bool_decide_eq_true_2 by (by right). done.
      * rewrite bool_decide_eq_false_2; [done|].
        intros [->|Hin]%elem_of_cons; done.
  - injection H as <-. eexists. split; [reflexivity|]. split; [done|].
    intros d. simpl. unfold adjusted.
    destruct (decide (this = d)) as [->|Hne].
    + rewrite lookup_insert_eq, Hd0. simpl.
      rewrite bool_decide_eq_true_2 by (by left). done.
    + rewrite lookup_insert_ne by done.
      destruct (directories heap !! d) as [x|]; [|done]. simpl.
      rewrite bool_decide_eq_false_2; [done|].
      by intros ->%list_elem_of_singleton.
Qed.

Lemma operator_minus_eq_chain (depth : nat) (this : nat) (size : Z)
    (heap : Cache) (chain : list nat) :
  ancestors depth this heap = Some chain ->
  exists heap',
    operator_minus_eq depth this size heap = Some heap'
    /\ fileobjects heap' = fileobjects heap
    /\ forall d, directories heap' !! d
                 = adjusted chain (- size) d <$> directories heap !! d.
Proof.
  revert this heap chain.
  induction depth as [|n IH]; intros this heap chain H; [done|].
  pose proof (ancestors_NoDup _ _ _ _ H) as Hnd. simpl in H. simpl.
  destruct (directories heap !! this) as [d0|] eqn:Hd0; [|done]. simpl in *.
  destruct (dir_parent d0) as [p|] eqn:Hp.
  - destruct (ancestors n p heap) as [c|] eqn:Hc; [|done].
    simpl in H. injection H as <-.
    apply NoDup_cons in Hnd as [Hnotin Hnd].
    set (heap1 := set_directories _ heap).
    assert (Hc1 : ancestors n p heap1 = Some c).
    { rewrite <- Hc. apply ancestors_parents. intros d. subst heap1. simpl.
      destruct (decide (this = d)) as [->|Hne].
      - by rewrite lookup_insert_eq, Hd0.
      - by rewrite lookup_insert_ne. }
    destruct (IH p heap1 c Hc1) as (heap' & Hop & Hf & Hdirs).
    exists heap'. split; [done|]. split; [done|].
    intros d. rewrite Hdirs. subst heap1. simpl. unfold adjusted.
    destruct (decide (this = d)) as [->|Hne].
    + rewrite lookup_insert_eq, Hd0. simpl.
      rewrite bool_decide_eq_false_2 by done.
      rewrite bool_decide_eq_true_2 by (by left). done.
    + rewrite lookup_insert_ne by done.
      destruct (directories heap !! d) as [x|]; [|done]. simpl.
      destruct (bool_decide_reflect (d ∈ c)) as [Hin|Hout].
      * rewrite bool_decide_eq_true_2 by (by right). done.
      * rewrite bool_decide_eq_false_2; [done|].
        intros [->|Hin]%elem_of_cons; done.
  - injection H as <-. eexists. split; [reflexivity|]. split; [done|].
    intros d. simpl. unfold adjusted.
    destruct (decide (this = d)) as [->|Hne].
    + rewrite lookup_insert_eq, Hd0. simpl.
      rewrite bool_decide_eq_true_2 by (by left). done.
    + rewrite lookup_insert_ne by done.
      destruct (directories heap !! d) as [x|]; [|done]. simpl.
      rewrite bool_decide_eq_false_2; [done|].
      by intros ->%list_elem_of_singleton.
Qed.

End Operators.

Section StealContentFacts.

Import FM.

(** [File::changeDirectory] is not part of the sources.  It is taken to
    leave the directories and the sizes of the files as they are: it
    re-points the file. *)
Variable changeDirectory : nat -> nat -> Cache -> Cache.
Hypothesis changeDirectory_directories :
  forall file dir heap,
    directories (changeDirectory file dir heap) = directories heap.
Hypothesis changeDirectory_getSize :
  forall file dir heap other,
    file_getSize other (changeDirectory file dir heap)
    = file_getSize other heap.

Lemma stealContent_files_frame (this : nat) (l : list nat) (heap : Cache) :
  directories (stealContent_files changeDirectory this l heap)
  = directories heap
  /\ forall other,
       file_getSize other (stealContent_files changeDirectory this l heap)
       = file_getSize other heap.
Proof.
  revert heap. induction l as [|f l IH]; intros heap; simpl; [done|].
  destruct (IH (changeDirectory f this heap)) as [-> H]. split.
  - apply changeDirectory_directories.
  - intros other. by rewrite H, changeDirectory_getSize.
Qed.

Lemma sum_sizes_nil : sum_sizes [] = 0%Z.
Proof. reflexivity. Qed.

(** C9, where the code departs from it.  When a directory without
    sub-directories is emptied into another one by [stealContent], its
    files move but no size moves: the destination keeps its size, the
    source keeps its size, and the sizes of the files are what they were.
    A source whose size was the sum of the sizes of its files, and not 0,
    is therefore left with a size that is not the sum of what it
    contains. *)
Theorem stealContent_moves_no_file_size (depth : nat) (this dir : nat)
    (heap : Cache) (to from : Directory) :
  dir <> this ->
  directories heap !! this = Some to ->
  directories heap !! dir = Some from ->
  dir_subDirs from = [] ->
  exists heap',
    stealContent changeDirectory depth this dir heap = Some heap'
    /\ directories heap' !! this
       = Some (with_files (dir_files to ++ dir_files from) to)
    /\ directories heap' !! dir = Some (with_files [] from)
    /\ (forall file, file_getSize file heap' = file_getSize file heap)
    /\ (aggregated dir heap -> content_size from heap <> 0%Z ->
        ~ aggregated dir heap').
Proof.
  intros Hne Hto Hfrom Hsub. unfold stealContent.
  apply Nat.eqb_neq in Hne as Hne'. rewrite Hne', Hfrom. simpl.
  unfold update at 2. rewrite Hto. simpl. rewrite Hsub. simpl.
  set (heap1 := set_directories _ heap).
  destruct (stealContent_files_frame this (dir_files from) heap1) as [Hd Hs].
  set (heap2 := stealContent_files changeDirectory this (dir_files from) heap1)
    in *.
  unfold update. rewrite Hd. subst heap1. simpl.
  rewrite lookup_insert_ne by done. rewrite Hfrom. simpl.
  eexists. split; [reflexivity|]. simpl.
  rewrite lookup_insert_eq, lookup_insert_ne, lookup_insert_eq by done.
  assert (Hto' : with_files (dir_files to ++ dir_files from)
                   (with_subDirs (dir_subDirs to ++ []) to)
                 = with_files (dir_files to ++ dir_files from) to).
  { rewrite app_nil_r. by destruct to. }
  assert (Hfrom' : with_files [] (with_subDirs [] from) = with_files [] from).
  { destruct from. simpl in *. by subst. }
  rewrite Hto', Hfrom'. split; [done|]. split; [done|]. split.
  - intros file. unfold file_getSize. simpl. apply (Hs file).
  - intros Hagg Hnz Hagg'. specialize (Hagg from Hfrom).
    specialize (Hagg' (with_files [] from)). simpl in Hagg'.
    rewrite lookup_insert_eq in Hagg'. specialize (Hagg' eq_refl).
    unfold content_size in Hagg'. simpl in Hagg'. rewrite Hsub in Hagg'.
    simpl in Hagg'. lia.
Qed.

End StealContentFacts.

Lemma changeDirectory_pointer_getSize (file dir : nat) (heap : FM.Cache)
    (other : nat) :
  FM.file_getSize other (FM.changeDirectory_pointer file dir heap)
  = FM.file_getSize other heap.
Proof.
  unfold FM.file_getSize, FM.changeDirectory_pointer. simpl.
  destruct (decide (file = other)) as [->|Hne].
  - rewrite lookup_alter_eq. by destruct (FM.fileobjects heap !! other).
  - by rewrite lookup_alter_ne.
Qed.

(** C9 at two roots: directory 1 is empty, directory 2 holds one file of 5
    bytes.  After [stealContent] directory 1 holds the file and has size 0,
    directory 2 is empty and has size 5. *)
Lemma stealContent_moves_no_file_size_witness :
  FM.aggregated 2 Examples.two_roots
  /\ exists heap',
       FM.stealContent FM.changeDirectory_pointer 2 1 2 Examples.two_roots
       = Some heap'
       /\ FM.directories heap' !! 1%nat
          = Some (FM.mkDirectory None 0 [] [10%nat])
       /\ FM.directories heap' !! 2%nat = Some (FM.mkDirectory None 5 [] [])
       /\ (forall file,
             FM.file_getSize file heap'
             = FM.file_getSize file Examples.two_roots)
       /\ ~ FM.aggregated 2 heap'.
Proof.
  assert (Hagg : FM.aggregated 2 Examples.two_roots).
  { intros d Hd. vm_compute in Hd. injection Hd as <-. reflexivity. }
  split; [exact Hagg|].
  destruct (stealContent_moves_no_file_size FM.changeDirectory_pointer
              (fun _ _ _ => eq_refl) changeDirectory_pointer_getSize 2 1 2
              Examples.two_roots (FM.mkDirectory None 0 [] [])
              (FM.mkDirectory None 5 [] [10%nat]))
    as (heap' & H1 & H2 & H3 & H4 & H5); try done.
  exists heap'. repeat split; try done. apply H5; [exact Hagg|].
  vm_compute. discriminate.
Defined.

(** ** Part VII -- the downloads widget: removing, progress and menu *)

Section WidgetFacts.

Import GUI.

Variable downloadsModel : DownloadsModel.

Lemma removeSelectedEntries_loop_spec (i : list Z) (downloadIDs : list Z)
    (allComplete : bool) :
  removeSelectedEntries_loop downloadsModel i downloadIDs allComplete
  = (downloadIDs
       ++ List.filter (fun ID => negb (ID =? 0)%Z)
            (map (getDownloadID downloadsModel) i),
     allComplete && forallb (isFileComplete downloadsModel) i).
Proof.
  revert downloadIDs allComplete.
  induction i as [|row i IH]; intros downloadIDs allComplete; simpl.
  - by rewrite app_nil_r, andb_true_r.
  - rewrite IH.
    destruct (getDownloadID downloadsModel row =? 0)%Z,
             (isFileComplete downloadsModel row); simpl;
      rewrite <- ?app_assoc, ?andb_false_r; try done.
Qed.

(** The IDs of the selected rows that are not zero, in the order of the
    selection. *)
Definition selectedIDs (selectedRows : list Z) : list Z :=
  List.filter (fun ID => negb (ID =? 0)%Z)
    (map (getDownloadID downloadsModel) selectedRows).

(** [removeSelectedEntries] cancels the non-zero IDs of the selection, in
    the order of the selection, in one request; it sends nothing when there
    is none; it asks for a confirmation exactly when there is one and some
    selected row is not a complete file, and then cancels only on [Ok]. *)
Theorem removeSelectedEntries_confirms (selectedRows : list Z)
    (msgBox_exec : StandardButton) :
  let IDs := selectedIDs selectedRows in
  let allComplete := forallb (isFileComplete downloadsModel) selectedRows in
  let actions := removeSelectedEntries downloadsModel selectedRows msgBox_exec in
  (IDs = [] -> actions = [])
  /\ (IDs <> [] -> allComplete = true ->
      actions = [coreConnection_cancelDownloads IDs None])
  /\ (IDs <> [] -> allComplete = false -> msgBox_exec = Ok ->
      actions = [QMessageBox_exec; coreConnection_cancelDownloads IDs None])
  /\ (IDs <> [] -> allComplete = false -> msgBox_exec = Cancel ->
      actions = [QMessageBox_exec])
  /\ (forall IDs' complete,
        In (coreConnection_cancelDownloads IDs' complete) actions ->
        IDs' = IDs /\ complete = None /\ ~ In 0%Z IDs'
        /\ (allComplete = true \/ msgBox_exec = Ok)).
Proof.
  intros IDs allComplete actions.
  assert (Hactions :
    actions
    = if negb (isEmpty IDs) then
        if negb allComplete then
          QMessageBox_exec ::
            match msgBox_exec with
            | Ok => [coreConnection_cancelDownloads IDs None]
            | Cancel => []
            end
        else [coreConnection_cancelDownloads IDs None]
      else []).
  { subst actions. unfold removeSelectedEntries.
    by rewrite removeSelectedEntries_loop_spec. }
  assert (Hzero : ~ In 0%Z IDs).
  { subst IDs. unfold selectedIDs. intros [_ H]%filter_In. done. }
  clearbody actions. subst actions.
  repeat split.
  - by intros ->.
  - intros Hne ->. by destruct IDs.
  - intros Hne -> ->. by destruct IDs.
  - intros Hne -> ->. by destruct IDs.
  - destruct IDs as [|ID IDs0]; [done|]. simpl in H.
    destruct allComplete, msgBox_exec; simpl in H;
      intuition congruence.
  - destruct IDs as [|ID IDs0]; [done|]. simpl in H.
    destruct allComplete, msgBox_exec; simpl in H;
      intuition congruence.
  - destruct IDs as [|ID IDs0]; [done|]. simpl in H.
    destruct allComplete, msgBox_exec; simpl in H; intuition congruence.
  - destruct IDs as [|ID IDs0]; [done|]. simpl in H.
    destruct allComplete, msgBox_exec; simpl in H; intuition congruence.
Qed.

(** The argument of [setValue], when the product did not wrap around: the
    share of the queue that was downloaded, in ten-thousandths rounded down;
    it is 0 for an empty queue, at most 10000, and 10000 only when everything
    was downloaded.  The remaining time is left out of the text when it is
    zero or more than a week. *)
Theorem updateGlobalProgressBar_value (bytesInQueue bytesDownloaded eta : Z) :
  (0 <= bytesDownloaded <= bytesInQueue)%Z ->
  (bytesDownloaded * 10000 < 2 ^ 64)%Z ->
  let bar := updateGlobalProgressBar bytesInQueue bytesDownloaded eta in
  (0 <= setValue bar <= 10000)%Z
  /\ (bytesInQueue = 0%Z -> setValue bar = 0%Z)
  /\ ((0 < bytesInQueue)%Z ->
      setValue bar = (bytesDownloaded * 10000 / bytesInQueue)%Z
      /\ (setValue bar * bytesInQueue <= bytesDownloaded * 10000
          < (setValue bar + 1) * bytesInQueue)%Z
      /\ (setValue bar = 10000%Z <-> bytesDownloaded = bytesInQueue))
  /\ (format_eta bar = None <-> eta = 0%Z \/ (604800 < eta)%Z)
  /\ (format_eta bar <> None -> format_eta bar = Some eta).
Proof.
  intros Hd Hw bar.
  assert (Heta : format_eta bar
                 = if (eta =? 0)%Z || (604800 <? eta)%Z then None else Some eta)
    by reflexivity.
  assert (Hv : setValue bar
               = if (bytesInQueue =? 0)%Z then 0%Z
                 else (bytesDownloaded * 10000 / bytesInQueue)%Z).
  { subst bar. unfold updateGlobalProgressBar, setValue, to_quint64.
    rewrite (Z.mod_small (bytesDownloaded * 10000)) by lia.
    destruct (Z.eqb_spec bytesInQueue 0) as [->|Hq]; [reflexivity|].
    assert (0 <= bytesDownloaded * 10000 / bytesInQueue <= 10000)%Z.
    { split; [apply Z.div_pos; lia|].
      apply Z.div_le_upper_bound; lia. }
    unfold DM.to_int. rewrite Z.mod_small by lia.
    destruct (Z.ltb_spec (bytesDownloaded * 10000 / bytesInQueue) (2 ^ 31));
      [reflexivity|lia]. }
  clearbody bar.
  destruct (Z.eqb_spec bytesInQueue 0) as [Hq|Hq].
  - repeat split; try lia.
    + rewrite Heta. destruct (Z.eqb_spec eta 0), (Z.ltb_spec 604800 eta);
        simpl; intros; try done; lia.
    + rewrite Heta. destruct (Z.eqb_spec eta 0), (Z.ltb_spec 604800 eta);
        simpl; intros; try done; lia.
    + rewrite Heta. destruct (Z.eqb_spec eta 0), (Z.ltb_spec 604800 eta);
        simpl; intros; try done; lia.
  - assert (Hpos : (0 < bytesInQueue)%Z) by lia.
    pose proof (Z.div_mod (bytesDownloaded * 10000) bytesInQueue Hq) as Hdm.
    pose proof (Z.mod_pos_bound (bytesDownloaded * 10000) bytesInQueue Hpos)
      as Hm.
    rewrite Hv.
    assert (0 <= bytesDownloaded * 10000 / bytesInQueue <= 10000)%Z.
    { split; [apply Z.div_pos; lia|].
      apply Z.div_le_upper_bound; lia. }
    repeat split; try lia; try nia.
    + rewrite Heta. destruct (Z.eqb_spec eta 0), (Z.ltb_spec 604800 eta);
        simpl; intros; try done; lia.
    + rewrite Heta. destruct (Z.eqb_spec eta 0), (Z.ltb_spec 604800 eta);
        simpl; intros; try done; lia.
    + rewrite Heta. destruct (Z.eqb_spec eta 0), (Z.ltb_spec 604800 eta);
        simpl; intros; try done; lia.
Qed.

Lemma showOpenLocation_loop_spec (isFileLocationKnown : Z -> bool)
    (i : list Z) :
  showOpenLocation_loop isFileLocationKnown i = true
  <-> exists row, In row i /\ isFileLocationKnown row = true.
Proof.
  induction i as [|row i IH]; simpl.
  - split; [done|]. by intros (? & [] & _).
  - destruct (isFileLocationKnown row) eqn:Hrow.
    + split; [|done]. intros _. exists row. by split; [left|].
    + rewrite IH. split.
      * intros (r & Hr & Hk). exists r. by split; [right|].
      * intros (r & [<-|Hr] & Hk); [congruence|]. by exists r.
Qed.

(** The context menu: "Open location" is offered exactly when the location
    of a selected row is known; the menu ends with the one action connected
    to [pauseSelectedEntries], whose text says what that slot sends: "Pause
    selected entries" when the request pauses, "Unpause selected entries" when
    it resumes, and also when the slot sends no request at all. *)
Theorem displayContextMenuDownloads_offers (isFileLocationKnown : Z -> bool)
    (selectedRows : list Z) :
  let menu :=
    displayContextMenuDownloads downloadsModel isFileLocationKnown
      selectedRows in
  ((exists a, In a menu /\ action_slot a = SLOT_openLocationSelectedEntries)
   <-> exists row, In row selectedRows /\ isFileLocationKnown row = true)
  /\ exists front pause,
       menu = front ++ [pause]
       /\ action_slot pause = SLOT_pauseSelectedEntries
       /\ Forall (fun a => action_slot a <> SLOT_pauseSelectedEntries) front
       /\ (forall IDs p,
             pauseSelectedEntries downloadsModel selectedRows
             = [pauseDownloads IDs p] ->
             action_text pause
             = if p then "Pause selected entries"%string
               else "Unpause selected entries"%string)
       /\ (pauseSelectedEntries downloadsModel selectedRows = [] ->
           action_text pause = "Unpause selected entries"%string).
Proof.
  intros menu. subst menu. unfold displayContextMenuDownloads.
  set (IDs := getDownloadIDsToPause downloadsModel selectedRows).
  assert (Hempty : fst IDs = [] -> snd IDs = false).
  { subst IDs. unfold getDownloadIDsToPause.
    rewrite (getDownloadIDsToPause_loop_spec downloadsModel). simpl.
    intros H. apply map_eq_nil in H. by rewrite H. }
  split.
  - rewrite <- showOpenLocation_loop_spec.
    destruct (showOpenLocation_loop isFileLocationKnown selectedRows); simpl.
    + split; [done|]. intros _. eexists. split; [by left|done].
    + split; [|done]. intros (a & Ha & Hs).
      destruct Ha as [<-|[<-|[<-|[]]]]; done.
  - eexists (_ ++ [_; _]), _. split; [|split; [|split; [|split]]].
    + rewrite <- app_assoc. reflexivity.
    + reflexivity.
    + apply Forall_app. split.
      * destruct (showOpenLocation_loop isFileLocationKnown selectedRows);
          repeat constructor; done.
      * repeat constructor; done.
    + unfold pauseSelectedEntries. fold IDs. simpl.
      intros IDs' p H. destruct (fst IDs); [done|]. simpl in H.
      by injection H as _ <-.
    + unfold pauseSelectedEntries. fold IDs. simpl.
      intros H. destruct (fst IDs) eqn:HIDs; [|done].
      by rewrite Hempty.
Qed.

End WidgetFacts.

(** The progress bar of a queue of 4096 bytes, 1024 of them downloaded. *)
Lemma updateGlobalProgressBar_value_witness :
  GUI.setValue (GUI.updateGlobalProgressBar 4096 1024 30) = 2500%Z
  /\ GUI.format_eta (GUI.updateGlobalProgressBar 4096 1024 30) = Some 30%Z.
Proof.
  destruct (updateGlobalProgressBar_value 4096 1024 30) as (_ & _ & H & _ & He);
    [lia|lia|].
  split.
  - destruct H as (-> & _); [lia|reflexivity].
  - apply He. discriminate.
Defined.

(** ** Part VIII -- the download manager: the other handlers *)

Section DownloadManagerMore.

Import DM.

Variable RESCAN_QUEUE_PERIOD_IF_ERROR : Z.
Variable FILE_QUEUE_VERSION : Z.

Local Abbreviation reachable :=
  (DM.reachable RESCAN_QUEUE_PERIOD_IF_ERROR FILE_QUEUE_VERSION).
Local Abbreviation handle := (DM.handle FILE_QUEUE_VERSION).

(** *** A queued directory download keeps a retrieval in flight *)

Definition awaited (this : DownloadManager) : Prop :=
  count is_Dir (downloads this) = 0 \/ retrievingEntries this = true.

Lemma awaited_scanTheQueueToRetrieveEntries (this : DownloadManager) :
  awaited (scanTheQueueToRetrieveEntries this).
Proof.
  destruct (scanTheQueueToRetrieveEntries_cases this)
    as [[-> [H|H]]|(_ & pre & d & post & _ & _ & ->)].
  - by right.
  - by left.
  - by right.
Qed.

Lemma awaited_addDownload_at (entry : Entry) (peerSource : Hash)
    (complete : bool) (iterator : nat) (this : DownloadManager) :
  awaited this ->
  awaited (addDownload_at entry peerSource complete iterator this).
Proof.
  intros H. unfold addDownload_at.
  destruct (isEntryAlreadyQueued entry this); [done|].
  destruct (entry_type entry).
  - unfold awaited in *. simpl. by rewrite count_iterator_insert.
  - apply awaited_scanTheQueueToRetrieveEntries.
Qed.

Lemma awaited_replay (entries : list Queue_Entry) (this : DownloadManager) :
  awaited this -> awaited (replay entries this).
Proof.
  revert this. induction entries as [|e entries IH]; intros this H; [done|].
  simpl. by apply IH, awaited_addDownload_at.
Qed.

Lemma count_is_Dir_keys (ds ds' : list Download) :
  Forall well_typed ds -> Forall well_typed ds' -> keys ds' = keys ds ->
  count is_Dir ds' = count is_Dir ds.
Proof.
  revert ds'. induction ds as [|d ds IH]; intros [|d' ds'] Ht Ht' Hk;
    try done.
  apply Forall_cons in Ht as [Hd Ht]. apply Forall_cons in Ht' as [Hd' Ht'].
  unfold keys in Hk. rewrite !fmap_cons in Hk. injection Hk as Hk1 Hk2.
  simpl. rewrite (IH ds'); [|done..]. f_equal.
  unfold well_typed in *. unfold key in Hk1.
  assert (He : entry_type (getEntry d') = entry_type (getEntry d))
    by congruence.
  rewrite Hd, Hd' in He. by destruct (is_Dir d), (is_Dir d').
Qed.

Lemma awaited_view (this this' : DownloadManager) :
  typed_inv this -> typed_inv this' ->
  queue_view this' = queue_view this -> awaited this -> awaited this'.
Proof.
  unfold queue_view, awaited. intros Ht Ht' Hv H.
  injection Hv as _ Hk _ Hr _.
  by rewrite Hr, (count_is_Dir_keys _ _ Ht Ht' Hk).
Qed.

Lemma awaited_handle (input : Input) (this : DownloadManager) :
  admissible input this -> queue_inv this -> typed_inv this ->
  awaited this -> awaited (handle input this).
Proof.
  intros Hadm Hq Ht H.
  pose proof (typed_inv_handle FILE_QUEUE_VERSION input this Ht) as Ht'.
  destruct input; cbn [DM.handle] in *.
  - by apply awaited_addDownload_at.
  - unfold fileCacheLoaded. rewrite loadQueueFromFile_cases. simpl.
    destruct (FILE_QUEUE (persistent this)) as [| |q]; try done.
    destruct (to_int (queue_version q) =? FILE_QUEUE_VERSION)%Z; [|done].
    by apply awaited_replay.
  - destruct Hadm as [Hin _]. unfold newEntries. simpl.
    destruct (sender_found dirDownload (downloads this))
      as (l1 & l2 & _ & ->); [apply Hq|done|].
    apply awaited_scanTheQueueToRetrieveEntries.
  - unfold awaited in *. simpl. destruct H as [H|H]; [left|by right].
    pose proof (count_removal is_Dir _ _
                  (removeOne_removal download (downloads this))). lia.
  - revert H. apply awaited_view; [done..|]. apply queue_view_scanTheQueue.
  - revert H. apply awaited_view; [done..|]. apply queue_view_timeout.
  - revert H. apply awaited_view; [done..|]. apply queue_view_hashReceived.
  - revert H. apply awaited_view; [done..|]. apply queue_view_downloadFinished.
  - revert H. apply awaited_view; [done..|]. apply queue_view_fileCompleted.
Qed.

Lemma reachable_awaited (number_of_downloader : Z) (store : PersistentData)
    (this : DownloadManager) :
  reachable number_of_downloader store this -> awaited this.
Proof.
  induction 1 as [|this input this' Hreach IH Hstep].
  - by left.
  - destruct Hstep as [input Hadm].
    apply awaited_handle; [done| |by eapply reachable_typed|done].
    by eapply reachable_inv.
Qed.

(** In every reachable state, if the queue holds a directory download then
    a retrieval of entries is marked in flight, so that the scan for a
    directory to resolve returns at once; and the entry of a queued
    directory download has the type DIR. *)
Theorem queued_directory_awaited (number_of_downloader : Z)
    (store : PersistentData) (this : DownloadManager) (d : DirDownload) :
  reachable number_of_downloader store this ->
  Dir d ∈ downloads this ->
  retrievingEntries this = true
  /\ scanTheQueueToRetrieveEntries this = this
  /\ entry_type (dd_entry d) = Entry_Type_DIR.
Proof.
  intros Hreach Hin.
  pose proof (reachable_awaited _ _ _ Hreach) as Ha.
  assert (Hr : retrievingEntries this = true).
  { destruct Ha as [Ha|Ha]; [|done].
    apply list_elem_of_split in Hin as (l1 & l2 & Hds).
    rewrite Hds, count_app in Ha. simpl in Ha. lia. }
  split; [done|]. split.
  - unfold scanTheQueueToRetrieveEntries. by rewrite Hr.
  - pose proof (reachable_typed _ _ _ _ _ Hreach) as Ht.
    unfold typed_inv in Ht. rewrite Forall_forall in Ht.
    apply (Ht _ Hin).
Qed.

(** *** Deleting a download *)

Lemma removeOne_filter (id : nat) (ds : list Download) :
  NoDup (getID <$> ds) ->
  DM.removeOne id ds = List.filter (fun d => negb (Nat.eqb (getID d) id)) ds.
Proof.
  induction ds as [|d ds IH]; intros Hnd; [done|].
  rewrite fmap_cons in Hnd. apply NoDup_cons in Hnd as [Hd Hnd]. simpl.
  destruct (Nat.eqb_spec (getID d) id) as [<-|Hne]; simpl.
  - symmetry. apply forallb_filter_id. apply forallb_forall.
    intros x Hx. apply negb_true_iff, Nat.eqb_neq. intros Heq.
    apply Hd. rewrite <- Heq. apply list_elem_of_fmap_2.
    by apply list_elem_of_In.
  - by rewrite IH.
Qed.

(** In a reachable state [downloadDeleted] removes the download with the
    identity given and no other, keeping the order of the rest (and changes
    nothing when no download has that identity); the entry of the download
    removed is not queued any more, so that [addDownload] accepts it again
    and appends it. *)
Theorem downloadDeleted_removes (number_of_downloader : Z)
    (store : PersistentData) (this : DownloadManager) (download : nat) :
  reachable number_of_downloader store this ->
  let this' := downloadDeleted download this in
  downloads this'
  = List.filter (fun d => negb (Nat.eqb (getID d) download)) (downloads this)
  /\ ((forall d, d ∈ downloads this -> getID d <> download) -> this' = this)
  /\ (forall d peerSource,
        d ∈ downloads this -> getID d = download ->
        isEntryAlreadyQueued (getEntry d) this' = false
        /\ length (downloads this') + 1 = length (downloads this)
        /\ exists d',
             downloads (addDownload (getEntry d) peerSource this')
             = downloads this' ++ [d']
             /\ key (getEntry d') = key (getEntry d)).
Proof.
  intros Hreach this'.
  destruct (reachable_inv _ _ _ _ _ Hreach) as ((Hk & Hi & _) & _).
  assert (Hds : downloads this'
                = List.filter (fun d => negb (Nat.eqb (getID d) download))
                    (downloads this))
    by (by apply removeOne_filter).
  split; [done|]. split.
  - intros Hall. subst this'. unfold downloadDeleted.
    destruct (removeOne_found download (downloads this))
      as [->|(l1 & x & l2 & Heq & Hx & _)]; [by destruct this|].
    exfalso. apply (Hall x); [|done]. rewrite Heq.
    apply elem_of_app. right. by left.
  - intros d peerSource Hin Hid.
    destruct (removeOne_found download (downloads this))
      as [Heq|(l1 & x & l2 & Heq & Hx & Hrem)].
    { exfalso. change (DM.removeOne download (downloads this))
        with (downloads this') in Heq.
      rewrite Hds in Heq.
      assert (Hd : In d (List.filter
                           (fun d => negb (Nat.eqb (getID d) download))
                           (downloads this)))
        by (rewrite Heq; by apply list_elem_of_In).
      apply filter_In in Hd as [_ Hd].
      apply negb_true_iff, Nat.eqb_neq in Hd. done. }
    assert (x = d) as ->.
    { rewrite Heq in Hin, Hi. rewrite fmap_app, fmap_cons in Hi.
      apply NoDup_app in Hi as (_ & Hl1 & Hi).
      apply NoDup_cons in Hi as [Hl2 _].
      apply elem_of_app in Hin as [Hin|Hin].
      - exfalso. apply (Hl1 (getID d)); [by apply list_elem_of_fmap_2|].
        rewrite Hid, Hx. by left.
      - apply elem_of_cons in Hin as [Hin|Hin]; [done|].
        exfalso. apply Hl2. rewrite Hx, <- Hid.
        by apply list_elem_of_fmap_2. }
    change (DM.removeOne download (downloads this))
      with (downloads this') in Hrem.
    assert (Hfresh : isEntryAlreadyQueued (getEntry d) this' = false).
    { unfold isEntryAlreadyQueued. rewrite Hrem.
      apply not_true_is_false. rewrite isEntryAlreadyQueued_loop_spec.
      rewrite Heq in Hk. unfold keys in *.
      rewrite fmap_app, fmap_cons in Hk.
      apply NoDup_app in Hk as (_ & Hl1 & Hk).
      apply NoDup_cons in Hk as [Hl2 _].
      rewrite fmap_app. intros [H|H]%elem_of_app.
      - apply (Hl1 _ H). by left.
      - by apply Hl2. }
    split; [done|]. split.
    { rewrite Hrem, Heq, !length_app. simpl. lia. }
    unfold addDownload, addDownload_at. rewrite Hfresh.
    destruct (entry_type (getEntry d)) eqn:Hty.
    + eexists. simpl. split; [apply iterator_insert_back|]. reflexivity.
    + set (this1 := set_downloads _ _).
      destruct (scanTheQueueToRetrieveEntries_cases this1)
        as [[-> _]|(Hflag & pre & x & post & Hpre & Hc & ->)].
      * eexists. subst this1. simpl.
        split; [apply iterator_insert_back|]. reflexivity.
      * subst this1. simpl in *. rewrite iterator_insert_back in Hpre.
        destruct (decide (post = [])) as [->|Hpost].
        -- apply app_inj_tail in Hpre as [<- Hx'].
           eexists. split; [reflexivity|]. simpl.
           by injection Hx' as <-.
        -- exfalso. destruct (exists_last Hpost) as (post' & y & ->).
           rewrite app_comm_cons, app_assoc in Hpre.
           apply app_inj_tail in Hpre as [Hpre _].
           destruct (reachable_awaited _ _ _ Hreach) as [Ha|Ha].
           ++ rewrite Heq, count_app in Ha. simpl in Ha.
              pose proof (reachable_typed _ _ _ _ _ Hreach) as Ht.
              unfold typed_inv in Ht. rewrite Forall_forall in Ht.
              specialize (Ht d Hin). unfold well_typed in Ht.
              rewrite Hty in Ht. destruct (is_Dir d); [lia|done].
           ++ congruence.
Qed.

(** *** While a retrieval is in flight *)

Definition is_retrieve (e : Event) : bool :=
  match e with Call_retrieveEntries _ => true | _ => false end.

(** The calls of [DirDownload::retrieveEntries] in a trace. *)
Definition retrieve_calls (l : list Event) : nat := count is_retrieve l.

Lemma retrieve_calls_body (oracle : Oracle) (f : FileDownload) (copy : Z)
    (this : DownloadManager) :
  retrieve_calls (log (scanTheQueue_body oracle f copy this).2)
  = retrieve_calls (log this).
Proof.
  unfold scanTheQueue_body, retrieve_calls.
  destruct (getAChunkToDownload (oracle (fd_id f)) f) as [[i|] f'];
    destruct (32 <=? fd_status f')%Z; destruct (answer_started (oracle (fd_id f)));
    simpl; rewrite ?count_app; simpl; lia.
Qed.

Lemma retrieve_calls_loop (oracle : Oracle) (ds : list Download) (copy : Z)
    (this : DownloadManager) :
  retrieve_calls (log (scanTheQueue_loop oracle ds copy this).2)
  = retrieve_calls (log this).
Proof.
  revert copy this. induction ds as [|d ds IH]; intros copy this; [done|].
  simpl. destruct (copy <? NUMBER_OF_DOWNLOADER this)%Z; [|done].
  destruct d as [f|d].
  - pose proof (retrieve_calls_body oracle f copy this) as Hb.
    destruct (scanTheQueue_body oracle f copy this) as [[f' copy'] this1].
    specialize (IH copy' this1).
    destruct (scanTheQueue_loop oracle ds copy' this1) as [ds' this2].
    simpl in *. congruence.
  - specialize (IH copy this).
    destruct (scanTheQueue_loop oracle ds copy this) as [ds' this2].
    done.
Qed.

Lemma retrieve_calls_scanTheQueue (oracle : Oracle) (this : DownloadManager) :
  retrieve_calls (log (scanTheQueue oracle this)) = retrieve_calls (log this).
Proof.
  unfold scanTheQueue.
  pose proof (retrieve_calls_loop oracle (downloads this)
                (numberOfDownload this) this) as H.
  destruct (scanTheQueue_loop oracle (downloads this) (numberOfDownload this)
              this) as [ds' this'].
  done.
Qed.

Definition in_flight_view (this : DownloadManager) :=
  (retrievingEntries this, retrieve_calls (log this),
   retrieving (downloads this)).

Lemma in_flight_queue_view (this this' : DownloadManager) :
  queue_view this' = queue_view this ->
  retrieve_calls (log this') = retrieve_calls (log this) ->
  in_flight_view this' = in_flight_view this.
Proof.
  unfold queue_view, in_flight_view, retrieving. intros Hv ->.
  injection Hv as _ _ Hv1 Hv2 _.
  by rewrite Hv2, (count_fmap_eq _ _ _ Hv1).
Qed.

Lemma in_flight_addDownload_at (entry : Entry) (peerSource : Hash)
    (complete : bool) (iterator : nat) (this : DownloadManager) :
  retrievingEntries this = true ->
  in_flight_view (addDownload_at entry peerSource complete iterator this)
  = in_flight_view this.
Proof.
  intros H. unfold addDownload_at, in_flight_view, retrieve_calls, retrieving.
  destruct (isEntryAlreadyQueued entry this).
  { simpl. rewrite count_app. simpl. by rewrite Nat.add_0_r. }
  destruct (entry_type entry).
  - simpl. rewrite count_app, count_iterator_insert. simpl.
    by rewrite Nat.add_0_r.
  - unfold scanTheQueueToRetrieveEntries. simpl. rewrite H. simpl.
    rewrite count_iterator_insert. simpl. by rewrite H.
Qed.

Lemma in_flight_replay (entries : list Queue_Entry) (this : DownloadManager) :
  retrievingEntries this = true ->
  in_flight_view (replay entries this) = in_flight_view this.
Proof.
  revert this. induction entries as [|e entries IH]; intros this H; [done|].
  simpl. rewrite IH.
  - by apply in_flight_addDownload_at.
  - by apply retrievingEntries_addDownload_at.
Qed.

(** While a retrieval of entries is marked in flight, no handler but
    [newEntries] clears the mark, calls [retrieveEntries] or makes a
    directory download retrieve: [downloadDeleted] of the directory download
    that is retrieving leaves the mark set, and the directory downloads that
    are queued or added afterwards wait for a [newEntries]. *)
Theorem retrieval_in_flight_blocks (input : Input) (this : DownloadManager) :
  retrievingEntries this = true ->
  (forall d entries moved, input <> In_newEntries d entries moved) ->
  let this' := handle input this in
  retrievingEntries this' = true
  /\ retrieve_calls (log this') = retrieve_calls (log this)
  /\ retrieving (downloads this') <= retrieving (downloads this).
Proof.
  intros Hr Hinput this'.
  assert (Hview :
    in_flight_view this' = in_flight_view this
    \/ exists download, input = In_downloadDeleted download).
  { subst this'. destruct input; cbn [DM.handle].
    - left. by apply in_flight_addDownload_at.
    - left. unfold fileCacheLoaded. rewrite loadQueueFromFile_cases. simpl.
      destruct (FILE_QUEUE (persistent this)) as [| |q];
        unfold in_flight_view, retrieve_calls; simpl;
        rewrite ?count_app; simpl; rewrite ?Nat.add_0_r; try done.
      destruct (to_int (queue_version q) =? FILE_QUEUE_VERSION)%Z.
      + by apply in_flight_replay.
      + simpl. rewrite !count_app. simpl. by rewrite !Nat.add_0_r.
    - by destruct (Hinput dirDownload entries moved).
    - right. by exists download.
    - left. unfold peerNoLongerDownloadingChunk.
      apply in_flight_queue_view; [apply queue_view_scanTheQueue|].
      apply retrieve_calls_scanTheQueue.
    - left. apply in_flight_queue_view; [apply queue_view_timeout|].
      unfold timeout. by rewrite retrieve_calls_scanTheQueue.
    - left. by apply in_flight_queue_view; [apply queue_view_hashReceived|].
    - left. apply in_flight_queue_view; [apply queue_view_downloadFinished|].
      unfold downloadFinished, chunkDownloadFinished.
      destruct (match _ with Some _ => _ | None => _ end); [|done].
      unfold retrieve_calls. simpl. rewrite count_app. simpl.
      by rewrite Nat.add_0_r.
    - left. by apply in_flight_queue_view; [apply queue_view_fileCompleted|]. }
  destruct Hview as [Hview|[download ->]].
  - unfold in_flight_view in Hview. injection Hview as -> -> ->. done.
  - subst this'. simpl. repeat split; [done|].
    apply count_removal, removeOne_removal.
Qed.

(** *** The search for a file download to ask for its hashes *)

Section Hashes.

Variable retreiveHashes : FileDownload -> bool * FileDownload.

(** What the loop makes of a download it passes. *)
Definition asked_for_hashes (d : Download) : Download :=
  match d with
  | File f => File (retreiveHashes f).2
  | Dir dirDownload => Dir dirDownload
  end.

Definition declines (d : Download) : Prop :=
  match d with
  | File f => (retreiveHashes f).1 = false
  | Dir _ => True
  end.

Lemma hashes_loop_declined (ds : list Download) :
  Forall declines ds ->
  peerNoLongerAskingForHashes_loop retreiveHashes ds
  = (file_ids ds, asked_for_hashes <$> ds).
Proof.
  induction 1 as [|d ds Hd Hds IH]; [done|].
  simpl. rewrite IH. destruct d as [f|d]; [|done].
  simpl in *. destruct (retreiveHashes f) as [b f'] eqn:Hf. simpl in *.
  by subst b.
Qed.

Lemma file_ids_app (l1 l2 : list Download) :
  file_ids (l1 ++ l2) = file_ids l1 ++ file_ids l2.
Proof. apply omap_app. Qed.

Lemma hashes_loop_accepted (pre : list Download) (f : FileDownload)
    (post : list Download) :
  Forall declines pre -> (retreiveHashes f).1 = true ->
  peerNoLongerAskingForHashes_loop retreiveHashes (pre ++ File f :: post)
  = (file_ids pre ++ [fd_id f],
     (asked_for_hashes <$> pre) ++ File (retreiveHashes f).2 :: post).
Proof.
  intros Hpre Hf. induction Hpre as [|d ds Hd Hds IH]; simpl.
  - destruct (retreiveHashes f) as [b f'] eqn:Hrf. simpl in *. by subst b.
  - rewrite IH. destruct d as [g|d]; [|done].
    simpl in *. destruct (retreiveHashes g) as [b g'] eqn:Hg. simpl in *.
    by subst b.
Qed.

(** [peerNoLongerAskingForHashes] asks the file downloads of the queue in
    order and stops at the first that accepts: when one accepts, the file
    downloads asked are those up to it, and the queue behind it is left as it
    was; when none accepts, every file download was asked once.  A directory
    download is never asked, and nothing else of the manager changes. *)
Theorem peerNoLongerAskingForHashes_first (this : DownloadManager) :
  let result := peerNoLongerAskingForHashes retreiveHashes this in
  (Forall declines (downloads this) ->
   result.1 = file_ids (downloads this)
   /\ downloads result.2 = asked_for_hashes <$> downloads this)
  /\ (forall pre f post,
        downloads this = pre ++ File f :: post ->
        Forall declines pre -> (retreiveHashes f).1 = true ->
        result.1 = file_ids pre ++ [fd_id f]
        /\ downloads result.2
           = (asked_for_hashes <$> pre) ++ File (retreiveHashes f).2 :: post)
  /\ result.1 `prefix_of` file_ids (downloads this)
  /\ length (downloads result.2) = length (downloads this)
  /\ result.2 = set_downloads (downloads result.2) this.
Proof.
  intros result. subst result. unfold peerNoLongerAskingForHashes.
  split; [|split; [|split; [|split]]].
  - intros H. by rewrite (hashes_loop_declined _ H).
  - intros pre f post Hds Hpre Hf.
    by rewrite Hds, (hashes_loop_accepted _ _ _ Hpre Hf).
  - induction (downloads this) as [|d ds IH]; simpl; [done|].
    destruct (peerNoLongerAskingForHashes_loop retreiveHashes ds)
      as [asked ds'].
    destruct d as [f|d]; [|done].
    destruct (retreiveHashes f) as [[] f']; simpl in *.
    + by apply prefix_cons, prefix_nil.
    + by apply prefix_cons.
  - induction (downloads this) as [|d ds IH]; simpl; [done|].
    destruct (peerNoLongerAskingForHashes_loop retreiveHashes ds)
      as [asked ds'].
    destruct d as [f|d]; simpl in *; [|by rewrite IH].
    destruct (retreiveHashes f) as [[] f']; simpl in *; [done|].
    by rewrite IH.
  - destruct (peerNoLongerAskingForHashes_loop retreiveHashes
                (downloads this)) as [asked ds']. done.
Qed.

End Hashes.

(** *** The unfinished chunks *)

Section UnfinishedChunks.

Variable Chunk : Type.
Variable fd_getUnfinishedChunks : FileDownload -> list Chunk -> Z -> list Chunk.

Lemma getUnfinishedChunks_loop_full (ds : list Download)
    (unfinishedChunks : list Chunk) (n : Z) :
  (n <= Z.of_nat (length unfinishedChunks))%Z ->
  getUnfinishedChunks_loop fd_getUnfinishedChunks ds unfinishedChunks n
  = unfinishedChunks.
Proof.
  intros H. destruct ds as [|d ds]; [done|]. simpl.
  destruct (Z.ltb_spec (Z.of_nat (length unfinishedChunks)) n); [lia|done].
Qed.

Lemma getUnfinishedChunks_loop_bounded (ds : list Download)
    (unfinishedChunks : list Chunk) (n : Z) :
  (forall f l, (Z.of_nat (length l) < n)%Z ->
               (Z.of_nat (length (fd_getUnfinishedChunks f l n)) <= n)%Z) ->
  (Z.of_nat (length unfinishedChunks) <= Z.max 0 n)%Z ->
  (Z.of_nat
     (length
        (getUnfinishedChunks_loop fd_getUnfinishedChunks ds unfinishedChunks
           n)) <= Z.max 0 n)%Z.
Proof.
  intros Hf. revert unfinishedChunks.
  induction ds as [|d ds IH]; intros l Hl; [done|]. simpl.
  destruct (Z.ltb_spec (Z.of_nat (length l)) n) as [Hlt|Hge]; [|done].
  destruct d as [f|d]; [|by apply IH].
  apply IH. specialize (Hf f l Hlt). lia.
Qed.

Lemma getUnfinishedChunks_loop_dirs (ds : list Download)
    (unfinishedChunks : list Chunk) (n : Z) :
  file_ids ds = [] ->
  getUnfinishedChunks_loop fd_getUnfinishedChunks ds unfinishedChunks n
  = unfinishedChunks.
Proof.
  induction ds as [|d ds IH]; intros Hds; [done|]. simpl.
  destruct (Z.of_nat (length unfinishedChunks) <? n)%Z; [|done].
  destruct d as [f|d]; [done|]. by apply IH.
Qed.

(** [getUnfinishedChunks(n)] returns no chunk when [n] is not positive,
    whatever the queue holds, and none when the queue holds no file
    download; when every file download keeps the list it is handed within
    [n], the result has at most [n] chunks. *)
Theorem getUnfinishedChunks_at_most (n : Z) (this : DownloadManager) :
  (forall f l, (Z.of_nat (length l) < n)%Z ->
               (Z.of_nat (length (fd_getUnfinishedChunks f l n)) <= n)%Z) ->
  (Z.of_nat (length (getUnfinishedChunks fd_getUnfinishedChunks n this))
   <= Z.max 0 n)%Z
  /\ ((n <= 0)%Z -> getUnfinishedChunks fd_getUnfinishedChunks n this = [])
  /\ (file_ids (downloads this) = [] ->
      getUnfinishedChunks fd_getUnfinishedChunks n this = []).
Proof.
  intros Hf. unfold getUnfinishedChunks. split; [|split].
  - apply getUnfinishedChunks_loop_bounded; [done|simpl; lia].
  - intros Hn. apply getUnfinishedChunks_loop_full. simpl. lia.
  - intros Hds. by apply getUnfinishedChunks_loop_dirs.
Qed.

End UnfinishedChunks.

End DownloadManagerMore.

(** The queue [x.bin; d; y.bin]: the directory download [d] is awaited. *)
Lemma queued_directory_awaited_witness :
  DM.retrievingEntries (Examples.queue_x_d_y 2) = true
  /\ DM.scanTheQueueToRetrieveEntries (Examples.queue_x_d_y 2)
     = Examples.queue_x_d_y 2
  /\ DM.entry_type (DM.dd_entry Examples.sender) = DM.Entry_Type_DIR.
Proof.
  apply (queued_directory_awaited Examples.period Examples.version 2
           Examples.store (Examples.queue_x_d_y 2) Examples.sender
           (queue_x_d_y_reachable 2)).
  apply list_elem_of_In. vm_compute. right. left. reflexivity.
Defined.

(** Deleting the directory download of the queue [x.bin; d; y.bin]. *)
Lemma downloadDeleted_removes_witness :
  DM.downloads (DM.downloadDeleted 1 (Examples.queue_x_d_y 2))
  = [Examples.download_x; Examples.download_y]
  /\ DM.isEntryAlreadyQueued Examples.dir_d
       (DM.downloadDeleted 1 (Examples.queue_x_d_y 2)) = false.
Proof.
  destruct (downloadDeleted_removes Examples.period Examples.version 2
              Examples.store (Examples.queue_x_d_y 2) 1
              (queue_x_d_y_reachable 2)) as (H1 & _ & H3).
  split.
  - rewrite H1. reflexivity.
  - apply (H3 (DM.Dir Examples.sender) Examples.peer); [|reflexivity].
    apply list_elem_of_In. vm_compute. right. left. reflexivity.
Defined.

(** The directory download that was retrieving is deleted, and the
    directory is queued again: the mark is still set and the new directory
    download is not asked for its entries. *)
Lemma retrieval_in_flight_blocks_witness :
  let this := DM.downloadDeleted 0 Examples.queue_d in
  let this' :=
    DM.handle Examples.version
      (DM.In_addDownload Examples.dir_d Examples.peer) this in
  DM.downloads this'
  = [DM.Dir (DM.new_DirDownload 1 Examples.peer Examples.dir_d)]
  /\ DM.retrievingEntries this' = true
  /\ retrieve_calls (DM.log this') = retrieve_calls (DM.log this)
  /\ DM.retrieving (DM.downloads this') <= 0.
Proof.
  split; [reflexivity|].
  apply (retrieval_in_flight_blocks Examples.version
           (DM.In_addDownload Examples.dir_d Examples.peer)
           (DM.downloadDeleted 0 Examples.queue_d)).
  - reflexivity.
  - discriminate.
Defined.

(** At most one unfinished chunk of the queue [x.bin; d; y.bin], when a file
    download appends its identity to a list that is not full. *)
Lemma getUnfinishedChunks_at_most_witness :
  let fd_getUnfinishedChunks :=
    fun (f : DM.FileDownload) (l : list nat) (n : Z) =>
      take (Z.to_nat n) (l ++ [DM.fd_id f]) in
  (Z.of_nat
     (length
        (DM.getUnfinishedChunks fd_getUnfinishedChunks 1
           (Examples.queue_x_d_y 2))) <= Z.max 0 1)%Z
  /\ DM.getUnfinishedChunks fd_getUnfinishedChunks 1 (Examples.queue_x_d_y 2)
     = [0].
Proof.
  intros fd_getUnfinishedChunks. split; [|reflexivity].
  apply (getUnfinishedChunks_at_most nat fd_getUnfinishedChunks 1
           (Examples.queue_x_d_y 2)).
  intros f l Hl. subst fd_getUnfinishedChunks. simpl.
  rewrite length_take. lia.
Defined.

(** ** Part IX -- the tree of directories *)

Section TreeFacts.

Import FM.

Lemma ancestors_head (depth : nat) (this : nat) (heap : Cache)
    (chain : list nat) :
  ancestors depth this heap = Some chain ->
  exists tail, chain = this :: tail.
Proof.
  destruct depth as [|n]; [done|]. simpl.
  destruct (directories heap !! this) as [d|]; [|done]. simpl.
  destruct (dir_parent d) as [p|].
  - destruct (ancestors n p heap) as [c|]; [|done]. simpl.
    intros [= <-]. by eexists.
  - intros [= <-]. by eexists.
Qed.

Lemma ancestors_step (depth : nat) (this : nat) (heap : Cache)
    (chain : list nat) :
  ancestors depth this heap = Some chain ->
  exists d n, depth = S n /\ directories heap !! this = Some d
    /\ match dir_parent d with
       | Some p => exists tail, ancestors n p heap = Some tail
                                /\ chain = this :: tail
       | None => chain = [this]
       end.
Proof.
  destruct depth as [|n]; [done|]. simpl.
  destruct (directories heap !! this) as [d|]; [|done]. simpl.
  intros H. exists d, n. split; [done|]. split; [done|].
  destruct (dir_parent d) as [p|].
  - destruct (ancestors n p heap) as [c|]; [|done]. simpl in H.
    injection H as <-. by exists c.
  - by injection H as <-.
Qed.

(** Every directory of the chain is in the heap and the next one is its
    parent. *)
Lemma ancestors_lookup (depth : nat) (this : nat) (heap : Cache)
    (chain : list nat) (i : nat) (c : nat) :
  ancestors depth this heap = Some chain -> chain !! i = Some c ->
  exists dc, directories heap !! c = Some dc
             /\ dir_parent dc = chain !! S i.
Proof.
  revert this chain i. induction depth as [|n IH]; intros this chain i H Hi;
    [done|].
  apply ancestors_step in H as (d & n' & [= <-] & Hd & H).
  destruct (dir_parent d) as [p|] eqn:Hp.
  - destruct H as (tail & Htail & ->).
    destruct i as [|i].
    + simpl in Hi. injection Hi as <-. exists d. split; [done|].
      destruct (ancestors_head _ _ _ _ Htail) as (t & ->). done.
    + simpl in Hi. by apply (IH p tail i).
  - subst chain. destruct i as [|i]; [|done].
    simpl in Hi. injection Hi as <-. by exists d.
Qed.

Lemma ancestors_suffix_of (n : nat) (this : nat) (heap : Cache)
    (chain : list nat) (other : nat) :
  ancestors n this heap = Some chain -> other ∈ chain ->
  exists pre chain', chain = pre ++ chain'
                     /\ ancestors n other heap = Some chain'.
Proof.
  revert this chain. induction n as [|n IH]; intros this chain H Hin; [done|].
  pose proof H as H'.
  apply ancestors_step in H as (d & n' & [= <-] & Hd & H).
  destruct (decide (other = this)) as [->|Hne].
  { exists [], chain. by split. }
  destruct (dir_parent d) as [p|] eqn:Hp.
  - destruct H as (tail & Htail & ->).
    apply elem_of_cons in Hin as [Hin|Hin]; [done|].
    destruct (IH p tail Htail Hin) as (pre & chain' & -> & Hc).
    exists (this :: pre), chain'. split; [done|].
    apply (ancestors_mono n); [done|lia].
  - subst chain. by apply list_elem_of_singleton in Hin.
Qed.

(** *** getRoot and isAChildOf *)

Lemma getRoot_last (depth : nat) (this : nat) (heap : Cache)
    (chain : list nat) :
  ancestors depth this heap = Some chain ->
  getRoot depth this heap = last chain.
Proof.
  revert this chain. induction depth as [|n IH]; intros this chain H; [done|].
  apply ancestors_step in H as (d & n' & [= <-] & Hd & H).
  simpl. rewrite Hd. simpl.
  destruct (dir_parent d) as [p|].
  - destruct H as (tail & Htail & ->). rewrite (IH p tail Htail).
    destruct (ancestors_head _ _ _ _ Htail) as (t & ->). done.
  - by subst chain.
Qed.

Lemma isAChildOf_tail (depth : nat) (this dir : nat) (heap : Cache)
    (chain : list nat) :
  ancestors depth this heap = Some chain ->
  isAChildOf depth this dir heap = Some (bool_decide (dir ∈ tail chain)).
Proof.
  revert this chain. induction depth as [|n IH]; intros this chain H; [done|].
  apply ancestors_step in H as (d & n' & [= <-] & Hd & H).
  simpl. rewrite Hd. simpl.
  destruct (dir_parent d) as [p|].
  - destruct H as (tail & Htail & ->). simpl.
    destruct (ancestors_head _ _ _ _ Htail) as (t & ->).
    destruct (Nat.eqb_spec p dir) as [Heq|Hne].
    + subst p. f_equal. symmetry. apply bool_decide_eq_true_2. by left.
    + rewrite (IH p _ Htail). simpl. f_equal.
      apply bool_decide_ext. rewrite elem_of_cons. split; [by right|].
      by intros [?|?].
  - by subst chain.
Qed.

(** Where the chain of parents of a directory ends within [depth] steps,
    [getRoot] returns its last directory: it has no parent, it is the
    directory itself exactly when that has no parent, and every other
    directory of the chain is a child of it, while it is a child of none. *)
Theorem getRoot_is_top (depth : nat) (this : nat) (heap : Cache)
    (chain : list nat) :
  ancestors depth this heap = Some chain ->
  exists root droot,
    getRoot depth this heap = Some root
    /\ root ∈ chain
    /\ directories heap !! root = Some droot
    /\ dir_parent droot = None
    /\ (forall d, directories heap !! this = Some d ->
                  (root = this <-> dir_parent d = None))
    /\ (forall c, c ∈ chain -> c <> root ->
                  isAChildOf depth c root heap = Some true)
    /\ (forall dir, isAChildOf depth root dir heap = Some false).
Proof.
  intros H. rewrite (getRoot_last _ _ _ _ H).
  destruct (ancestors_head _ _ _ _ H) as (t & Hchain).
  assert (Hlast : exists root, last chain = Some root).
  { destruct (last chain) as [root|] eqn:Hlast; [by exists root|].
    apply last_None in Hlast. congruence. }
  destruct Hlast as (root & Hlast). exists root.
  pose proof Hlast as Hi. rewrite last_lookup in Hi.
  destruct (ancestors_lookup _ _ _ _ _ _ H Hi) as (droot & Hdroot & Hp).
  assert (Hnone : dir_parent droot = None).
  { rewrite Hp. apply lookup_ge_None_2.
    rewrite Hchain. simpl. lia. }
  exists droot. split; [done|].
  assert (Hroot : root ∈ chain) by (by eapply list_elem_of_lookup_2).
  split; [done|]. split; [done|]. split; [done|].
  pose proof (ancestors_NoDup _ _ _ _ H) as Hnd.
  split; [|split].
  - intros d Hd. split.
    + intros ->. congruence.
    + intros Hd0. apply ancestors_step in H as (d' & n & -> & Hd' & H).
      rewrite Hd' in Hd. injection Hd as ->. rewrite Hd0 in H. subst chain.
      simpl in Hlast. congruence.
  - intros c Hc Hne.
    destruct (ancestors_suffix_of _ _ _ _ _ H Hc) as (pre & chain' & Heq & Hc').
    rewrite (isAChildOf_tail _ _ _ _ _ Hc'). f_equal.
    apply bool_decide_eq_true_2.
    destruct (ancestors_head _ _ _ _ Hc') as (t' & ->). simpl.
    rewrite Heq, last_app_cons in Hlast.
    apply last_cons_Some_ne in Hlast; [|done].
    by apply last_Some_elem_of.
  - intros dir.
    destruct (ancestors_suffix_of _ _ _ _ _ H Hroot)
      as (pre & chain' & Heq & Hc').
    rewrite (isAChildOf_tail _ _ _ _ _ Hc'). f_equal.
    apply bool_decide_eq_false_2.
    apply ancestors_step in Hc' as (d' & n & -> & Hd' & Hc').
    rewrite Hdroot in Hd'. injection Hd' as <-. rewrite Hnone in Hc'.
    subst chain'. simpl. by intros ?%elem_of_nil.
Qed.

(** Where the chain of parents of a directory ends within [depth] steps,
    [isAChildOf] from it is a strict order on the chain: the directory is
    not a child of itself; it is a child of its parent; a directory it is a
    child of is not a child of it; and it is a child of every directory that
    a directory it is a child of is a child of. *)
Theorem isAChildOf_strict_order (depth : nat) (this dir other : nat)
    (heap : Cache) (chain : list nat) :
  ancestors depth this heap = Some chain ->
  isAChildOf depth this this heap = Some false
  /\ (forall d p, directories heap !! this = Some d ->
                  dir_parent d = Some p ->
                  isAChildOf depth this p heap = Some true)
  /\ (isAChildOf depth this dir heap = Some true ->
      dir ∈ chain /\ isAChildOf depth dir this heap = Some false)
  /\ (isAChildOf depth this dir heap = Some true ->
      isAChildOf depth dir other heap = Some true ->
      isAChildOf depth this other heap = Some true).
Proof.
  intros H. pose proof (ancestors_NoDup _ _ _ _ H) as Hnd.
  destruct (ancestors_head _ _ _ _ H) as (t & ->).
  apply NoDup_cons in Hnd as [Hthis Hnd].
  assert (Hchild : forall x, isAChildOf depth this x heap = Some true
                             <-> x ∈ t).
  { intros x. rewrite (isAChildOf_tail _ _ _ _ _ H). simpl.
    split; [intros [= Hx]; by apply bool_decide_eq_true_1 in Hx|].
    intros Hx. f_equal. by apply bool_decide_eq_true_2. }
  assert (Hsuffix : forall x, x ∈ t ->
            exists pre tx, t = pre ++ x :: tx
                           /\ ancestors depth x heap = Some (x :: tx)).
  { intros x Hx.
    destruct (ancestors_suffix_of _ _ _ _ x H) as (pre & chain' & Heq & Hc');
      [by right|].
    destruct (ancestors_head _ _ _ _ Hc') as (tx & ->).
    destruct pre as [|y pre]; simpl in Heq.
    - injection Heq as -> _. done.
    - injection Heq as _ ->. by exists pre, tx. }
  split; [|split; [|split]].
  - rewrite (isAChildOf_tail _ _ _ _ _ H). simpl. f_equal.
    by apply bool_decide_eq_false_2.
  - intros d p Hd Hp. apply Hchild.
    destruct (ancestors_lookup _ _ _ _ 0 this H eq_refl) as (d' & Hd' & Hp').
    rewrite Hd in Hd'. injection Hd' as <-. rewrite Hp in Hp'.
    symmetry in Hp'. simpl in Hp'. apply (list_elem_of_lookup_2 _ _ _ Hp').
  - intros Hdir. apply Hchild in Hdir. split; [by right|].
    destruct (Hsuffix dir Hdir) as (pre & tx & -> & Hx).
    rewrite (isAChildOf_tail _ _ _ _ _ Hx). simpl. f_equal.
    apply bool_decide_eq_false_2. intros Hin. apply Hthis.
    apply elem_of_app. right. by right.
  - intros Hdir Hother. apply Hchild in Hdir. apply Hchild.
    destruct (Hsuffix dir Hdir) as (pre & tx & -> & Hx).
    rewrite (isAChildOf_tail _ _ _ _ _ Hx) in Hother. simpl in Hother.
    injection Hother as Hother. apply bool_decide_eq_true_1 in Hother.
    apply elem_of_app. right. by right.
Qed.

(** *** getPath and getFullPath *)

Lemma append_assoc (s1 s2 s3 : string) :
  ((s1 +:+ s2) +:+ s3 = s1 +:+ (s2 +:+ s3))%string.
Proof.
  induction s1 as [|a s1 IH]; [reflexivity|].
  transitivity (String a ((s1 +:+ s2) +:+ s3)); [reflexivity|].
  rewrite IH. reflexivity.
Qed.

Lemma append_nil_r (s : string) : (s +:+ "" = s)%string.
Proof.
  induction s as [|a s IH]; [reflexivity|].
  transitivity (String a (s +:+ "")); [reflexivity|]. by rewrite IH.
Qed.

Section Paths.

Variable getName : nat -> string.

Lemma getPath_loop_path (depth : nat) (dir : nat) (path : string)
    (heap : Cache) :
  getPath_loop getName depth dir path heap
  = (fun s => s +:+ path)%string <$> getPath_loop getName depth dir "" heap.
Proof.
  revert dir path. induction depth as [|n IH]; intros dir path; [done|].
  simpl. destruct (directories heap !! dir) as [d|]; [|done]. simpl.
  destruct (dir_parent d) as [p|]; [|done].
  destruct (directories heap !! p) as [dp|]; [|done]. simpl.
  destruct (dir_parent dp) as [pp|]; [|done].
  rewrite IH. rewrite (IH p ("/" +:+ getName p +:+ "")%string).
  rewrite <- option_fmap_compose. apply option_fmap_ext. intros s. simpl.
  by rewrite append_nil_r, !append_assoc.
Qed.

Lemma getFullPath_below (depth : nat) (this : nat) (heap : Cache)
    (chain : list nat) (d : Directory) (p : nat) :
  ancestors depth this heap = Some chain ->
  directories heap !! this = Some d -> dir_parent d = Some p ->
  exists root mid,
    getRoot depth this heap = Some root
    /\ getPath_loop getName depth this "" heap = Some mid
    /\ getFullPath getName depth this heap
       = Some (getName root +:+ mid +:+ "/" +:+ getName this)%string.
Proof.
  revert this chain d p.
  induction depth as [|n IH]; intros this chain d p H Hd Hp; [done|].
  apply ancestors_step in H as (d' & n' & [= <-] & Hd' & H).
  rewrite Hd in Hd'. injection Hd' as <-. rewrite Hp in H.
  destruct H as (tail & Htail & ->).
  pose proof Htail as Htail'.
  apply ancestors_step in Htail' as (dp & m & Hn & Hdp & Htail').
  simpl. rewrite Hd. simpl. rewrite Hp, Hdp. simpl.
  destruct (dir_parent dp) as [pp|] eqn:Hpp.
  - destruct (IH p tail dp pp Htail Hdp Hpp) as (root & mid & Hr & Hm & Hf).
    rewrite Hr, Hf, getPath_loop_path, Hm. simpl.
    exists root, (mid +:+ "/" +:+ getName p +:+ "")%string.
    split; [done|]. split; [done|].
    by rewrite append_nil_r, !append_assoc.
  - exists p, ""%string. rewrite Hn. simpl. rewrite Hdp. simpl. rewrite Hpp.
    split; [done|]. split; [done|]. simpl. rewrite append_assoc. reflexivity.
Qed.

(** Where the chain of parents of a directory ends within [depth] steps,
    the three functions return; the full path of a root is its name and its
    path is a slash; the full path of any other directory is the name of its
    root, then its path, then its name. *)
Theorem getFullPath_is_root_path_name (depth : nat) (this : nat)
    (heap : Cache) (chain : list nat) :
  ancestors depth this heap = Some chain ->
  exists root path full,
    getRoot depth this heap = Some root
    /\ getPath getName depth this heap = Some path
    /\ getFullPath getName depth this heap = Some full
    /\ (root = this -> path = "/"%string /\ full = getName this)
    /\ (root <> this ->
        full = (getName root +:+ path +:+ getName this)%string).
Proof.
  intros H. pose proof H as H'.
  apply ancestors_step in H' as (d & n & -> & Hd & H').
  destruct (dir_parent d) as [p|] eqn:Hp.
  - destruct (getFullPath_below _ _ _ _ _ _ H Hd Hp)
      as (root & mid & Hr & Hm & Hf).
    exists root, (mid +:+ "/")%string,
      (getName root +:+ mid +:+ "/" +:+ getName this)%string.
    split; [done|]. split.
    { unfold getPath. by rewrite getPath_loop_path, Hm. }
    split; [done|]. split.
    + intros ->. exfalso.
      rewrite (getRoot_last _ _ _ _ H) in Hr.
      destruct H' as (tail & Htail & ->).
      destruct (ancestors_head _ _ _ _ Htail) as (t & ->).
      pose proof (ancestors_NoDup _ _ _ _ H) as Hnd.
      apply NoDup_cons in Hnd as [Hnd _]. apply Hnd.
      rewrite last_cons_cons in Hr. by apply last_Some_elem_of.
    + intros _. by rewrite !append_assoc.
  - exists this, "/"%string, (getName this).
    simpl. unfold getPath. simpl. rewrite Hd. simpl. rewrite Hp.
    repeat split; done.
Qed.

End Paths.

(** *** The sizes along the chain of parents *)

Lemma to_qint64_id (z : Z) : is_qint64 z -> to_qint64 z = z.
Proof.
  unfold is_qint64, to_qint64. intros Hz.
  destruct (Z_lt_le_dec z 0) as [Hneg|Hpos].
  - replace (z mod 2 ^ 64)%Z with (z + 2 ^ 64)%Z.
    + destruct (Z.ltb_spec (z + 2 ^ 64)%Z (2 ^ 63)%Z); lia.
    + apply (Z.mod_unique _ _ (-1)); lia.
  - rewrite Z.mod_small by lia.
    destruct (Z.ltb_spec z (2 ^ 63)%Z); lia.
Qed.

Lemma to_qint64_is_qint64 (z : Z) : is_qint64 (to_qint64 z).
Proof.
  unfold is_qint64, to_qint64.
  pose proof (Z.mod_pos_bound z (2 ^ 64)%Z ltac:(lia)).
  destruct (Z.ltb_spec (z mod 2 ^ 64)%Z (2 ^ 63)%Z); lia.
Qed.

Lemma to_qint64_plus_minus (z size : Z) :
  is_qint64 z -> to_qint64 (to_qint64 (z + size) - size)%Z = z.
Proof.
  intros Hz. rewrite <- (to_qint64_id z Hz) at 2.
  unfold to_qint64.
  assert (Hm : (((z + size) mod 2 ^ 64 - size) mod 2 ^ 64 = z mod 2 ^ 64)%Z).
  { rewrite Zminus_mod_idemp_l. f_equal. lia. }
  destruct (Z.ltb_spec ((z + size) mod 2 ^ 64)%Z (2 ^ 63)%Z).
  - by rewrite Hm.
  - replace ((z + size) mod 2 ^ 64 - 2 ^ 64 - size)%Z
      with (((z + size) mod 2 ^ 64 - size) + (-1) * 2 ^ 64)%Z by lia.
    by rewrite Z.mod_add, Hm by lia.
Qed.

Lemma Cache_eq (heap heap' : Cache) :
  (forall d, directories heap' !! d = directories heap !! d) ->
  fileobjects heap' = fileobjects heap -> heap' = heap.
Proof.
  destruct heap, heap'. simpl. intros Hd ->. f_equal. by apply map_eq.
Qed.

(** [operator+=] adds [size] to the size of the directory and of every
    directory above it, wrapping around in [qint64], and changes nothing
    else in the cache; [operator-=] subtracts it likewise; both return when
    the chain of parents ends within [depth] steps. *)
Theorem operators_adjust_the_chain (depth : nat) (this : nat) (size : Z)
    (heap : Cache) (chain : list nat) :
  ancestors depth this heap = Some chain ->
  exists plus minus,
    operator_plus_eq depth this size heap = Some plus
    /\ operator_minus_eq depth this size heap = Some minus
    /\ fileobjects plus = fileobjects heap
    /\ fileobjects minus = fileobjects heap
    /\ forall d,
         match directories heap !! d with
         | None => directories plus !! d = None
                   /\ directories minus !! d = None
         | Some dir =>
             if bool_decide (d ∈ chain) then
               directories plus !! d
               = Some (with_size (to_qint64 (dir_size dir + size)%Z) dir)
               /\ directories minus !! d
                  = Some (with_size (to_qint64 (dir_size dir - size)%Z) dir)
             else directories plus !! d = Some dir
                  /\ directories minus !! d = Some dir
         end.
Proof.
  intros H.
  destruct (operator_plus_eq_chain depth this size heap chain H)
    as (plus & Hplus & Hfp & Hdp).
  destruct (operator_minus_eq_chain depth this size heap chain H)
    as (minus & Hminus & Hfm & Hdm).
  exists plus, minus. repeat split; try done.
  intros d. rewrite Hdp, Hdm. unfold adjusted.
  destruct (directories heap !! d) as [dir|]; [|done]. simpl.
  destruct (bool_decide (d ∈ chain)); done.
Qed.

(** [operator-=] undoes [operator+=]: adding a size along the chain of
    parents and subtracting it again gives the cache back, whatever the
    size, when the sizes on the chain are [qint64] values. *)
Theorem operator_minus_eq_undoes_plus_eq (depth : nat) (this : nat)
    (size : Z) (heap : Cache) (chain : list nat) :
  ancestors depth this heap = Some chain ->
  (forall d dir, d ∈ chain -> directories heap !! d = Some dir ->
                 is_qint64 (dir_size dir)) ->
  operator_plus_eq depth this size heap
    ≫= operator_minus_eq depth this size
  = Some heap.
Proof.
  intros H Hq.
  destruct (operator_plus_eq_chain depth this size heap chain H)
    as (plus & -> & Hfp & Hdp). simpl.
  assert (H' : ancestors depth this plus = Some chain).
  { rewrite <- H. apply ancestors_parents. intros d. rewrite Hdp.
    rewrite <- option_fmap_compose. apply option_fmap_ext.
    intros dir. unfold adjusted. simpl. by destruct (bool_decide _). }
  destruct (operator_minus_eq_chain depth this size plus chain H')
    as (minus & -> & Hfm & Hdm).
  f_equal. apply Cache_eq; [|congruence].
  intros d. rewrite Hdm, Hdp.
  destruct (directories heap !! d) as [dir|] eqn:Hd; [|done]. simpl.
  unfold adjusted. destruct (bool_decide_reflect (d ∈ chain)) as [Hin|Hout];
    [|done].
  simpl. f_equal. destruct dir as [p s l1 l2]. unfold with_size. simpl.
  f_equal. rewrite Z.add_opp_r.
  apply to_qint64_plus_minus. by apply (Hq d _ Hin Hd).
Qed.

(** *** The size of a directory is the size of what it contains *)

Lemma sum_sizes_cons (x : option Z) (l : list (option Z)) :
  sum_sizes (x :: l) = (default 0 x + sum_sizes l)%Z.
Proof. reflexivity. Qed.

Lemma sum_sizes_app (l1 l2 : list (option Z)) :
  sum_sizes (l1 ++ l2) = (sum_sizes l1 + sum_sizes l2)%Z.
Proof.
  induction l1 as [|x l1 IH]; [done|].
  rewrite <- app_comm_cons, !sum_sizes_cons, IH. lia.
Qed.

Lemma sum_sizes_same {A} (f g : A -> option Z) (l : list A) :
  (forall x, x ∈ l -> g x = f x) ->
  sum_sizes (g <$> l) = sum_sizes (f <$> l).
Proof.
  induction l as [|x l IH]; intros H; [done|].
  rewrite !fmap_cons, !sum_sizes_cons, IH, (H x); [done|by left|].
  intros y Hy. apply H. by right.
Qed.

Lemma sum_sizes_one (f g : nat -> option Z) (l : list nat) (c : nat)
    (delta : Z) :
  NoDup l -> c ∈ l -> (forall x, x ∈ l -> x <> c -> g x = f x) ->
  default 0%Z (g c) = (default 0 (f c) + delta)%Z ->
  sum_sizes (g <$> l) = (sum_sizes (f <$> l) + delta)%Z.
Proof.
  intros Hnd Hc Hother Hgc. induction l as [|x l IH]; [by apply elem_of_nil in Hc|].
  apply NoDup_cons in Hnd as [Hx Hnd].
  rewrite !fmap_cons, !sum_sizes_cons.
  destruct (decide (x = c)) as [->|Hne].
  - rewrite Hgc, (sum_sizes_same f g l); [lia|].
    intros y Hy. apply Hother; [by right|]. by intros ->.
  - apply elem_of_cons in Hc as [->|Hc]; [done|].
    rewrite IH, (Hother x); [lia|by left|done|done|done|].
    intros y Hy. apply Hother. by right.
Qed.

Lemma removeOne_sum (f : nat -> option Z) (file : nat) (l : list nat) :
  file ∈ l ->
  sum_sizes (f <$> FM.removeOne file l)
  = (sum_sizes (f <$> l) - default 0 (f file))%Z.
Proof.
  induction l as [|x l IH]; intros Hin; [by apply elem_of_nil in Hin|].
  cbn [FM.removeOne]. destruct (Nat.eqb_spec x file) as [->|Hne].
  - rewrite fmap_cons, sum_sizes_cons. lia.
  - apply elem_of_cons in Hin as [->|Hin]; [done|].
    rewrite !fmap_cons, !sum_sizes_cons, IH by done. lia.
Qed.

Lemma contains_elem_of (x : nat) (l : list nat) :
  contains x l = true <-> x ∈ l.
Proof.
  unfold contains. rewrite existsb_exists. split.
  - intros (y & Hy & Heq). apply Nat.eqb_eq in Heq. subst.
    by apply list_elem_of_In.
  - intros Hin. exists x. split; [by apply list_elem_of_In|].
    apply Nat.eqb_refl.
Qed.

(** The parent and the sub-directories of every directory. *)
Definition shape (heap : Cache) (d : nat) : option (option nat * list nat) :=
  (fun x => (dir_parent x, dir_subDirs x)) <$> directories heap !! d.

Lemma linked_same_shape (heap heap' : Cache) :
  (forall d, shape heap' d = shape heap d) -> linked heap -> linked heap'.
Proof.
  unfold shape. intros Hs [Hl1 Hl2].
  assert (Hshape : forall h1 h2 d dd1,
            (forall d, shape h1 d = shape h2 d) ->
            directories h1 !! d = Some dd1 ->
            exists dd2, directories h2 !! d = Some dd2
                        /\ dir_parent dd1 = dir_parent dd2
                        /\ dir_subDirs dd1 = dir_subDirs dd2).
  { intros h1 h2 d dd1 H Hd. specialize (H d). unfold shape in H.
    rewrite Hd in H. destruct (directories h2 !! d) as [dd2|]; [|done].
    simpl in H. injection H as Hp Hsub. by exists dd2. }
  split.
  - intros q dq' Hq'.
    destruct (Hshape heap' heap q dq' Hs Hq') as (dq & Hq & _ & Hsub).
    rewrite Hsub. destruct (Hl1 q dq Hq) as [Hnd Hin]. split; [done|].
    intros c Hc. destruct (Hin c Hc) as (dc & Hdc & Hp).
    destruct (Hshape heap heap' c dc (fun d => eq_sym (Hs d)) Hdc)
      as (dc' & Hdc' & Hp' & _).
    exists dc'. split; [done|]. congruence.
  - intros c dc' p Hc' Hp'.
    destruct (Hshape heap' heap c dc' Hs Hc') as (dc & Hdc & Hp & _).
    rewrite Hp in Hp'. destruct (Hl2 c dc p Hdc Hp') as (dp & Hdp & Hin).
    destruct (Hshape heap heap' p dp (fun d => eq_sym (Hs d)) Hdp)
      as (dp' & Hdp' & _ & Hsub).
    exists dp'. split; [done|]. by rewrite <- Hsub.
Qed.

Lemma content_size_ext (heap heap' : Cache) (dd : Directory) :
  (forall s, getSize s heap' = getSize s heap) ->
  (forall f, file_getSize f heap' = file_getSize f heap) ->
  content_size dd heap' = content_size dd heap.
Proof.
  intros Hs Hf. unfold content_size. f_equal.
  - apply sum_sizes_same. intros f _. apply Hf.
  - apply sum_sizes_same. intros x _. apply Hs.
Qed.

(** The cache after the list of files of one directory was replaced. *)
Lemma update_files (this : nat) (g : Directory -> Directory)
    (dthis : Directory) (heap : Cache) :
  (forall x, dir_parent (g x) = dir_parent x
             /\ dir_subDirs (g x) = dir_subDirs x
             /\ dir_size (g x) = dir_size x) ->
  directories heap !! this = Some dthis ->
  exists heap',
    update this g heap = Some heap'
    /\ fileobjects heap' = fileobjects heap
    /\ directories heap' !! this = Some (g dthis)
    /\ (forall d, d <> this -> directories heap' !! d = directories heap !! d)
    /\ (forall d, shape heap' d = shape heap d)
    /\ (forall s, getSize s heap' = getSize s heap)
    /\ (forall f, file_getSize f heap' = file_getSize f heap).
Proof.
  intros Hg Hd. unfold update. rewrite Hd. simpl. eexists. split; [done|].
  simpl. split; [done|]. split; [by rewrite lookup_insert_eq|].
  split; [intros d Hne; by rewrite lookup_insert_ne|].
  destruct (Hg dthis) as (Hg1 & Hg2 & Hg3).
  split; [|split; [|done]].
  - intros d. unfold shape. simpl. destruct (decide (this = d)) as [->|Hne].
    + rewrite lookup_insert_eq, Hd. simpl. by rewrite Hg1, Hg2.
    + by rewrite lookup_insert_ne.
  - intros d. unfold getSize. simpl. destruct (decide (this = d)) as [->|Hne].
    + rewrite lookup_insert_eq, Hd. simpl. by rewrite Hg3.
    + by rewrite lookup_insert_ne.
Qed.

Section Adjusted.

Variables (heap heap' : Cache) (depth : nat) (this : nat) (chain : list nat)
  (delta : Z).
Hypothesis Hlinked : linked heap.
Hypothesis Hchain : ancestors depth this heap = Some chain.
Hypothesis Hno : no_overflow chain delta heap.
Hypothesis Hdirs :
  forall d, directories heap' !! d
            = adjusted chain delta d <$> directories heap !! d.
Hypothesis Hfiles : fileobjects heap' = fileobjects heap.

Lemma getSize_adjusted (s : nat) :
  getSize s heap'
  = (fun z => if bool_decide (s ∈ chain) then (z + delta)%Z else z)
      <$> getSize s heap.
Proof.
  unfold getSize. rewrite Hdirs.
  destruct (directories heap !! s) as [ds|] eqn:Hs; [|done]. simpl.
  unfold adjusted. destruct (bool_decide_reflect (s ∈ chain)) as [Hin|Hout];
    [|done].
  simpl. f_equal. apply to_qint64_id. by apply (Hno s).
Qed.

Lemma chain_child_above (d : nat) (dd : Directory) (s : nat) :
  directories heap !! d = Some dd -> s ∈ dir_subDirs dd -> s ∈ chain ->
  exists i, chain !! i = Some s /\ chain !! S i = Some d.
Proof.
  intros Hd Hs Hin. destruct Hlinked as [Hl1 _].
  destruct (Hl1 d dd Hd) as [_ Hsub].
  destruct (Hsub s Hs) as (ds & Hds & Hp).
  apply list_elem_of_lookup_1 in Hin as (i & Hi).
  destruct (ancestors_lookup _ _ _ _ _ _ Hchain Hi) as (ds' & Hds' & Hp').
  exists i. split; [done|]. congruence.
Qed.

Lemma content_size_adjusted (d : nat) (dd : Directory) :
  directories heap !! d = Some dd ->
  content_size dd heap'
  = (content_size dd heap
     + if bool_decide (d ∈ tail chain) then delta else 0)%Z.
Proof.
  intros Hd. unfold content_size.
  assert (Hf : sum_sizes ((fun f => file_getSize f heap') <$> dir_files dd)
               = sum_sizes ((fun f => file_getSize f heap) <$> dir_files dd)).
  { apply sum_sizes_same. intros f _. unfold file_getSize. by rewrite Hfiles. }
  rewrite Hf. pose proof (ancestors_NoDup _ _ _ _ Hchain) as Hnd.
  destruct (ancestors_head _ _ _ _ Hchain) as (t & Ht).
  destruct (bool_decide_reflect (d ∈ tail chain)) as [Hin|Hout].
  - rewrite Ht in Hin. simpl in Hin.
    apply list_elem_of_lookup_1 in Hin as (i & Hi).
    assert (Hi' : chain !! S i = Some d) by (by rewrite Ht).
    destruct (lookup_lt_is_Some_2 chain i) as (c & Hc).
    { apply lookup_lt_Some in Hi'. lia. }
    destruct (ancestors_lookup _ _ _ _ _ _ Hchain Hc) as (dc & Hdc & Hp).
    rewrite Hi' in Hp. destruct Hlinked as [Hl1 Hl2].
    destruct (Hl2 c dc d Hdc Hp) as (dd' & Hdd' & Hcin).
    rewrite Hd in Hdd'. injection Hdd' as <-.
    destruct (Hl1 d dd Hd) as [Hnodup _].
    rewrite (sum_sizes_one (fun s => getSize s heap)
               (fun s => getSize s heap') (dir_subDirs dd) c delta);
      [lia|done|done| |].
    + intros x Hx Hne. rewrite getSize_adjusted.
      destruct (bool_decide_reflect (x ∈ chain)) as [Hxin|Hxout].
      * exfalso. destruct (chain_child_above d dd x Hd Hx Hxin)
          as (j & Hj & Hj').
        assert (S j = S i) by apply (NoDup_lookup chain _ _ d Hnd Hj' Hi').
        assert (j = i) by lia. subst j. congruence.
      * by destruct (getSize x heap).
    + rewrite getSize_adjusted. unfold getSize. rewrite Hdc. simpl.
      rewrite bool_decide_eq_true_2; [done|].
      by eapply list_elem_of_lookup_2.
  - rewrite (sum_sizes_same (fun s => getSize s heap)
               (fun s => getSize s heap') (dir_subDirs dd)); [lia|].
    intros x Hx. rewrite getSize_adjusted.
    destruct (bool_decide_reflect (x ∈ chain)) as [Hxin|Hxout].
    + exfalso. apply Hout.
      destruct (chain_child_above d dd x Hd Hx Hxin) as (j & Hj & Hj').
      rewrite Ht in Hj'. simpl in Hj'. rewrite Ht. simpl.
      by eapply list_elem_of_lookup_2.
    + by destruct (getSize x heap).
Qed.

Lemma adjusted_sizes (d : nat) (dd' : Directory) :
  directories heap' !! d = Some dd' ->
  exists dd,
    directories heap !! d = Some dd
    /\ dir_parent dd' = dir_parent dd
    /\ dir_subDirs dd' = dir_subDirs dd
    /\ dir_files dd' = dir_files dd
    /\ dir_size dd'
       = (dir_size dd + if bool_decide (d ∈ chain) then delta else 0)%Z
    /\ content_size dd' heap'
       = (content_size dd heap
          + if bool_decide (d ∈ tail chain) then delta else 0)%Z.
Proof.
  rewrite Hdirs. destruct (directories heap !! d) as [dd|] eqn:Hd; [|done].
  simpl. intros [= <-]. exists dd. split; [done|].
  rewrite <- (content_size_adjusted d dd Hd). unfold adjusted.
  destruct (bool_decide_reflect (d ∈ chain)) as [Hin|Hout]; simpl.
  - repeat split; try done. apply to_qint64_id. by apply (Hno d).
  - repeat split; try done. lia.
Qed.

Lemma linked_adjusted : linked heap'.
Proof.
  apply (linked_same_shape heap); [|done].
  intros d. unfold shape. rewrite Hdirs.
  destruct (directories heap !! d) as [dd|]; [|done]. simpl.
  unfold adjusted. by destruct (bool_decide _).
Qed.

Lemma ancestors_adjusted : ancestors depth this heap' = Some chain.
Proof.
  rewrite <- Hchain. apply ancestors_parents. intros d. rewrite Hdirs.
  rewrite <- option_fmap_compose. apply option_fmap_ext.
  intros dir. unfold adjusted. simpl. by destruct (bool_decide _).
Qed.

End Adjusted.

(** Every directory has the size of what it contains. *)
Definition sizes_consistent (heap : Cache) : Prop :=
  forall d, aggregated d heap.

Lemma no_overflow_same_sizes (chain : list nat) (delta : Z)
    (heap heap' : Cache) :
  (forall s, getSize s heap' = getSize s heap) ->
  no_overflow chain delta heap -> no_overflow chain delta heap'.
Proof.
  intros Hs Hno d dd' Hin Hd'. specialize (Hs d). unfold getSize in Hs.
  rewrite Hd' in Hs. destruct (directories heap !! d) as [dd|] eqn:Hd; [|done].
  simpl in Hs. injection Hs as ->. by apply (Hno d dd).
Qed.

Lemma ancestors_same_shape (depth : nat) (this : nat) (heap heap' : Cache) :
  (forall d, shape heap' d = shape heap d) ->
  ancestors depth this heap' = ancestors depth this heap.
Proof.
  intros Hs. apply ancestors_parents. intros d. specialize (Hs d).
  unfold shape in Hs.
  destruct (directories heap' !! d), (directories heap !! d); simpl in *;
    [|done..].
  injection Hs as -> _. done.
Qed.

(** [addFile] keeps the sizes right: in a cache whose lists of
    sub-directories agree with the parent pointers and where every
    directory has the size of what it contains, adding a file to a
    directory (whose chain of parents ends within [depth] steps, and no size
    overflows) returns a cache with the same two properties, where the
    directory lists the file; a file the directory lists already is not
    counted again: the cache is returned as it is. *)
Theorem addFile_keeps_sizes (depth : nat) (this file : nat) (heap : Cache)
    (chain : list nat) (f : File) :
  linked heap -> sizes_consistent heap ->
  ancestors depth this heap = Some chain ->
  fileobjects heap !! file = Some f ->
  no_overflow chain (file_size f) heap ->
  exists heap',
    addFile depth this file heap = Some heap'
    /\ linked heap' /\ sizes_consistent heap'
    /\ fileobjects heap' = fileobjects heap
    /\ (forall dthis dthis',
          directories heap !! this = Some dthis ->
          directories heap' !! this = Some dthis' ->
          if contains file (dir_files dthis)
          then heap' = heap
          else dir_files dthis' = dir_files dthis ++ [file]
               /\ dir_size dthis' = (dir_size dthis + file_size f)%Z).
Proof.
  intros Hlinked Hcons Hchain Hfile Hno.
  pose proof (ancestors_NoDup _ _ _ _ Hchain) as Hnd.
  destruct (ancestors_head _ _ _ _ Hchain) as (t & Ht).
  pose proof Hchain as Hstep.
  apply ancestors_step in Hstep as (dthis & n & _ & Hthis & _).
  unfold addFile. rewrite Hthis. simpl.
  destruct (contains file (dir_files dthis)) eqn:Hcontains.
  { exists heap. split; [done|]. split; [done|]. split; [done|].
    split; [done|].
    intros d1 d2 H1 H2. rewrite ?Hthis in H1. injection H1 as <-.
    by rewrite Hcontains. }
  destruct (update_files this
              (fun d => with_files (dir_files d ++ [file]) d) dthis heap)
    as (heap_a & -> & Hfa & Hthis_a & Hother_a & Hshape_a & Hsize_a & Hfsize_a);
    [done|done|].
  simpl. unfold file_getSize at 1. rewrite Hfa, Hfile. simpl.
  assert (Hlinked_a : linked heap_a) by (by apply (linked_same_shape heap)).
  assert (Hchain_a : ancestors depth this heap_a = Some chain)
    by (by rewrite (ancestors_same_shape _ _ heap)).
  assert (Hno_a : no_overflow chain (file_size f) heap_a)
    by (by apply (no_overflow_same_sizes _ _ heap)).
  destruct (operator_plus_eq_chain depth this (file_size f) heap_a chain
              Hchain_a) as (heap' & -> & Hf' & Hd').
  exists heap'. split; [done|]. split.
  { by apply (linked_adjusted heap_a heap' chain (file_size f)). }
  assert (Hthis_in : this ∈ chain) by (rewrite Ht; by left).
  assert (Hthis_out : this ∉ tail chain).
  { rewrite Ht in Hnd |- *. simpl. by apply NoDup_cons in Hnd as [? _]. }
  split; [|split; [congruence|]].
  - intros d dd' Hdd'.
    destruct (adjusted_sizes heap_a heap' depth this chain (file_size f)
                Hlinked_a Hchain_a Hno_a Hd' Hf' d dd' Hdd')
      as (dd_a & Hdd_a & _ & _ & _ & -> & ->).
    destruct (decide (d = this)) as [->|Hne].
    + rewrite Hthis_a in Hdd_a. injection Hdd_a as <-.
      rewrite bool_decide_eq_true_2, bool_decide_eq_false_2 by done.
      specialize (Hcons this dthis Hthis).
      rewrite (content_size_ext heap heap_a) by done.
      unfold content_size in *. simpl.
      rewrite fmap_app, sum_sizes_app. simpl.
      unfold file_getSize at 2. rewrite Hfile. simpl. lia.
    + rewrite Hother_a in Hdd_a by done.
      specialize (Hcons d dd_a Hdd_a).
      rewrite (content_size_ext heap heap_a) by done.
      destruct (bool_decide_reflect (d ∈ chain)) as [Hin|Hout].
      * rewrite bool_decide_eq_true_2; [lia|].
        rewrite Ht in Hin |- *. simpl.
        apply elem_of_cons in Hin as [?|?]; done.
      * rewrite bool_decide_eq_false_2; [lia|].
        intros Hin. apply Hout. rewrite Ht in Hin |- *. by right.
  - intros d1 d2 H1 H2. rewrite ?Hthis in H1. injection H1 as <-.
    rewrite Hcontains.
    destruct (adjusted_sizes heap_a heap' depth this chain (file_size f)
                Hlinked_a Hchain_a Hno_a Hd' Hf' this d2 H2)
      as (dd_a & Hdd_a & _ & _ & -> & -> & _).
    rewrite Hthis_a in Hdd_a. injection Hdd_a as <-.
    by rewrite bool_decide_eq_true_2.
Qed.

(** [fileDeleted] keeps the sizes right: in a cache as above, deleting a
    file that the directory lists (the chain of parents ends within [depth]
    steps, and no size overflows) returns a cache with the same two
    properties, where the first occurrence of the file is gone from the list
    of the directory and the size of the file is gone from its size. *)
Theorem fileDeleted_keeps_sizes (depth : nat) (this file : nat) (heap : Cache)
    (chain : list nat) (f : File) (dthis : Directory) :
  linked heap -> sizes_consistent heap ->
  ancestors depth this heap = Some chain ->
  fileobjects heap !! file = Some f ->
  directories heap !! this = Some dthis ->
  file ∈ dir_files dthis ->
  no_overflow chain (- file_size f) heap ->
  exists heap' dthis',
    fileDeleted depth this file heap = Some heap'
    /\ linked heap' /\ sizes_consistent heap'
    /\ fileobjects heap' = fileobjects heap
    /\ directories heap' !! this = Some dthis'
    /\ dir_files dthis' = FM.removeOne file (dir_files dthis)
    /\ dir_size dthis' = (dir_size dthis - file_size f)%Z.
Proof.
  intros Hlinked Hcons Hchain Hfile Hthis Hin Hno.
  pose proof (ancestors_NoDup _ _ _ _ Hchain) as Hnd.
  destruct (ancestors_head _ _ _ _ Hchain) as (t & Ht).
  assert (Hthis_in : this ∈ chain) by (rewrite Ht; by left).
  assert (Hthis_out : this ∉ tail chain).
  { rewrite Ht in Hnd |- *. simpl. by apply NoDup_cons in Hnd as [? _]. }
  unfold fileDeleted. unfold file_getSize at 1. rewrite Hfile. simpl.
  destruct (operator_minus_eq_chain depth this (file_size f) heap chain
              Hchain) as (heap_m & -> & Hfm & Hdm).
  simpl.
  assert (Hlinked_m : linked heap_m)
    by (by apply (linked_adjusted heap heap_m chain (- file_size f))).
  assert (Hthis_m : exists dthis_m, directories heap_m !! this = Some dthis_m).
  { rewrite Hdm, Hthis. by eexists. }
  destruct Hthis_m as (dthis_m & Hthis_m).
  destruct (adjusted_sizes heap heap_m depth this chain (- file_size f)
              Hlinked Hchain Hno Hdm Hfm this dthis_m Hthis_m)
    as (dthis0 & Hthis0 & _ & Hsub_m & Hfiles_m & Hsize_m & Hcontent_m).
  rewrite Hthis in Hthis0. injection Hthis0 as <-.
  rewrite bool_decide_eq_true_2 in Hsize_m by done.
  rewrite bool_decide_eq_false_2 in Hcontent_m by done.
  destruct (update_files this
              (fun d => with_files (FM.removeOne file (dir_files d)) d)
              dthis_m heap_m)
    as (heap' & -> & Hf' & Hthis' & Hother' & Hshape' & Hsize' & Hfsize');
    [done|done|].
  eexists heap', _. split; [done|]. split.
  { by apply (linked_same_shape heap_m). }
  split; [|split; [congruence|split; [done|split]]].
  - intros d dd' Hdd'.
    rewrite (content_size_ext heap_m heap') by done.
    destruct (decide (d = this)) as [->|Hne].
    + rewrite Hthis' in Hdd'. injection Hdd' as <-. simpl.
      rewrite Hsize_m. specialize (Hcons this dthis Hthis).
      unfold content_size in *. simpl. rewrite Hfiles_m.
      rewrite removeOne_sum by done.
      unfold file_getSize at 2. rewrite Hfm, Hfile. simpl.
      rewrite Hsub_m, Hfiles_m in Hcontent_m. rewrite Hsub_m. lia.
    + rewrite Hother' in Hdd' by done.
      destruct (adjusted_sizes heap heap_m depth this chain (- file_size f)
                  Hlinked Hchain Hno Hdm Hfm d dd' Hdd')
        as (dd & Hdd & _ & _ & _ & -> & ->).
      specialize (Hcons d dd Hdd).
      destruct (bool_decide_reflect (d ∈ chain)) as [Hd|Hd].
      * rewrite bool_decide_eq_true_2; [lia|].
        rewrite Ht in Hd |- *. simpl.
        apply elem_of_cons in Hd as [?|?]; done.
      * rewrite bool_decide_eq_false_2; [lia|].
        intros Hd'. apply Hd. rewrite Ht in Hd' |- *. by right.
  - simpl. by rewrite Hfiles_m.
  - simpl. rewrite Hsize_m. lia.
Qed.

Lemma removeOne_snoc (file : nat) (l : list nat) :
  file ∉ l -> FM.removeOne file (l ++ [file]) = l.
Proof.
  induction l as [|x l IH]; intros Hout; simpl.
  - by rewrite Nat.eqb_refl.
  - apply not_elem_of_cons in Hout as [Hne Hout].
    destruct (Nat.eqb_spec x file) as [->|_]; [done|]. by rewrite IH.
Qed.

(** [fileDeleted] undoes [addFile]: adding to a directory a file it does
    not list and deleting it again gives the cache back, when the sizes on
    the chain of parents are [qint64] values. *)
Theorem fileDeleted_undoes_addFile (depth : nat) (this file : nat)
    (heap : Cache) (chain : list nat) (f : File) (dthis : Directory) :
  ancestors depth this heap = Some chain ->
  fileobjects heap !! file = Some f ->
  directories heap !! this = Some dthis ->
  file ∉ dir_files dthis ->
  (forall d dir, d ∈ chain -> directories heap !! d = Some dir ->
                 is_qint64 (dir_size dir)) ->
  addFile depth this file heap ≫= fileDeleted depth this file = Some heap.
Proof.
  intros Hchain Hfile Hthis Hout Hq.
  destruct (ancestors_head _ _ _ _ Hchain) as (t & Ht).
  assert (Hthis_in : this ∈ chain) by (rewrite Ht; by left).
  unfold addFile. rewrite Hthis. simpl.
  destruct (contains file (dir_files dthis)) eqn:Hcontains.
  { by apply contains_elem_of in Hcontains. }
  destruct (update_files this
              (fun d => with_files (dir_files d ++ [file]) d) dthis heap)
    as (heap_a & -> & Hfa & Hthis_a & Hother_a & Hshape_a & _ & _);
    [done|done|].
  simpl. unfold file_getSize at 1. rewrite Hfa, Hfile. simpl.
  assert (Hchain_a : ancestors depth this heap_a = Some chain)
    by (by rewrite (ancestors_same_shape _ _ heap)).
  destruct (operator_plus_eq_chain depth this (file_size f) heap_a chain
              Hchain_a) as (heap_p & -> & Hfp & Hdp).
  simpl. unfold fileDeleted. unfold file_getSize at 1.
  rewrite Hfp, Hfa, Hfile. simpl.
  assert (Hchain_p : ancestors depth this heap_p = Some chain).
  { rewrite <- Hchain_a. apply ancestors_parents. intros d. rewrite Hdp.
    rewrite <- option_fmap_compose. apply option_fmap_ext.
    intros dir. unfold adjusted. simpl. by destruct (bool_decide _). }
  destruct (operator_minus_eq_chain depth this (file_size f) heap_p chain
              Hchain_p) as (heap_m & -> & Hfm & Hdm).
  simpl.
  assert (Hthis_m : exists dthis_m, directories heap_m !! this = Some dthis_m).
  { rewrite Hdm, Hdp, Hthis_a. by eexists. }
  destruct Hthis_m as (dthis_m & Hthis_m).
  destruct (update_files this
              (fun d => with_files (FM.removeOne file (dir_files d)) d)
              dthis_m heap_m)
    as (heap' & -> & Hf' & Hthis' & Hother' & _); [done|done|].
  f_equal. apply Cache_eq; [|congruence].
  intros d. destruct (decide (d = this)) as [->|Hne].
  - rewrite Hthis', Hthis. f_equal.
    rewrite Hdm, Hdp, Hthis_a in Hthis_m. simpl in Hthis_m.
    injection Hthis_m as <-. unfold adjusted.
    rewrite !bool_decide_eq_true_2 by done.
    destruct dthis as [p z l1 l2]. unfold with_files, with_size. simpl in *.
    f_equal.
    + rewrite Z.add_opp_r. apply to_qint64_plus_minus.
      by apply (Hq this _ Hthis_in Hthis).
    + by apply removeOne_snoc.
  - rewrite Hother', Hdm, Hdp, Hother_a by done.
    destruct (directories heap !! d) as [dir|] eqn:Hd; [|done]. simpl.
    f_equal. unfold adjusted.
    destruct (bool_decide_reflect (d ∈ chain)) as [Hin|Hnot]; [|done].
    destruct dir as [p z l1 l2]. unfold with_size. simpl. f_equal.
    rewrite Z.add_opp_r. apply to_qint64_plus_minus.
    by apply (Hq d _ Hin Hd).
Qed.

(** [fileSizeChanged] keeps the sizes right: when the size of a file, which
    one directory lists once and no other directory lists, has changed in a
    cache as above, [fileSizeChanged(oldSize, newSize)] on that directory
    returns a cache where, again, every directory has the size of what it
    contains (the chain of parents ends within [depth] steps, the difference
    is a [qint64] and no size overflows). *)
Theorem fileSizeChanged_keeps_sizes (depth : nat) (this file : nat)
    (old heap : Cache) (chain : list nat) (f : File) (dthis : Directory)
    (newSize : Z) :
  linked old -> sizes_consistent old ->
  ancestors depth this old = Some chain ->
  fileobjects old !! file = Some f ->
  directories old !! this = Some dthis ->
  file ∈ dir_files dthis -> NoDup (dir_files dthis) ->
  (forall d dd, directories old !! d = Some dd -> file ∈ dir_files dd ->
                d = this) ->
  directories heap = directories old ->
  fileobjects heap = <[file := mkFile (file_dir f) newSize]> (fileobjects old) ->
  is_qint64 (newSize - file_size f) ->
  no_overflow chain (newSize - file_size f) old ->
  exists heap' dthis',
    fileSizeChanged depth this (file_size f) newSize heap = Some heap'
    /\ linked heap' /\ sizes_consistent heap'
    /\ fileobjects heap' = fileobjects heap
    /\ directories heap' !! this = Some dthis'
    /\ dir_size dthis' = (dir_size dthis + (newSize - file_size f))%Z.
Proof.
  intros Hlinked0 Hcons Hchain0 Hfile Hthis0 Hin Hnodup Honly Hdirs Hfiles
    Hdelta Hno0.
  assert (Hshape : forall d, shape heap d = shape old d)
    by (intros d; unfold shape; by rewrite Hdirs).
  assert (Hlinked : linked heap) by (by apply (linked_same_shape old)).
  assert (Hchain : ancestors depth this heap = Some chain)
    by (by rewrite (ancestors_same_shape _ _ old)).
  assert (Hsizes : forall s, getSize s heap = getSize s old)
    by (intros x; unfold getSize; by rewrite Hdirs).
  assert (Hno : no_overflow chain (newSize - file_size f) heap)
    by (by apply (no_overflow_same_sizes _ _ old)).
  assert (Hthis : directories heap !! this = Some dthis) by (by rewrite Hdirs).
  pose proof (ancestors_NoDup _ _ _ _ Hchain) as Hnd.
  destruct (ancestors_head _ _ _ _ Hchain) as (t & Ht).
  assert (Hthis_in : this ∈ chain) by (rewrite Ht; by left).
  assert (Hthis_out : this ∉ tail chain).
  { rewrite Ht in Hnd |- *. simpl. by apply NoDup_cons in Hnd as [? _]. }
  unfold fileSizeChanged. rewrite (to_qint64_id _ Hdelta).
  destruct (operator_plus_eq_chain depth this (newSize - file_size f) heap
              chain Hchain) as (heap' & -> & Hf' & Hd').
  assert (Hthis' : exists dthis', directories heap' !! this = Some dthis').
  { rewrite Hd', Hthis. by eexists. }
  destruct Hthis' as (dthis' & Hthis').
  exists heap', dthis'. split; [done|]. split.
  { by apply (linked_adjusted heap heap' chain (newSize - file_size f)). }
  assert (Hcontent : forall d dd, directories old !! d = Some dd ->
            content_size dd heap
            = (content_size dd old
               + if decide (d = this) then newSize - file_size f else 0)%Z).
  { intros d dd Hdd. unfold content_size.
    rewrite (sum_sizes_same (fun s => getSize s old)
               (fun s => getSize s heap) (dir_subDirs dd))
      by (intros; apply Hsizes).
    assert (Hother : forall x, x <> file ->
              file_getSize x heap = file_getSize x old).
    { intros x Hx. unfold file_getSize. rewrite Hfiles.
      by rewrite lookup_insert_ne. }
    destruct (decide (d = this)) as [->|Hne].
    - rewrite Hthis0 in Hdd. injection Hdd as <-.
      rewrite (sum_sizes_one (fun x => file_getSize x old)
                 (fun x => file_getSize x heap) (dir_files dthis) file
                 (newSize - file_size f)); [lia|done|done| |].
      + intros x _ Hx. by apply Hother.
      + unfold file_getSize. rewrite Hfiles, lookup_insert_eq, Hfile.
        simpl. lia.
    - rewrite (sum_sizes_same (fun x => file_getSize x old)
                 (fun x => file_getSize x heap) (dir_files dd)); [lia|].
      intros x Hx. apply Hother. intros ->. apply Hne.
      by apply (Honly d dd). }
  split; [|split; [done|split; [done|]]].
  - intros d dd' Hdd'.
    destruct (adjusted_sizes heap heap' depth this chain
                (newSize - file_size f) Hlinked Hchain Hno Hd' Hf' d dd' Hdd')
      as (dd & Hdd & _ & _ & _ & -> & ->).
    rewrite Hdirs in Hdd. rewrite (Hcontent d dd Hdd).
    specialize (Hcons d dd Hdd).
    destruct (decide (d = this)) as [->|Hne].
    + rewrite bool_decide_eq_true_2, bool_decide_eq_false_2 by done. lia.
    + destruct (bool_decide_reflect (d ∈ chain)) as [Hd|Hd].
      * rewrite bool_decide_eq_true_2; [lia|].
        rewrite Ht in Hd |- *. simpl.
        apply elem_of_cons in Hd as [?|?]; done.
      * rewrite bool_decide_eq_false_2; [lia|].
        intros Hd0. apply Hd. rewrite Ht in Hd0 |- *. by right.
  - destruct (adjusted_sizes heap heap' depth this chain
                (newSize - file_size f) Hlinked Hchain Hno Hd' Hf' this dthis'
                Hthis')
      as (dd & Hdd & _ & _ & _ & -> & _).
    rewrite Hthis in Hdd. injection Hdd as <-.
    by rewrite bool_decide_eq_true_2.
Qed.

(** *** Sub-directories by name *)

Section SubDirectories.

Variable getName : nat -> string.

Lemma getSubDir_loop_Some (name : string) (l : list nat) (d : nat) :
  getSubDir_loop getName name l = Some d ->
  exists l1 l2, l = l1 ++ d :: l2 /\ getName d = name
                /\ Forall (fun x => getName x <> name) l1.
Proof.
  induction l as [|x l IH]; [done|]. simpl.
  destruct (String.eqb_spec (getName x) name) as [Heq|Hne].
  - intros [= <-]. by exists [], l.
  - intros H. destruct (IH H) as (l1 & l2 & -> & Hd & Hl1).
    exists (x :: l1), l2. repeat split; [done|]. by constructor.
Qed.

Lemma getSubDir_loop_None (name : string) (l : list nat) :
  getSubDir_loop getName name l = None
  <-> Forall (fun x => getName x <> name) l.
Proof.
  induction l as [|x l IH]; simpl; [done|].
  destruct (String.eqb_spec (getName x) name) as [Heq|Hne].
  - split; [done|]. intros [? _]%Forall_cons. done.
  - rewrite IH. split; [by constructor|]. by intros [_ ?]%Forall_cons.
Qed.

Lemma getSubDir_loop_ext (getName' : nat -> string) (name : string)
    (l : list nat) :
  (forall x, x ∈ l -> getName' x = getName x) ->
  getSubDir_loop getName' name l = getSubDir_loop getName name l.
Proof.
  induction l as [|x l IH]; intros H; simpl; [done|].
  rewrite (H x) by (by left). rewrite IH; [done|].
  intros y Hy. apply H. by right.
Qed.

Lemma getSubDir_loop_snoc (getName' : nat -> string) (name : string)
    (l : list nat) (fresh : nat) :
  Forall (fun x => getName' x <> name) l -> getName' fresh = name ->
  getSubDir_loop getName' name (l ++ [fresh]) = Some fresh.
Proof.
  intros Hl Hfresh. induction Hl as [|x l Hx Hl IH]; simpl.
  - by rewrite Hfresh, String.eqb_refl.
  - by destruct (String.eqb_spec (getName' x) name).
Qed.

(** [createSubDirectory] returns a sub-directory with the name, which
    [getSubDir] finds from then on, and a second call returns the same
    directory and changes nothing.  When the directory has a sub-directory
    with the name it is returned and the cache is left as it is; otherwise
    the new directory is appended to the sub-directories, with the
    directory as parent, the size 0 and no content.  The lists of
    sub-directories still agree with the parent pointers, the names of the
    sub-directories are distinct if they were, and every directory has the
    size of what it contains if it had. *)
Theorem createSubDirectory_finds_or_creates (fresh this : nat)
    (name : string) (heap : Cache) (dthis : Directory) :
  linked heap ->
  directories heap !! this = Some dthis ->
  directories heap !! fresh = None ->
  exists subDir getName' heap' dthis',
    createSubDirectory getName fresh this name heap
    = Some (subDir, getName', heap')
    /\ directories heap' !! this = Some dthis'
    /\ subDir ∈ dir_subDirs dthis'
    /\ getName' subDir = name
    /\ getSubDir getName' this name heap' = Some (Some subDir)
    /\ (forall fresh',
          createSubDirectory getName' fresh' this name heap'
          = Some (subDir, getName', heap'))
    /\ (forall d, getSubDir getName this name heap = Some (Some d) ->
                  subDir = d /\ heap' = heap /\ getName' = getName)
    /\ (getSubDir getName this name heap = Some None ->
        subDir = fresh
        /\ dir_subDirs dthis' = dir_subDirs dthis ++ [fresh]
        /\ directories heap' !! fresh
           = Some (mkDirectory (Some this) 0 [] []))
    /\ linked heap'
    /\ (NoDup (getName <$> dir_subDirs dthis) ->
        NoDup (getName' <$> dir_subDirs dthis'))
    /\ (sizes_consistent heap -> sizes_consistent heap').
Proof.
  intros Hlinked Hthis Hfresh.
  assert (Hne : fresh <> this) by (intros ->; congruence).
  unfold createSubDirectory, getSubDir. rewrite Hthis. simpl.
  destruct (getSubDir_loop getName name (dir_subDirs dthis)) as [d|] eqn:Hloop.
  - exists d, getName, heap, dthis.
    destruct (getSubDir_loop_Some _ _ _ Hloop) as (l1 & l2 & Hl & Hd & _).
    split; [done|]. split; [done|]. split.
    { rewrite Hl. apply elem_of_app. right. by left. }
    split; [done|]. rewrite Hthis. simpl. rewrite Hloop. simpl.
    split; [done|]. split.
    { intros fresh'. simpl. by rewrite ?Hloop. }
    split; [by intros d' [= <-]|]. split; [done|]. done.
  - apply getSubDir_loop_None in Hloop.
    set (getName' := fun d => if Nat.eqb d fresh then name else getName d).
    assert (Hfresh_out : fresh ∉ dir_subDirs dthis).
    { intros Hin. destruct Hlinked as [Hl1 _].
      destruct (Hl1 this dthis Hthis) as [_ Hsub].
      destruct (Hsub fresh Hin) as (dc & Hdc & _). congruence. }
    unfold new_Directory, append, update. simpl.
    rewrite lookup_insert_ne, Hthis by done. simpl.
    set (dthis' := with_subDirs (dir_subDirs dthis ++ [fresh]) dthis).
    set (heap' := set_directories _ _).
    assert (Hthis' : directories heap' !! this = Some dthis').
    { subst heap'. simpl. by rewrite lookup_insert_eq. }
    assert (Hfresh' : directories heap' !! fresh
                      = Some (mkDirectory (Some this) 0 [] [])).
    { subst heap'. simpl. rewrite lookup_insert_ne by done.
      by rewrite lookup_insert_eq. }
    assert (Hother : forall d, d <> this -> d <> fresh ->
              directories heap' !! d = directories heap !! d).
    { intros d H1 H2. subst heap'. simpl.
      by rewrite !lookup_insert_ne by done. }
    assert (Hnames : forall x, x <> fresh -> getName' x = getName x).
    { intros x Hx. subst getName'. simpl.
      by destruct (Nat.eqb_spec x fresh). }
    assert (Hname_fresh : getName' fresh = name).
    { subst getName'. simpl. by rewrite Nat.eqb_refl. }
    assert (Hfo : fileobjects heap' = fileobjects heap) by done.
    assert (Hsub' : dir_subDirs dthis' = dir_subDirs dthis ++ [fresh])
      by done.
    assert (Hfiles' : dir_files dthis' = dir_files dthis) by done.
    assert (Hsize' : dir_size dthis' = dir_size dthis) by done.
    assert (Hparent' : dir_parent dthis' = dir_parent dthis) by done.
    assert (Hfound : getSubDir_loop getName' name (dir_subDirs dthis')
                     = Some fresh).
    { rewrite Hsub'. apply getSubDir_loop_snoc; [|done].
      rewrite Forall_forall in Hloop |- *. intros x Hx.
      rewrite Hnames; [by apply Hloop|]. by intros ->. }
    exists fresh, getName', heap', dthis'.
    split; [done|]. clearbody heap' dthis' getName'.
    split; [done|]. split.
    { rewrite Hsub'. apply elem_of_app. right. by left. }
    split; [done|]. split.
    { rewrite Hthis'. simpl. by rewrite Hfound. }
    split.
    { intros fresh'. rewrite Hthis'. simpl. by rewrite Hfound. }
    split; [done|]. split; [done|].
    split; [|split].
    + destruct Hlinked as [Hl1 Hl2]. split.
      * intros q dq' Hq'. destruct (decide (q = this)) as [->|Hq1].
        { rewrite Hthis' in Hq'. injection Hq' as <-. rewrite Hsub'.
          destruct (Hl1 this dthis Hthis) as [Hnd Hsub]. split.
          - apply NoDup_app. split; [done|]. split.
            + intros x Hx ->%list_elem_of_singleton. done.
            + apply NoDup_singleton.
          - intros c [Hc|Hc]%elem_of_app.
            + destruct (Hsub c Hc) as (dc & Hdc & Hp).
              destruct (decide (c = this)) as [->|Hc1].
              * rewrite Hthis in Hdc. injection Hdc as <-.
                exists dthis'. split; [done|]. congruence.
              * exists dc. split; [|done]. rewrite Hother; [done|done|].
                intros ->. congruence.
            + apply list_elem_of_singleton in Hc as ->. by eexists. }
        destruct (decide (q = fresh)) as [->|Hq2].
        { rewrite Hfresh' in Hq'. injection Hq' as <-. simpl.
          split; [apply NoDup_nil_2|]. by intros c ?%elem_of_nil. }
        rewrite Hother in Hq' by done.
        destruct (Hl1 q dq' Hq') as [Hnd Hsub]. split; [done|].
        intros c Hc. destruct (Hsub c Hc) as (dc & Hdc & Hp).
        destruct (decide (c = this)) as [->|Hc1].
        { rewrite Hthis in Hdc. injection Hdc as <-.
          exists dthis'. split; [done|]. congruence. }
        exists dc. split; [|done]. rewrite Hother; [done|done|].
        intros ->. congruence.
      * intros c dc' p Hc' Hp'. destruct (decide (c = fresh)) as [->|Hc2].
        { rewrite Hfresh' in Hc'. injection Hc' as <-. simpl in Hp'.
          injection Hp' as <-. exists dthis'. split; [done|].
          rewrite Hsub'. apply elem_of_app. right. by left. }
        assert (Hc : exists dc, directories heap !! c = Some dc
                                /\ dir_parent dc = Some p).
        { destruct (decide (c = this)) as [->|Hc1].
          - rewrite Hthis' in Hc'. injection Hc' as <-. exists dthis.
            split; [done|]. congruence.
          - rewrite Hother in Hc' by done. by exists dc'. }
        destruct Hc as (dc & Hdc & Hp).
        destruct (Hl2 c dc p Hdc Hp) as (dp & Hdp & Hin).
        destruct (decide (p = this)) as [->|Hp1].
        { rewrite Hthis in Hdp. injection Hdp as <-. exists dthis'.
          split; [done|]. rewrite Hsub'. apply elem_of_app. by left. }
        exists dp. split; [|done]. rewrite Hother; [done|done|].
        intros ->. congruence.
    + intros Hnd. rewrite Hsub', fmap_app. simpl.
      rewrite Hname_fresh.
      assert (Heq : getName' <$> dir_subDirs dthis
                    = getName <$> dir_subDirs dthis).
      { apply list_fmap_ext. intros i x Hx. apply Hnames. intros ->.
        apply Hfresh_out. by eapply list_elem_of_lookup_2. }
      rewrite Heq. apply NoDup_app. split; [done|]. split.
      * intros x Hx ->%list_elem_of_singleton.
        apply list_elem_of_fmap in Hx as (y & Hy & Hin).
        rewrite Forall_forall in Hloop. by apply (Hloop y).
      * apply NoDup_singleton.
    + intros Hcons.
      assert (Hsizes : forall x, default 0%Z (getSize x heap')
                                 = default 0%Z (getSize x heap)).
      { intros x. unfold getSize. destruct (decide (x = this)) as [->|H1].
        - rewrite Hthis', Hthis. simpl. congruence.
        - destruct (decide (x = fresh)) as [->|H2].
          + by rewrite Hfresh', Hfresh.
          + by rewrite Hother. }
      assert (Hsum : forall l, sum_sizes ((fun x => getSize x heap') <$> l)
                               = sum_sizes ((fun x => getSize x heap) <$> l)).
      { induction l as [|x l IH]; [done|].
        by rewrite !fmap_cons, !sum_sizes_cons, IH, Hsizes. }
      assert (Hcontent : forall dd, content_size dd heap'
                                    = content_size dd heap).
      { intros dd. unfold content_size, file_getSize. by rewrite Hsum, Hfo. }
      intros d dd' Hdd'. rewrite Hcontent.
      destruct (decide (d = this)) as [->|H1].
      { rewrite Hthis' in Hdd'. injection Hdd' as <-.
        specialize (Hcons this dthis Hthis).
        unfold content_size in *. rewrite Hsub', Hfiles', Hsize'.
        rewrite fmap_app, sum_sizes_app.
        change ((fun x => getSize x heap) <$> [fresh])
          with [getSize fresh heap].
        rewrite sum_sizes_cons. unfold getSize at 2. rewrite Hfresh.
        change (sum_sizes []) with 0%Z. simpl. lia. }
      destruct (decide (d = fresh)) as [->|H2].
      { rewrite Hfresh' in Hdd'. by injection Hdd' as <-. }
      rewrite Hother in Hdd' by done. by apply (Hcons d).
Qed.

End SubDirectories.

(** *** DirIterator *)

Lemma NoDup_length_size (l : list nat) (m : gmap nat Directory) :
  NoDup l -> (forall x, x ∈ l -> is_Some (m !! x)) -> length l <= size m.
Proof.
  intros Hnd Hin.
  rewrite <- (size_list_to_set (C := gset nat) l Hnd), <- (size_dom m).
  apply subseteq_size. intros x Hx. apply elem_of_list_to_set in Hx.
  apply elem_of_dom. by apply Hin.
Qed.

Section Iterator.

Variables (heap : Cache) (depth : nat) (dir : nat).
Hypothesis Hlinked : linked heap.
Hypothesis Hbounded :
  forall d dd, directories heap !! d = Some dd ->
               is_Some (ancestors depth d heap).

(** [q] is above [x]. *)
Definition below (x q : nat) : Prop :=
  exists chain, ancestors depth x heap = Some chain /\ q ∈ tail chain.

Lemma below_irrefl (x : nat) : ~ below x x.
Proof.
  intros (chain & Hc & Hin).
  pose proof (ancestors_NoDup _ _ _ _ Hc) as Hnd.
  destruct (ancestors_head _ _ _ _ Hc) as (t & ->).
  by apply NoDup_cons in Hnd as [? _].
Qed.

Lemma below_child (q : nat) (dq : Directory) (c : nat) :
  directories heap !! q = Some dq -> c ∈ dir_subDirs dq ->
  below c q /\ forall y, below q y -> below c y.
Proof.
  intros Hq Hc. destruct Hlinked as [Hl1 _].
  destruct (Hl1 q dq Hq) as [_ Hsub].
  destruct (Hsub c Hc) as (dc & Hdc & Hp).
  destruct (Hbounded c dc Hdc) as (chain & Hchain).
  pose proof Hchain as Hstep.
  apply ancestors_step in Hstep as (dc' & n & Hn & Hdc' & Hstep).
  rewrite Hdc in Hdc'. injection Hdc' as <-. rewrite Hp in Hstep.
  destruct Hstep as (t & Ht & ->).
  destruct (ancestors_head _ _ _ _ Ht) as (t' & ->).
  split.
  - exists (c :: q :: t'). split; [done|]. by left.
  - intros y (chain_q & Hcq & Hy).
    apply (ancestors_mono n depth) in Ht; [|lia].
    rewrite Hcq in Ht. injection Ht as ->.
    exists (c :: q :: t'). split; [done|]. by right.
Qed.

Lemma below_split (x q : nat) (dq : Directory) :
  below x q -> directories heap !! q = Some dq ->
  exists c, c ∈ dir_subDirs dq /\ (x = c \/ below x c).
Proof.
  intros (chain & Hchain & Hin) Hq.
  destruct (ancestors_head _ _ _ _ Hchain) as (t & ->). simpl in Hin.
  apply list_elem_of_lookup_1 in Hin as (j & Hj).
  assert (Hj' : (x :: t) !! S j = Some q) by done.
  destruct (lookup_lt_is_Some_2 (x :: t) j) as (c & Hc).
  { apply lookup_lt_Some in Hj'. lia. }
  destruct (ancestors_lookup _ _ _ _ _ _ Hchain Hc) as (dc & Hdc & Hp).
  rewrite Hj' in Hp. destruct Hlinked as [_ Hl2].
  destruct (Hl2 c dc q Hdc Hp) as (dq' & Hdq' & Hcin).
  rewrite Hq in Hdq'. injection Hdq' as <-.
  exists c. split; [done|].
  destruct j as [|j].
  - left. simpl in Hc. by injection Hc as ->.
  - right. exists (x :: t). split; [done|]. simpl.
    by eapply list_elem_of_lookup_2.
Qed.

(** Every directory of the list comes after its parent, unless the parent
    is [dir]. *)
Definition parents_first (l : list nat) : Prop :=
  forall pre x post, l = pre ++ x :: post ->
    exists dx p, directories heap !! x = Some dx
                 /\ dir_parent dx = Some p /\ (p = dir \/ p ∈ pre).

Lemma DirIterator_all_spec (calls : nat) (V Q : list nat) :
  NoDup (V ++ Q) ->
  (forall x, x ∈ V ++ Q ->
     below x dir
     /\ exists dx p, directories heap !! x = Some dx
                     /\ dir_parent dx = Some p /\ (p = dir \/ p ∈ V)) ->
  (forall x, below x dir -> x ∈ V ++ Q \/ exists q, q ∈ Q /\ below x q) ->
  parents_first V ->
  size (directories heap) < calls + length V ->
  exists R, DirIterator_all calls Q heap = Some R
            /\ NoDup (V ++ R)
            /\ (forall x, x ∈ V ++ R <-> below x dir)
            /\ parents_first (V ++ R).
Proof.
  revert V Q. induction calls as [|n IH]; intros V Q Hnd Hin Hall Hpf Hsize.
  { exfalso. apply NoDup_app in Hnd as (HV & _ & _).
    pose proof (NoDup_length_size V (directories heap) HV) as Hle.
    simpl in Hsize. cut (length V <= size (directories heap)); [lia|].
    apply Hle. intros x Hx.
    destruct (Hin x) as (_ & dx & _ & -> & _); [|done].
    apply elem_of_app. by left. }
  destruct Q as [|q Q].
  { exists []. split; [done|]. split; [done|]. split; [|by rewrite app_nil_r].
    intros x. split; [by intros Hx; apply Hin|].
    intros Hx. destruct (Hall x Hx) as [?|(q & Hq & _)]; [done|].
    by apply elem_of_nil in Hq. }
  destruct (Hin q) as (Hq_below & dq & pq & Hdq & Hpq & Hpq_in).
  { apply elem_of_app. right. by left. }
  simpl. rewrite Hdq. simpl.
  destruct Hlinked as [Hl1 Hl2]. destruct (Hl1 q dq Hdq) as [Hnd_sub Hsub].
  assert (Hq_notin : q ∉ V).
  { apply NoDup_app in Hnd as (_ & Hdisj & _). intros Hq.
    apply (Hdisj q Hq). by left. }
  assert (Hfresh : forall c, c ∈ dir_subDirs dq -> c ∉ V ++ q :: Q).
  { intros c Hc Hc'. destruct (Hsub c Hc) as (dc & Hdc & Hp).
    destruct (Hin c Hc') as (_ & dc' & p & Hdc' & Hp' & Hp_in).
    rewrite Hdc in Hdc'. injection Hdc' as <-. rewrite Hp in Hp'.
    injection Hp' as <-. destruct Hp_in as [->|Hp_in]; [|done].
    by apply (below_irrefl dir). }
  destruct (IH (V ++ [q]) (Q ++ dir_subDirs dq)) as (R & HR & HndR & HinR & HpfR).
  - rewrite <- app_assoc. simpl. rewrite app_comm_cons, app_assoc.
    apply NoDup_app. split; [done|]. split; [|done].
    intros x Hx Hx'. by apply (Hfresh x).
  - intros x Hx. rewrite <- app_assoc in Hx. simpl in Hx.
    rewrite app_comm_cons, app_assoc in Hx.
    apply elem_of_app in Hx as [Hx|Hx].
    + destruct (Hin x Hx) as (Hb & dx & p & Hdx & Hp & Hp_in).
      split; [done|]. exists dx, p. split; [done|]. split; [done|].
      destruct Hp_in as [?|?]; [by left|right]. apply elem_of_app. by left.
    + destruct (below_child q dq x Hdq Hx) as [Hxq Hup].
      split; [by apply Hup|].
      destruct (Hsub x Hx) as (dx & Hdx & Hp).
      exists dx, q. split; [done|]. split; [done|]. right.
      apply elem_of_app. right. by left.
  - intros x Hx. destruct (Hall x Hx) as [Hx'|(q0 & Hq0 & Hb)].
    + left. rewrite <- app_assoc. simpl. rewrite app_comm_cons, app_assoc.
      apply elem_of_app. by left.
    + apply elem_of_cons in Hq0 as [->|Hq0].
      * destruct (below_split x q dq Hb Hdq) as (c & Hc & [->|Hxc]).
        -- left. apply elem_of_app. right. apply elem_of_app. by right.
        -- right. exists c. split; [|done]. apply elem_of_app. by right.
      * right. exists q0. split; [|done]. apply elem_of_app. by left.
  - intros pre x post Heq.
    destruct (decide (post = [])) as [->|Hpost].
    + apply app_inj_tail in Heq as [<- <-].
      exists dq, pq. by repeat split.
    + destruct (exists_last Hpost) as (post' & y & ->).
      rewrite app_comm_cons, app_assoc in Heq.
      apply app_inj_tail in Heq as [HV _]. by apply (Hpf pre x post').
  - rewrite length_app. simpl. lia.
  - exists (q :: R). rewrite HR. simpl. split; [done|].
    rewrite <- app_assoc in HndR, HinR, HpfR. done.
Qed.

(** The iterator over the tree below [dir] returns, in at most as many
    calls of [next] as the cache has directories (and one more for the null
    pointer), every directory that is a child of [dir], direct or not,
    exactly once, and no other; a directory is returned after its parent. *)
Theorem DirIterator_visits_the_tree (ddir : Directory) :
  directories heap !! dir = Some ddir ->
  exists visited,
    new_DirIterator dir heap
      ≫= (fun dirsToVisit =>
            DirIterator_all (S (size (directories heap))) dirsToVisit heap)
    = Some visited
    /\ NoDup visited
    /\ (forall x, x ∈ visited <-> isAChildOf depth x dir heap = Some true)
    /\ parents_first visited.
Proof.
  intros Hdir. unfold new_DirIterator. rewrite Hdir. simpl.
  destruct (DirIterator_all_spec (S (size (directories heap))) []
              (dir_subDirs ddir)) as (R & HR & Hnd & Hin & Hpf).
  - simpl. destruct Hlinked as [Hl1 _]. by destruct (Hl1 dir ddir Hdir).
  - simpl. intros x Hx.
    destruct (below_child dir ddir x Hdir Hx) as [Hb _]. split; [done|].
    destruct Hlinked as [Hl1 _]. destruct (Hl1 dir ddir Hdir) as [_ Hsub].
    destruct (Hsub x Hx) as (dx & Hdx & Hp). exists dx, dir.
    split; [done|]. split; [done|]. by left.
  - simpl. intros x Hx.
    destruct (below_split x dir ddir Hx Hdir) as (c & Hc & [->|Hxc]).
    + by left.
    + right. by exists c.
  - intros pre x post Heq. by destruct pre.
  - simpl. lia.
  - exists R. simpl in *. split; [done|]. split; [done|]. split; [|done].
    intros x. rewrite Hin. split.
    + intros (chain & Hchain & Hx).
      rewrite (isAChildOf_tail _ _ _ _ _ Hchain). f_equal.
      by apply bool_decide_eq_true_2.
    + intros Hx.
      assert (Hx_in : is_Some (directories heap !! x)).
      { destruct depth as [|n]; [done|]. simpl in Hx.
        by destruct (directories heap !! x). }
      destruct Hx_in as (dx & Hdx).
      destruct (Hbounded x dx Hdx) as (chain & Hchain).
      rewrite (isAChildOf_tail _ _ _ _ _ Hchain) in Hx.
      injection Hx as Hx. apply bool_decide_eq_true_1 in Hx.
      by exists chain.
Qed.

End Iterator.

End TreeFacts.

(** *** The theorems at work on a tree *)

Lemma tree_lookup (d : nat) (dd : FM.Directory) :
  FM.directories Examples.tree !! d = Some dd ->
  (d = 1 /\ dd = FM.mkDirectory None 12 [2] [])
  \/ (d = 2 /\ dd = FM.mkDirectory (Some 1) 12 [3] [10])
  \/ (d = 3 /\ dd = FM.mkDirectory (Some 2) 7 [] [11]).
Proof.
  unfold Examples.tree. simpl. intros H.
  apply lookup_insert_Some in H as [[<- <-]|[_ H]]; [by left|].
  apply lookup_insert_Some in H as [[<- <-]|[_ H]]; [by right; left|].
  apply lookup_insert_Some in H as [[<- <-]|[_ H]]; [by right; right|].
  by rewrite lookup_empty in H.
Qed.

Lemma tree_linked : FM.linked Examples.tree.
Proof.
  split.
  - intros q dq Hq.
    destruct (tree_lookup q dq Hq) as [[-> ->]|[[-> ->]|[-> ->]]]; simpl.
    + split; [apply NoDup_singleton|].
      intros c ->%list_elem_of_singleton. by eexists.
    + split; [apply NoDup_singleton|].
      intros c ->%list_elem_of_singleton. by eexists.
    + split; [apply NoDup_nil_2|]. by intros c ?%elem_of_nil.
  - intros c dc p Hc Hp.
    destruct (tree_lookup c dc Hc) as [[-> ->]|[[-> ->]|[-> ->]]];
      simpl in Hp; [done| |]; injection Hp as <-; eexists;
      (split; [reflexivity|]); by left.
Qed.

Lemma tree_sizes_consistent : sizes_consistent Examples.tree.
Proof.
  intros d dd Hd.
  destruct (tree_lookup d dd Hd) as [[-> ->]|[[-> ->]|[-> ->]]]; reflexivity.
Qed.

Lemma tree_bounded (d : nat) (dd : FM.Directory) :
  FM.directories Examples.tree !! d = Some dd ->
  is_Some (FM.ancestors 3 d Examples.tree).
Proof.
  intros Hd.
  destruct (tree_lookup d dd Hd) as [[-> ->]|[[-> ->]|[-> ->]]]; by eexists.
Qed.

Lemma tree_no_overflow (chain : list nat) (delta : Z) :
  (- 1000 <= delta <= 1000)%Z -> FM.no_overflow chain delta Examples.tree.
Proof.
  intros Hdelta d dd _ Hd. unfold FM.is_qint64.
  destruct (tree_lookup d dd Hd) as [[-> ->]|[[-> ->]|[-> ->]]]; simpl; lia.
Qed.

Lemma tree_qint64 (d : nat) (dd : FM.Directory) :
  FM.directories Examples.tree !! d = Some dd -> FM.is_qint64 (FM.dir_size dd).
Proof.
  intros Hd. unfold FM.is_qint64.
  destruct (tree_lookup d dd Hd) as [[-> ->]|[[-> ->]|[-> ->]]]; simpl; lia.
Qed.

(** The root of [live] is [share]. *)
Lemma getRoot_is_top_witness :
  FM.getRoot 3 3 Examples.tree = Some 1
  /\ FM.isAChildOf 3 3 1 Examples.tree = Some true
  /\ FM.isAChildOf 3 1 3 Examples.tree = Some false.
Proof.
  destruct (getRoot_is_top 3 3 Examples.tree [3; 2; 1] eq_refl)
    as (root & droot & Hroot & _ & _ & _ & _ & Hchild & Hnone).
  assert (root = 1) as -> by (vm_compute in Hroot; congruence).
  split; [done|]. split.
  - apply Hchild; [|done]. by left.
  - apply Hnone.
Defined.

(** [live] is a child of [music] and of [share], and of nothing else. *)
Lemma isAChildOf_strict_order_witness :
  FM.isAChildOf 3 3 3 Examples.tree = Some false
  /\ FM.isAChildOf 3 3 2 Examples.tree = Some true
  /\ FM.isAChildOf 3 2 3 Examples.tree = Some false
  /\ FM.isAChildOf 3 3 1 Examples.tree = Some true.
Proof.
  destruct (isAChildOf_strict_order 3 3 2 1 Examples.tree [3; 2; 1] eq_refl)
    as (H1 & H2 & H3 & H4).
  split; [done|]. split; [by apply (H2 _ 2 eq_refl)|]. split.
  - by apply H3, (H2 _ 2 eq_refl).
  - apply H4; [by apply (H2 _ 2 eq_refl)|reflexivity].
Defined.

(** The paths of [live]. *)
Lemma getFullPath_is_root_path_name_witness :
  FM.getPath Examples.tree_names 3 3 Examples.tree = Some "/music/"%string
  /\ FM.getFullPath Examples.tree_names 3 3 Examples.tree
     = Some "share/music/live"%string.
Proof.
  destruct (getFullPath_is_root_path_name Examples.tree_names 3 3
              Examples.tree [3; 2; 1] eq_refl)
    as (root & path & full & Hroot & Hpath & Hfull & _ & H).
  assert (root = 1) as -> by (vm_compute in Hroot; congruence).
  assert (path = "/music/"%string) as ->
    by (vm_compute in Hpath; congruence).
  split; [done|]. rewrite Hfull, H by done. reflexivity.
Defined.

(** Four bytes more, and less, from [live] upwards. *)
Lemma operators_adjust_the_chain_witness :
  exists plus minus,
    FM.operator_plus_eq 3 3 4 Examples.tree = Some plus
    /\ FM.operator_minus_eq 3 3 4 Examples.tree = Some minus
    /\ FM.getSize 1 plus = Some 16%Z /\ FM.getSize 3 plus = Some 11%Z
    /\ FM.getSize 1 minus = Some 8%Z /\ FM.getSize 3 minus = Some 3%Z.
Proof.
  destruct (operators_adjust_the_chain 3 3 4 Examples.tree [3; 2; 1] eq_refl)
    as (plus & minus & Hp & Hm & _ & _ & H).
  exists plus, minus. split; [done|]. split; [done|].
  pose proof (H 1) as H1. pose proof (H 3) as H3.
  simpl in H1, H3. unfold FM.getSize.
  destruct H1 as [-> ->], H3 as [-> ->]. by repeat split.
Defined.

Lemma operator_minus_eq_undoes_plus_eq_witness :
  FM.operator_plus_eq 3 3 4 Examples.tree ≫= FM.operator_minus_eq 3 3 4
  = Some Examples.tree.
Proof.
  apply (operator_minus_eq_undoes_plus_eq 3 3 4 Examples.tree [3; 2; 1]
           eq_refl).
  intros d dir _. apply tree_qint64.
Defined.

(** The file 12 is added to [live]. *)
Lemma addFile_keeps_sizes_witness :
  exists heap',
    FM.addFile 3 3 12 Examples.tree = Some heap'
    /\ sizes_consistent heap'
    /\ FM.getSize 1 heap' = Some 16%Z.
Proof.
  destruct (addFile_keeps_sizes 3 3 12 Examples.tree [3; 2; 1]
              (FM.mkFile 3 4) tree_linked tree_sizes_consistent eq_refl
              eq_refl)
    as (heap' & Hadd & _ & Hcons & _).
  { apply tree_no_overflow. simpl. lia. }
  exists heap'. split; [done|]. split; [done|].
  vm_compute in Hadd. injection Hadd as <-. reflexivity.
Defined.

(** The file 11 is deleted from [live]. *)
Lemma fileDeleted_keeps_sizes_witness :
  exists heap',
    FM.fileDeleted 3 3 11 Examples.tree = Some heap'
    /\ sizes_consistent heap'
    /\ FM.getSize 1 heap' = Some 5%Z.
Proof.
  destruct (fileDeleted_keeps_sizes 3 3 11 Examples.tree [3; 2; 1]
              (FM.mkFile 3 7) (FM.mkDirectory (Some 2) 7 [] [11])
              tree_linked tree_sizes_consistent eq_refl eq_refl eq_refl)
    as (heap' & dthis' & Hdel & _ & Hcons & _).
  { by left. }
  { apply tree_no_overflow. simpl. lia. }
  exists heap'. split; [done|]. split; [done|].
  vm_compute in Hdel. injection Hdel as <-. reflexivity.
Defined.

Lemma fileDeleted_undoes_addFile_witness :
  FM.addFile 3 3 12 Examples.tree ≫= FM.fileDeleted 3 3 12
  = Some Examples.tree.
Proof.
  apply (fileDeleted_undoes_addFile 3 3 12 Examples.tree [3; 2; 1]
           (FM.mkFile 3 4) (FM.mkDirectory (Some 2) 7 [] [11]) eq_refl
           eq_refl eq_refl).
  - intros [?|?]%elem_of_cons; [done|]. by apply elem_of_nil in H.
  - intros d dir _. apply tree_qint64.
Defined.

(** The file 11 of [live] grows from 7 to 9 bytes. *)
Lemma fileSizeChanged_keeps_sizes_witness :
  let heap :=
    FM.mkCache (FM.directories Examples.tree)
      (<[11 := FM.mkFile 3 9]> (FM.fileobjects Examples.tree)) in
  exists heap',
    FM.fileSizeChanged 3 3 7 9 heap = Some heap'
    /\ sizes_consistent heap'
    /\ FM.getSize 1 heap' = Some 14%Z.
Proof.
  intros heap.
  destruct (fileSizeChanged_keeps_sizes 3 3 11 Examples.tree heap [3; 2; 1]
              (FM.mkFile 3 7) (FM.mkDirectory (Some 2) 7 [] [11]) 9
              tree_linked tree_sizes_consistent eq_refl eq_refl eq_refl)
    as (heap' & dthis' & Hchanged & _ & Hcons & _).
  { by left. }
  { apply NoDup_singleton. }
  { intros d dd Hd Hin.
    destruct (tree_lookup d dd Hd) as [[-> ->]|[[-> ->]|[-> ->]]];
      simpl in Hin; [by apply elem_of_nil in Hin| |done].
    by apply list_elem_of_singleton in Hin. }
  { reflexivity. }
  { reflexivity. }
  { unfold FM.is_qint64. simpl. lia. }
  { apply tree_no_overflow. simpl. lia. }
  exists heap'. split; [done|]. split; [done|].
  vm_compute in Hchanged. injection Hchanged as <-. reflexivity.
Defined.

(** A sub-directory [rock] of [music] is created at the address 4. *)
Lemma createSubDirectory_finds_or_creates_witness :
  exists getName' heap',
    FM.createSubDirectory Examples.tree_names 4 2 "rock" Examples.tree
    = Some (4, getName', heap')
    /\ FM.getSubDir getName' 2 "rock" heap' = Some (Some 4)
    /\ FM.linked heap' /\ sizes_consistent heap'.
Proof.
  destruct (createSubDirectory_finds_or_creates Examples.tree_names 4 2
              "rock" Examples.tree (FM.mkDirectory (Some 1) 12 [3] [10])
              tree_linked eq_refl eq_refl)
    as (subDir & getName' & heap' & dthis' & Hcreate & _ & _ & _ & Hfound
        & _ & _ & Hnew & Hlinked & _ & Hcons).
  destruct Hnew as (-> & _); [reflexivity|].
  exists getName', heap'. split; [done|]. split; [done|]. split; [done|].
  apply Hcons, tree_sizes_consistent.
Defined.

(** The iterator over the tree below [share]. *)
Lemma DirIterator_visits_the_tree_witness :
  exists visited,
    FM.new_DirIterator 1 Examples.tree
      ≫= (fun dirsToVisit =>
            FM.DirIterator_all (S (size (FM.directories Examples.tree)))
              dirsToVisit Examples.tree)
    = Some visited
    /\ NoDup visited /\ visited = [2; 3].
Proof.
  destruct (DirIterator_visits_the_tree Examples.tree 3 1 tree_linked
              tree_bounded (FM.mkDirectory None 12 [2] []) eq_refl)
    as (visited & Hvisited & Hnd & _).
  exists visited. split; [done|]. split; [done|].
  vm_compute in Hvisited. congruence.
Defined.

(** ** Part X -- what a scheduling pass leaves alone *)

Section SchedulingFacts.

Import DM.

Variable RESCAN_QUEUE_PERIOD_IF_ERROR : Z.
Variable FILE_QUEUE_VERSION : Z.

Local Abbreviation reachable :=
  (DM.reachable RESCAN_QUEUE_PERIOD_IF_ERROR FILE_QUEUE_VERSION).

Lemma file_ids_sublist (ds : list Download) :
  file_ids ds `sublist_of` getID <$> ds.
Proof.
  induction ds as [|[f|d] ds IH]; simpl.
  - constructor.
  - by apply sublist_skip.
  - by apply sublist_cons.
Qed.

(** A run of [scanTheQueue] from a reachable state adds, removes and moves
    no download: identities, entries, source peers and complete flags are
    what they were, in the same order, and so are the retrieval in flight
    and the persistent store.  It asks no file download twice, it starts
    chunks only while the counter is below [NUMBER_OF_DOWNLOADER], so the
    counter does not decrease and does not pass the larger of its value and
    that maximum; and it does nothing at all when the counter has reached
    the maximum. *)
Theorem scanTheQueue_keeps_the_queue (number_of_downloader : Z)
    (store : PersistentData) (this : DownloadManager) (oracle : Oracle) :
  reachable number_of_downloader store this ->
  let this' := scanTheQueue oracle this in
  describe <$> downloads this' = describe <$> downloads this
  /\ retrievingEntries this' = retrievingEntries this
  /\ persistent this' = persistent this
  /\ NUMBER_OF_DOWNLOADER this' = NUMBER_OF_DOWNLOADER this
  /\ (numberOfDownload this <= numberOfDownload this'
      <= Z.max (numberOfDownload this) (NUMBER_OF_DOWNLOADER this))%Z
  /\ (exists evs, log this' = log this ++ evs /\ NoDup (visited evs)
                  /\ numberOfDownload this'
                     = (numberOfDownload this + Z.of_nat (increments evs))%Z)
  /\ ((NUMBER_OF_DOWNLOADER this <= numberOfDownload this)%Z -> this' = this).
Proof.
  intros Hreach this'.
  destruct (reachable_inv _ _ _ _ _ Hreach) as ((_ & Hids & _) & _).
  pose proof (scanTheQueue_no_budget oracle this) as Hno.
  subst this'.
  destruct (scanTheQueue_spec oracle this)
    as (ds' & evs & Heq & Hd & _ & _ & _ & _ & Hvis & _ & Hmax & _).
  rewrite Heq.
  simpl. split; [done|]. split; [done|]. split; [done|]. split; [done|].
  split; [lia|]. split; [|intros H; rewrite <- Heq; by apply Hno].
  exists evs. split; [done|]. split; [|done].
  eapply sublist_NoDup; [exact Hids|].
  etransitivity; [|apply file_ids_sublist].
  destruct Hvis as [k ->]. by apply sublist_inserts_r.
Qed.

End SchedulingFacts.

(** One chunk of [x.bin] is started; the queue [x.bin] is what it was. *)
Lemma scanTheQueue_keeps_the_queue_witness :
  let this :=
    DM.handle Examples.version (DM.In_hashReceived 0)
      (DM.handle Examples.version
         (DM.In_addDownload Examples.file_x Examples.peer)
         (Examples.manager 2)) in
  DM.describe <$> DM.downloads (DM.scanTheQueue Examples.answers_start this)
  = DM.describe <$> DM.downloads this
  /\ DM.numberOfDownload (DM.scanTheQueue Examples.answers_start this) = 1%Z.
Proof.
  intros this.
  destruct (scanTheQueue_keeps_the_queue Examples.period Examples.version 2
              Examples.store this Examples.answers_start)
    as (H & _).
  { subst this. repeat (apply reachable_handle; [|exact I]).
    apply DM.reachable_new. }
  split; [done|reflexivity].
Defined.

(** ** Part XI -- stealContent: the sub-directories *)

Section StealSubDirs.

Import FM.

Lemma to_qint64_ext (a b : Z) :
  (a mod 2 ^ 64 = b mod 2 ^ 64)%Z -> to_qint64 a = to_qint64 b.
Proof. unfold to_qint64. by intros ->. Qed.

Lemma to_qint64_mod (z : Z) : (to_qint64 z mod 2 ^ 64 = z mod 2 ^ 64)%Z.
Proof.
  unfold to_qint64.
  destruct (Z.ltb_spec (z mod 2 ^ 64)%Z (2 ^ 63)%Z).
  - apply Z.mod_mod. lia.
  - replace (z mod 2 ^ 64 - 2 ^ 64)%Z
      with (z mod 2 ^ 64 + (-1) * 2 ^ 64)%Z by lia.
    rewrite Z.mod_add by lia. apply Z.mod_mod. lia.
Qed.

Lemma to_qint64_add_l (z delta : Z) :
  to_qint64 (to_qint64 z + delta) = to_qint64 (z + delta).
Proof.
  apply to_qint64_ext.
  rewrite <- Zplus_mod_idemp_l, to_qint64_mod, Zplus_mod_idemp_l. done.
Qed.

Lemma ancestors_on_chain (depth : nat) (this : nat) (heap heap' : Cache)
    (chain : list nat) :
  ancestors depth this heap = Some chain ->
  (forall x, x ∈ chain ->
     dir_parent <$> directories heap' !! x
     = dir_parent <$> directories heap !! x) ->
  ancestors depth this heap' = Some chain.
Proof.
  revert this chain. induction depth as [|n IH]; intros this chain H Hp;
    [done|].
  apply ancestors_step in H as (d & n' & [= <-] & Hd & H).
  assert (Hthis : this ∈ chain).
  { destruct (dir_parent d); [destruct H as (? & _ & ->)|subst]; by left. }
  pose proof (Hp this Hthis) as Hpt. rewrite Hd in Hpt. simpl.
  destruct (directories heap' !! this) as [d'|]; [|done]. simpl in *.
  injection Hpt as ->.
  destruct (dir_parent d) as [p|].
  - destruct H as (tail & Htail & ->).
    rewrite (IH p tail Htail); [done|].
    intros x Hx. apply Hp. by right.
  - by subst.
Qed.

Variable changeDirectory : nat -> nat -> Cache -> Cache.
Variables (depth : nat) (this dir : nat) (heap : Cache).
Variables (chain_t chain_d : list nat) (to from : Directory).

Hypothesis Hlinked : linked heap.
Hypothesis Hne : dir <> this.
Hypothesis Hto : directories heap !! this = Some to.
Hypothesis Hfrom : directories heap !! dir = Some from.
Hypothesis Hchain_t : ancestors depth this heap = Some chain_t.
Hypothesis Hchain_d : ancestors depth dir heap = Some chain_d.
Hypothesis Houtside : forall d, d ∈ dir_subDirs from -> d ∉ chain_t.
Hypothesis Hqint64 :
  forall x dd, directories heap !! x = Some dd -> is_qint64 (dir_size dd).

(** The cache once the two lists of [dir] were appended to those of
    [this]. *)
Definition appended : Cache :=
  set_directories
    (<[this := with_files (dir_files to ++ dir_files from)
                 (with_subDirs (dir_subDirs to ++ dir_subDirs from) to)]>
       (directories heap)) heap.

(** How many times the size of a stolen directory is added to the size of
    a directory: once on the chain of [this], minus once on that of
    [dir]. *)
Definition weight (x : nat) : Z :=
  ((if bool_decide (x ∈ chain_t) then 1 else 0)
   - (if bool_decide (x ∈ chain_d) then 1 else 0))%Z.

(** A directory once the sub-directories [done], of total size [total],
    were moved. *)
Definition moved (done : list nat) (total : Z) (x : nat) (dd : Directory)
    : Directory :=
  if bool_decide (x ∈ done) then with_parent (Some this) dd
  else with_size (to_qint64 (dir_size dd + weight x * total)) dd.

Definition sizes_of (l : list nat) : Z :=
  sum_sizes ((fun d => getSize d heap) <$> l).

Definition moved_to (done : list nat) (heap_k : Cache) : Prop :=
  fileobjects heap_k = fileobjects heap
  /\ forall x, directories heap_k !! x
               = moved done (sizes_of done) x <$> directories appended !! x.

Lemma appended_lookup (x : nat) :
  directories appended !! x
  = if decide (x = this)
    then Some (with_files (dir_files to ++ dir_files from)
                 (with_subDirs (dir_subDirs to ++ dir_subDirs from) to))
    else directories heap !! x.
Proof.
  unfold appended. simpl. destruct (decide (x = this)) as [->|Hx].
  - by rewrite lookup_insert_eq.
  - by rewrite lookup_insert_ne.
Qed.

Lemma appended_view (x : nat) :
  (fun dd => (dir_parent dd, dir_size dd)) <$> directories appended !! x
  = (fun dd => (dir_parent dd, dir_size dd)) <$> directories heap !! x.
Proof.
  rewrite appended_lookup. destruct (decide (x = this)) as [->|Hx]; [|done].
  by rewrite Hto.
Qed.

Lemma appended_qint64 (x : nat) (dd : Directory) :
  directories appended !! x = Some dd -> is_qint64 (dir_size dd).
Proof.
  intros Hx. pose proof (appended_view x) as Hv. rewrite Hx in Hv.
  destruct (directories heap !! x) as [dd0|] eqn:Hx0; [|done].
  simpl in Hv. injection Hv as _ ->. by apply (Hqint64 x).
Qed.

Lemma stolen_in_heap (d : nat) :
  d ∈ dir_subDirs from ->
  d <> this /\ d <> dir /\ (d ∉ chain_t) /\ (d ∉ chain_d)
  /\ exists dd, directories heap !! d = Some dd
                /\ dir_parent dd = Some dir.
Proof.
  intros Hd. destruct Hlinked as [Hl1 _].
  destruct (Hl1 dir from Hfrom) as [_ Hsub].
  destruct (Hsub d Hd) as (dd & Hdd & Hp).
  assert (Hout_d : d ∉ chain_d).
  { intros Hin.
    destruct (chain_child_above heap depth dir chain_d Hlinked Hchain_d
                dir from d Hfrom Hd Hin) as (i & _ & Hi).
    destruct (ancestors_head _ _ _ _ Hchain_d) as (t & Ht).
    pose proof (ancestors_NoDup _ _ _ _ Hchain_d) as Hnd.
    assert (H0 : chain_d !! 0 = Some dir) by (by rewrite Ht).
    by pose proof (NoDup_lookup _ _ _ _ Hnd Hi H0). }
  assert (Hout_t : d ∉ chain_t) by (by apply Houtside).
  destruct (ancestors_head _ _ _ _ Hchain_t) as (t & Ht).
  destruct (ancestors_head _ _ _ _ Hchain_d) as (t' & Ht').
  split; [|split; [|split; [done|split; [done|by exists dd]]]].
  - intros ->. apply Hout_t. rewrite Ht. by left.
  - intros ->. apply Hout_d. rewrite Ht'. by left.
Qed.

Lemma weight_stolen (d : nat) : d ∈ dir_subDirs from -> weight d = 0%Z.
Proof.
  intros Hd. destruct (stolen_in_heap d Hd) as (_ & _ & Ht & Hd' & _).
  unfold weight. by rewrite !bool_decide_eq_false_2.
Qed.

Lemma moved_to_appended : moved_to [] appended.
Proof.
  split; [done|]. intros x.
  destruct (directories appended !! x) as [dd|] eqn:Hx; [|done]. simpl.
  f_equal. unfold moved. simpl. unfold sizes_of. simpl.
  change (sum_sizes []) with 0%Z.
  rewrite Z.mul_0_r, Z.add_0_r, to_qint64_id by (by apply (appended_qint64 x)).
  by destruct dd.
Qed.

Lemma moved_to_ancestors (done : list nat) (heap_k : Cache) (start : nat)
    (chain : list nat) :
  (forall d, d ∈ done -> d ∉ chain) ->
  ancestors depth start heap = Some chain ->
  moved_to done heap_k ->
  ancestors depth start heap_k = Some chain.
Proof.
  intros Hout Hchain [_ Hk]. apply (ancestors_on_chain _ _ heap); [done|].
  intros x Hx. rewrite Hk.
  pose proof (appended_view x) as Hv.
  destruct (directories appended !! x) as [dd|],
           (directories heap !! x) as [dd0|]; simpl in *; try done.
  injection Hv as Hp _. f_equal. rewrite <- Hp. unfold moved.
  rewrite bool_decide_eq_false_2; [done|].
  intros Hd. by apply (Hout x).
Qed.

Lemma stealContent_subDirs_spec (todo done : list nat) (heap_k : Cache) :
  NoDup (done ++ todo) ->
  (forall d, d ∈ done ++ todo -> d ∈ dir_subDirs from) ->
  moved_to done heap_k ->
  exists heap_n,
    stealContent_subDirs depth this dir todo heap_k = Some heap_n
    /\ moved_to (done ++ todo) heap_n.
Proof.
  revert done heap_k.
  induction todo as [|d todo IH]; intros done heap_k Hnd Hstolen Hk.
  { exists heap_k. by rewrite app_nil_r. }
  assert (Hd : d ∈ dir_subDirs from).
  { apply Hstolen, elem_of_app. right. by left. }
  destruct (stolen_in_heap d Hd) as (Hd_this & Hd_dir & Hd_t & Hd_d
                                       & dd & Hdd & Hdp).
  assert (Hd_done : d ∉ done).
  { apply NoDup_app in Hnd as (_ & Hdisj & _). intros Hin.
    apply (Hdisj d Hin). by left. }
  assert (Hdone_out : forall chain, chain = chain_t \/ chain = chain_d ->
            forall x, x ∈ done -> x ∉ chain).
  { intros chain Hc x Hx.
    destruct (stolen_in_heap x) as (_ & _ & H1 & H2 & _).
    - apply Hstolen, elem_of_app. by left.
    - by destruct Hc as [->| ->]. }
  destruct Hk as [Hfk Hk].
  assert (Hd_a : directories appended !! d = Some dd).
  { rewrite appended_lookup. by destruct (decide (d = this)). }
  assert (Hd_k : directories heap_k !! d = Some dd).
  { rewrite Hk, Hd_a. simpl. f_equal. unfold moved.
    rewrite bool_decide_eq_false_2 by done.
    rewrite (weight_stolen d Hd), Z.mul_0_l, Z.add_0_r.
    rewrite to_qint64_id by (by apply (Hqint64 d)). by destruct dd. }
  simpl. unfold update at 1. rewrite Hd_k. simpl.
  set (heap_1 := set_directories _ heap_k).
  assert (H1 : forall x, directories heap_1 !! x
                         = if decide (x = d)
                           then Some (with_parent (Some this) dd)
                           else directories heap_k !! x).
  { intros x. subst heap_1. simpl. destruct (decide (x = d)) as [->|Hx].
    - by rewrite lookup_insert_eq.
    - by rewrite lookup_insert_ne. }
  assert (Hsize_1 : getSize d heap_1 = Some (dir_size dd)).
  { unfold getSize. rewrite H1. by destruct (decide (d = d)). }
  rewrite Hsize_1. simpl.
  assert (Hparents_1 : forall x, x <> d ->
            dir_parent <$> directories heap_1 !! x
            = dir_parent <$> directories heap_k !! x).
  { intros x Hx. rewrite H1. by destruct (decide (x = d)). }
  assert (Hchain_t1 : ancestors depth this heap_1 = Some chain_t).
  { apply (ancestors_on_chain _ _ heap_k).
    - apply (moved_to_ancestors done); [by apply Hdone_out; left|done|done].
    - intros x Hx. apply Hparents_1. by intros ->. }
  destruct (operator_plus_eq_chain depth this (dir_size dd) heap_1 chain_t
              Hchain_t1) as (heap_2 & -> & Hf2 & H2).
  simpl.
  assert (Hsize_2 : getSize d heap_2 = Some (dir_size dd)).
  { unfold getSize. rewrite H2, H1. destruct (decide (d = d)); [|done].
    simpl. unfold adjusted. by rewrite bool_decide_eq_false_2. }
  rewrite Hsize_2. simpl.
  assert (Hchain_d2 : ancestors depth dir heap_2 = Some chain_d).
  { apply (ancestors_on_chain _ _ heap_k).
    - apply (moved_to_ancestors done); [by apply Hdone_out; right|done|done].
    - intros x Hx. rewrite H2. rewrite <- option_fmap_compose.
      rewrite <- Hparents_1 by (by intros ->).
      apply option_fmap_ext. intros y. unfold adjusted. simpl.
      by destruct (bool_decide _). }
  destruct (operator_minus_eq_chain depth dir (dir_size dd) heap_2 chain_d
              Hchain_d2) as (heap_3 & -> & Hf3 & H3).
  simpl.
  destruct (IH (done ++ [d]) heap_3) as (heap_n & -> & Hn).
  - by rewrite <- app_assoc.
  - intros x Hx. apply Hstolen. by rewrite <- app_assoc in Hx.
  - split; [subst heap_1; simpl in *; congruence|].
    intros x. rewrite H3, H2, H1.
    assert (Hsizes : sizes_of (done ++ [d])
                     = (sizes_of done + dir_size dd)%Z).
    { unfold sizes_of. rewrite fmap_app, sum_sizes_app.
      change ((fun d => getSize d heap) <$> [d]) with [getSize d heap].
      rewrite sum_sizes_cons. unfold getSize at 2. rewrite Hdd. simpl.
      change (sum_sizes []) with 0%Z. lia. }
    rewrite Hsizes.
    destruct (decide (x = d)) as [->|Hx].
    + rewrite Hd_a. simpl. f_equal. unfold adjusted, moved.
      rewrite !bool_decide_eq_false_2 by done.
      rewrite bool_decide_eq_true_2; [done|].
      apply elem_of_app. right. by left.
    + rewrite Hk.
      destruct (directories appended !! x) as [dx|] eqn:Hx_a; [|done].
      simpl. f_equal. unfold moved.
      destruct (bool_decide_reflect (x ∈ done)) as [Hx_done|Hx_done].
      * rewrite bool_decide_eq_true_2 by (apply elem_of_app; by left).
        unfold adjusted.
        by rewrite !bool_decide_eq_false_2
          by (apply Hdone_out; [tauto|done]).
      * rewrite bool_decide_eq_false_2.
        2:{ intros [?|?%list_elem_of_singleton]%elem_of_app; done. }
        unfold adjusted, weight.
        destruct (bool_decide (x ∈ chain_t)), (bool_decide (x ∈ chain_d));
          simpl; destruct dx as [p z l1 l2]; unfold with_size; simpl;
          f_equal;
          rewrite ?to_qint64_add_l, <- ?Z.add_assoc, ?to_qint64_add_l;
          f_equal; lia.
  - exists heap_n. split; [done|]. by rewrite <- app_assoc in Hn.
Qed.

Hypothesis Hcons : sizes_consistent heap.
Hypothesis Hnofiles : dir_files from = [].
Hypothesis Hfit_t : no_overflow chain_t (dir_size from) heap.
Hypothesis Hfit_d : no_overflow chain_d (- dir_size from) heap.

Local Abbreviation stolen := (dir_subDirs from).
Local Abbreviation total := (sizes_of (dir_subDirs from)).

Lemma dir_outside : dir ∉ chain_t.
Proof.
  intros Hin. destruct (ancestors_head _ _ _ _ Hchain_t) as (t & Ht).
  rewrite Ht in Hin. apply elem_of_cons in Hin as [?|Hin]; [done|].
  apply list_elem_of_lookup_1 in Hin as (i & Hi).
  assert (Hi' : chain_t !! S i = Some dir) by (by rewrite Ht).
  destruct (lookup_lt_is_Some_2 chain_t i) as (c & Hc).
  { apply lookup_lt_Some in Hi'. lia. }
  destruct (ancestors_lookup _ _ _ _ _ _ Hchain_t Hc) as (dc & Hdc & Hp).
  rewrite Hi' in Hp. destruct Hlinked as [_ Hl2].
  destruct (Hl2 c dc dir Hdc Hp) as (dd & Hdd & Hin).
  rewrite Hfrom in Hdd. injection Hdd as <-.
  apply (Houtside c Hin). by eapply list_elem_of_lookup_2.
Qed.

Lemma total_stolen : total = dir_size from.
Proof.
  rewrite (Hcons dir from Hfrom). unfold content_size. rewrite Hnofiles.
  simpl. change (sum_sizes []) with 0%Z. unfold sizes_of. lia.
Qed.

Lemma weight_exact (x : nat) (dd : Directory) :
  directories heap !! x = Some dd ->
  to_qint64 (dir_size dd + weight x * total)
  = (dir_size dd + weight x * total)%Z.
Proof.
  intros Hx. apply to_qint64_id. unfold weight.
  pose proof Hfit_t as Hfit_t'. pose proof Hfit_d as Hfit_d'.
  rewrite <- total_stolen in Hfit_t', Hfit_d'.
  destruct (bool_decide_reflect (x ∈ chain_t)) as [Ht|Ht],
           (bool_decide_reflect (x ∈ chain_d)) as [Hd|Hd].
  - replace (dir_size dd + (1 - 1) * total)%Z with (dir_size dd) by lia.
    by apply (Hqint64 x).
  - replace (dir_size dd + (1 - 0) * total)%Z with (dir_size dd + total)%Z
      by lia.
    by apply (Hfit_t' x).
  - replace (dir_size dd + (0 - 1) * total)%Z with (dir_size dd + - total)%Z
      by lia.
    by apply (Hfit_d' x).
  - replace (dir_size dd + (0 - 0) * total)%Z with (dir_size dd) by lia.
    by apply (Hqint64 x).
Qed.

(** The cache [stealContent] returns, directory by directory. *)
Lemma stealContent_result :
  exists heap',
    stealContent changeDirectory depth this dir heap = Some heap'
    /\ fileobjects heap' = fileobjects heap
    /\ forall x,
         match directories heap !! x with
         | None => directories heap' !! x = None
         | Some dd =>
             exists dd',
               directories heap' !! x = Some dd'
               /\ dir_size dd' = (dir_size dd + weight x * total)%Z
               /\ dir_parent dd'
                  = (if bool_decide (x ∈ stolen) then Some this
                     else dir_parent dd)
               /\ dir_subDirs dd'
                  = (if decide (x = dir) then []
                     else if decide (x = this) then dir_subDirs to ++ stolen
                     else dir_subDirs dd)
               /\ dir_files dd'
                  = (if decide (x = dir) then []
                     else dir_files dd)
         end.
Proof.
  unfold stealContent. destruct (Nat.eqb_spec dir this) as [?|_]; [done|].
  rewrite Hfrom. simpl. unfold update at 2. rewrite Hto. simpl.
  fold appended.
  destruct (stealContent_subDirs_spec stolen [] appended)
    as (heap_n & -> & Hfn & Hn).
  - simpl. destruct Hlinked as [Hl1 _]. by destruct (Hl1 dir from Hfrom).
  - by intros d Hd.
  - apply moved_to_appended.
  - simpl in *. rewrite Hnofiles. simpl.
    assert (Hdir_n : exists from_n, directories heap_n !! dir = Some from_n
              /\ dir_size from_n = (dir_size from + weight dir * total)%Z).
    { rewrite Hn, appended_lookup. destruct (decide (dir = this)); [done|].
      rewrite Hfrom. simpl. eexists. split; [done|]. unfold moved.
      destruct (bool_decide_reflect (dir ∈ stolen)) as [Hin|_].
      - by destruct (stolen_in_heap dir Hin) as (_ & ? & _).
      - simpl. by apply weight_exact. }
    destruct Hdir_n as (from_n & Hdir_n & Hsize_n).
    unfold update. rewrite Hdir_n. simpl. eexists. split; [done|].
    simpl. split; [done|]. intros x.
    destruct (directories heap !! x) as [dd|] eqn:Hx.
    + destruct (decide (x = dir)) as [->|Hxd].
      * rewrite lookup_insert_eq. eexists. split; [done|]. simpl.
        rewrite Hfrom in Hx. injection Hx as <-.
        split; [done|]. split; [|done].
        rewrite bool_decide_eq_false_2.
        -- pose proof (Hn dir) as Hd. rewrite Hdir_n, appended_lookup in Hd.
           destruct (decide (dir = this)); [done|]. rewrite Hfrom in Hd.
           simpl in Hd. injection Hd as ->. unfold moved.
           rewrite bool_decide_eq_false_2; [done|].
           intros Hin. by destruct (stolen_in_heap dir Hin) as (_ & ? & _).
        -- intros Hin. by destruct (stolen_in_heap dir Hin) as (_ & ? & _).
      * rewrite lookup_insert_ne by done. rewrite Hn, appended_lookup.
        destruct (decide (x = this)) as [->|Hxt].
        -- simpl. eexists. split; [done|].
           rewrite Hto in Hx. injection Hx as <-. unfold moved.
           destruct (bool_decide_reflect (this ∈ stolen)) as [Hin|_].
           { by destruct (stolen_in_heap this Hin) as (? & _). }
           simpl. split; [by apply weight_exact|]. split; [done|].
           split; [done|]. by rewrite Hnofiles, app_nil_r.
        -- rewrite Hx. simpl. eexists. split; [done|]. unfold moved.
           destruct (bool_decide_reflect (x ∈ stolen)) as [Hin|Hout]; simpl.
           ++ rewrite (weight_stolen x Hin). split; [lia|done].
           ++ split; [by apply weight_exact|done].
    + rewrite lookup_insert_ne by (intros ->; congruence).
      rewrite Hn, appended_lookup.
      destruct (decide (x = this)) as [->|_]; [congruence|]. by rewrite Hx.
Qed.

Lemma content_size_lists (d1 d2 : Directory) (h : Cache) :
  dir_files d1 = dir_files d2 -> dir_subDirs d1 = dir_subDirs d2 ->
  content_size d1 h = content_size d2 h.
Proof. unfold content_size. by intros -> ->. Qed.

(** How many times the size of what was stolen is added to the content of
    a directory. *)
Definition weight_below (x : nat) : Z :=
  ((if bool_decide (x ∈ tail chain_t) then 1 else 0)
   - (if bool_decide (x ∈ tail chain_d) then 1 else 0))%Z.

Lemma weight_below_other (x : nat) :
  x <> this -> x <> dir -> weight_below x = weight x.
Proof.
  intros Hxt Hxd. unfold weight_below, weight.
  destruct (ancestors_head _ _ _ _ Hchain_t) as (t & ->).
  destruct (ancestors_head _ _ _ _ Hchain_d) as (t' & ->). simpl.
  assert (Heq : forall h l, x <> h ->
            bool_decide (x ∈ h :: l) = bool_decide (x ∈ l)).
  { intros h l Hne'. apply bool_decide_ext. rewrite elem_of_cons. tauto. }
  by rewrite !Heq.
Qed.

(** The sizes once the total was added along one chain and subtracted
    along the other. *)
Lemma transferred :
  exists heap2,
    fileobjects heap2 = fileobjects heap
    /\ (forall x, getSize x heap2
                  = (fun dd => (dir_size dd + weight x * total)%Z)
                      <$> directories heap !! x)
    /\ forall x dd, directories heap !! x = Some dd ->
         content_size dd heap2
         = (content_size dd heap + weight_below x * total)%Z.
Proof.
  pose proof Hfit_t as Hfit_t'. pose proof Hfit_d as Hfit_d'.
  rewrite <- total_stolen in Hfit_t', Hfit_d'.
  destruct (operator_plus_eq_chain depth this total heap chain_t Hchain_t)
    as (heap1 & _ & Hf1 & Hd1).
  assert (Hchain_d1 : ancestors depth dir heap1 = Some chain_d).
  { rewrite <- Hchain_d. apply ancestors_parents. intros d. rewrite Hd1.
    rewrite <- option_fmap_compose. apply option_fmap_ext.
    intros y. unfold adjusted. simpl. by destruct (bool_decide _). }
  destruct (operator_minus_eq_chain depth dir total heap1 chain_d Hchain_d1)
    as (heap2 & _ & Hf2 & Hd2).
  pose proof (linked_adjusted heap heap1 chain_t total Hlinked Hd1)
    as Hlinked1.
  assert (Hno1 : no_overflow chain_d (- total) heap1).
  { intros d dd1 Hin Hdd1.
    destruct (adjusted_sizes heap heap1 depth this chain_t total Hlinked
                Hchain_t Hfit_t' Hd1 Hf1 d dd1 Hdd1)
      as (dd & Hdd & _ & _ & _ & -> & _).
    destruct (bool_decide_reflect (d ∈ chain_t)) as [Ht|Ht].
    - replace (dir_size dd + total + - total)%Z with (dir_size dd) by lia.
      by apply (Hqint64 d).
    - rewrite Z.add_0_r. by apply (Hfit_d' d). }
  exists heap2. split; [congruence|]. split.
  - intros x.
    rewrite (getSize_adjusted heap1 heap2 chain_d (- total) Hno1 Hd2).
    rewrite (getSize_adjusted heap heap1 chain_t total Hfit_t' Hd1).
    unfold getSize. destruct (directories heap !! x) as [dd|]; [|done].
    simpl. f_equal. unfold weight.
    destruct (bool_decide (x ∈ chain_t)), (bool_decide (x ∈ chain_d)); lia.
  - intros x dd Hx.
    assert (Hx1 : exists dd1, directories heap1 !! x = Some dd1
                   /\ dir_files dd1 = dir_files dd
                   /\ dir_subDirs dd1 = dir_subDirs dd).
    { rewrite Hd1, Hx. simpl. eexists. split; [done|]. unfold adjusted.
      by destruct (bool_decide _). }
    destruct Hx1 as (dd1 & Hx1 & Hfiles1 & Hsub1).
    rewrite <- (content_size_lists dd1 dd heap2 Hfiles1 Hsub1).
    rewrite (content_size_adjusted heap1 heap2 depth dir chain_d (- total)
               Hlinked1 Hchain_d1 Hno1 Hd2 Hf2 x dd1 Hx1).
    rewrite (content_size_lists dd1 dd heap1 Hfiles1 Hsub1).
    rewrite (content_size_adjusted heap heap1 depth this chain_t total
               Hlinked Hchain_t Hfit_t' Hd1 Hf1 x dd Hx).
    unfold weight_below.
    destruct (bool_decide (x ∈ tail chain_t)),
             (bool_decide (x ∈ tail chain_d)); lia.
Qed.

Lemma weight_dir : weight dir = (-1)%Z.
Proof.
  unfold weight. rewrite bool_decide_eq_false_2 by apply dir_outside.
  rewrite bool_decide_eq_true_2; [done|].
  destruct (ancestors_head _ _ _ _ Hchain_d) as (t & ->). by left.
Qed.

Lemma weight_this : weight this = (weight_below this + 1)%Z.
Proof.
  unfold weight, weight_below.
  pose proof (ancestors_NoDup _ _ _ _ Hchain_t) as Hnd.
  destruct (ancestors_head _ _ _ _ Hchain_t) as (t & ->).
  destruct (ancestors_head _ _ _ _ Hchain_d) as (t' & ->). simpl.
  apply NoDup_cons in Hnd as [Hnotin _].
  rewrite bool_decide_eq_true_2 by (by left).
  rewrite (bool_decide_eq_false_2 (this ∈ t)) by done.
  assert (Heq : bool_decide (this ∈ dir :: t') = bool_decide (this ∈ t')).
  { apply bool_decide_ext. rewrite elem_of_cons. split; [|tauto].
    by intros [->|?]. }
  rewrite Heq. lia.
Qed.

(** [stealContent] moves the sub-directories with their sizes.  In a cache
    whose lists of sub-directories agree with the parent pointers and where
    every directory has the size of what it contains, let [dir], another
    directory than [this], hold no file, and let [this] be in none of the
    sub-directories of [dir] (the chains of parents of both end within
    [depth] steps, and the size of [dir] can be added along the one and
    subtracted along the other without overflow).  Then the call returns a
    cache with the same two properties, where [this] lists the
    sub-directories of [dir] after its own and keeps its files, [dir] is
    empty with size 0, and the parent of each former sub-directory of [dir]
    is [this].  This holds whatever [File::changeDirectory] does: it is not
    called. *)
Theorem stealContent_moves_subDirs :
  exists heap',
    stealContent changeDirectory depth this dir heap = Some heap'
    /\ linked heap' /\ sizes_consistent heap'
    /\ (exists to',
          directories heap' !! this = Some to'
          /\ dir_subDirs to' = dir_subDirs to ++ dir_subDirs from
          /\ dir_files to' = dir_files to)
    /\ (exists from',
          directories heap' !! dir = Some from'
          /\ dir_subDirs from' = [] /\ dir_files from' = []
          /\ dir_size from' = 0%Z)
    /\ forall d, d ∈ dir_subDirs from ->
         exists dd', directories heap' !! d = Some dd'
                     /\ dir_parent dd' = Some this.
Proof.
  destruct stealContent_result as (heap' & Hsteal & Hfo & Hpt).
  exists heap'. split; [done|].
  assert (Hget : forall x dd', directories heap' !! x = Some dd' ->
            exists dd,
              directories heap !! x = Some dd
              /\ dir_size dd' = (dir_size dd + weight x * total)%Z
              /\ dir_parent dd'
                 = (if bool_decide (x ∈ stolen) then Some this
                    else dir_parent dd)
              /\ dir_subDirs dd'
                 = (if decide (x = dir) then []
                    else if decide (x = this) then dir_subDirs to ++ stolen
                    else dir_subDirs dd)
              /\ dir_files dd'
                 = (if decide (x = dir) then [] else dir_files dd)).
  { intros x dd' Hx'. specialize (Hpt x).
    destruct (directories heap !! x) as [dd|]; [|congruence].
    destruct Hpt as (dd'' & Hx'' & H). rewrite Hx' in Hx''.
    injection Hx'' as <-. by exists dd. }
  assert (Hput : forall x dd, directories heap !! x = Some dd ->
            exists dd',
              directories heap' !! x = Some dd'
              /\ dir_size dd' = (dir_size dd + weight x * total)%Z
              /\ dir_parent dd'
                 = (if bool_decide (x ∈ stolen) then Some this
                    else dir_parent dd)
              /\ dir_subDirs dd'
                 = (if decide (x = dir) then []
                    else if decide (x = this) then dir_subDirs to ++ stolen
                    else dir_subDirs dd)
              /\ dir_files dd'
                 = (if decide (x = dir) then [] else dir_files dd)).
  { intros x dd Hx. specialize (Hpt x). by rewrite Hx in Hpt. }
  clear Hpt. destruct Hlinked as [Hl1 Hl2].
  split; [|split; [|split; [|split]]].
  - (* the lists and the parent pointers *)
    split.
    + intros q dq' Hq'.
      destruct (Hget q dq' Hq') as (dq & Hq & _ & _ & Hsub & _).
      rewrite Hsub. clear Hsub.
      destruct (decide (q = dir)) as [->|Hqd].
      { split; [constructor|]. by intros c Hc%elem_of_nil. }
      destruct (decide (q = this)) as [->|Hqt].
      * rewrite Hto in Hq. injection Hq as <-.
        destruct (Hl1 this to Hto) as [Hnd_t Hsub_t].
        destruct (Hl1 dir from Hfrom) as [Hnd_d Hsub_d].
        split.
        -- apply NoDup_app. split; [done|]. split; [|done].
           intros c Hc1 Hc2.
           destruct (Hsub_t c Hc1) as (dc & Hdc & Hp).
           destruct (Hsub_d c Hc2) as (dc2 & Hdc2 & Hp2).
           congruence.
        -- intros c [Hc|Hc]%elem_of_app.
           ++ destruct (Hsub_t c Hc) as (dc & Hdc & Hp).
              destruct (Hput c dc Hdc) as (dc' & Hdc' & _ & Hp' & _).
              exists dc'. split; [done|]. rewrite Hp'.
              by destruct (bool_decide _).
           ++ destruct (Hsub_d c Hc) as (dc & Hdc & Hp).
              destruct (Hput c dc Hdc) as (dc' & Hdc' & _ & Hp' & _).
              exists dc'. split; [done|]. rewrite Hp'.
              by rewrite bool_decide_eq_true_2.
      * destruct (Hl1 q dq Hq) as [Hnd Hsub]. split; [done|].
        intros c Hc. destruct (Hsub c Hc) as (dc & Hdc & Hp).
        destruct (Hput c dc Hdc) as (dc' & Hdc' & _ & Hp' & _).
        exists dc'. split; [done|]. rewrite Hp'.
        rewrite bool_decide_eq_false_2; [done|].
        intros Hin. destruct (Hl1 dir from Hfrom) as [_ Hsub_d].
        destruct (Hsub_d c Hin) as (dc2 & Hdc2 & Hp2). congruence.
    + intros c dc' p Hc' Hp'.
      destruct (Hget c dc' Hc') as (dc & Hdc & _ & Hp & _).
      rewrite Hp' in Hp.
      destruct (bool_decide_reflect (c ∈ stolen)) as [Hin|Hout].
      * injection Hp as ->.
        destruct (Hput this to Hto) as (to' & Hto' & _ & _ & Hsub & _).
        exists to'. split; [done|]. rewrite Hsub.
        destruct (decide (this = dir)) as [?|_]; [done|].
        destruct (decide (this = this)) as [_|?]; [|done].
        apply elem_of_app. by right.
      * symmetry in Hp. destruct (Hl2 c dc p Hdc Hp) as (dp & Hdp & Hin).
        destruct (Hput p dp Hdp) as (dp' & Hdp' & _ & _ & Hsub & _).
        exists dp'. split; [done|]. rewrite Hsub.
        destruct (decide (p = dir)) as [->|_].
        { rewrite Hfrom in Hdp. by injection Hdp as <-. }
        destruct (decide (p = this)) as [->|_]; [|done].
        rewrite Hto in Hdp. injection Hdp as <-.
        apply elem_of_app. by left.
  - (* the sizes *)
    destruct transferred as (heap2 & Hf2 & Hs2 & Hc2).
    assert (Hsz : forall s, getSize s heap' = getSize s heap2).
    { intros s. rewrite Hs2. unfold getSize.
      destruct (directories heap !! s) as [ds|] eqn:Hs.
      - destruct (Hput s ds Hs) as (ds' & Hs' & Hsize' & _).
        rewrite Hs'. simpl. by rewrite Hsize'.
      - destruct (directories heap' !! s) as [ds'|] eqn:Hs'; [|done].
        destruct (Hget s ds' Hs') as (? & ? & _). congruence. }
    assert (Hfz : forall f, file_getSize f heap' = file_getSize f heap2).
    { intros f. unfold file_getSize. by rewrite Hfo, Hf2. }
    intros x dd' Hx'.
    destruct (Hget x dd' Hx') as (dd & Hx & Hsize & _ & Hsub & Hfiles).
    rewrite (content_size_ext heap2 heap' dd' Hsz Hfz), Hsize.
    destruct (decide (x = dir)) as [->|Hxd].
    + rewrite Hfrom in Hx. injection Hx as <-.
      unfold content_size. rewrite Hsub, Hfiles. simpl.
      change (sum_sizes []) with 0%Z. rewrite weight_dir, total_stolen. lia.
    + destruct (decide (x = this)) as [->|Hxt].
      * rewrite Hto in Hx. injection Hx as <-.
        assert (Hsplit : content_size dd' heap2
                         = (content_size to heap2
                            + sum_sizes ((fun s => getSize s heap2)
                                           <$> stolen))%Z).
        { unfold content_size.
          rewrite Hsub, Hfiles, fmap_app, sum_sizes_app. lia. }
        assert (Hstolen : sum_sizes ((fun s => getSize s heap2) <$> stolen)
                          = total).
        { unfold sizes_of. apply sum_sizes_same. intros c Hc.
          rewrite Hs2. unfold getSize.
          destruct (stolen_in_heap c Hc) as (_ & _ & _ & _ & dc & -> & _).
          simpl. rewrite (weight_stolen c Hc). f_equal. lia. }
        rewrite Hsplit, Hstolen, (Hc2 this to Hto), weight_this.
        rewrite (Hcons this to Hto). lia.
      * rewrite (content_size_lists dd' dd heap2 Hfiles Hsub).
        rewrite (Hc2 x dd Hx), (weight_below_other x Hxt Hxd).
        rewrite (Hcons x dd Hx). lia.
  - destruct (Hput this to Hto) as (to' & Hto' & _ & _ & Hsub & Hfiles).
    exists to'. split; [done|]. rewrite Hsub, Hfiles.
    destruct (decide (this = dir)) as [?|_]; [done|].
    by destruct (decide (this = this)).
  - destruct (Hput dir from Hfrom) as (from' & Hfrom' & Hsize & _ & Hsub
                                         & Hfiles).
    exists from'. split; [done|]. rewrite Hsub, Hfiles, Hsize.
    destruct (decide (dir = dir)) as [_|?]; [|done].
    rewrite weight_dir, total_stolen. split; [done|]. split; [done|]. lia.
  - intros d Hd.
    destruct (stolen_in_heap d Hd) as (_ & _ & _ & _ & dd & Hdd & _).
    destruct (Hput d dd Hdd) as (dd' & Hdd' & _ & Hp & _).
    exists dd'. split; [done|]. by rewrite Hp, bool_decide_eq_true_2.
Qed.

End StealSubDirs.

Lemma shares_lookup (d : nat) (dd : FM.Directory) :
  FM.directories Examples.shares !! d = Some dd ->
  (d = 1 /\ dd = FM.mkDirectory None 7 [2; 3] [])
  \/ (d = 2 /\ dd = FM.mkDirectory (Some 1) 7 [4] [])
  \/ (d = 3 /\ dd = FM.mkDirectory (Some 1) 0 [] [])
  \/ (d = 4 /\ dd = FM.mkDirectory (Some 2) 7 [] [11]).
Proof.
  unfold Examples.shares. simpl. intros H.
  apply lookup_insert_Some in H as [[<- <-]|[_ H]]; [by left|].
  apply lookup_insert_Some in H as [[<- <-]|[_ H]]; [by right; left|].
  apply lookup_insert_Some in H as [[<- <-]|[_ H]]; [by right; right; left|].
  apply lookup_insert_Some in H as [[<- <-]|[_ H]];
    [by right; right; right|].
  by rewrite lookup_empty in H.
Qed.

Lemma shares_linked : FM.linked Examples.shares.
Proof.
  split.
  - intros q dq Hq.
    destruct (shares_lookup q dq Hq) as [[-> ->]|[[-> ->]|[[-> ->]|[-> ->]]]];
      simpl.
    + split; [by apply (bool_decide_unpack _)|].
      intros c [->|[->|?%elem_of_nil]%elem_of_cons]%elem_of_cons;
        [by eexists|by eexists|done].
    + split; [apply NoDup_singleton|].
      intros c ->%list_elem_of_singleton. by eexists.
    + split; [apply NoDup_nil_2|]. by intros c ?%elem_of_nil.
    + split; [apply NoDup_nil_2|]. by intros c ?%elem_of_nil.
  - intros c dc p Hc Hp.
    destruct (shares_lookup c dc Hc) as [[-> ->]|[[-> ->]|[[-> ->]|[-> ->]]]];
      simpl in Hp; [done| | |]; injection Hp as <-; eexists;
      (split; [reflexivity|]); simpl.
    + by left.
    + right. by left.
    + by left.
Qed.

Lemma shares_sizes_consistent : sizes_consistent Examples.shares.
Proof.
  intros d dd Hd.
  destruct (shares_lookup d dd Hd) as [[-> ->]|[[-> ->]|[[-> ->]|[-> ->]]]];
    reflexivity.
Qed.

Lemma shares_no_overflow (chain : list nat) (delta : Z) :
  (- 1000 <= delta <= 1000)%Z -> FM.no_overflow chain delta Examples.shares.
Proof.
  intros Hdelta d dd _ Hd. unfold FM.is_qint64.
  destruct (shares_lookup d dd Hd) as [[-> ->]|[[-> ->]|[[-> ->]|[-> ->]]]];
    simpl; lia.
Qed.

Lemma shares_qint64 (d : nat) (dd : FM.Directory) :
  FM.directories Examples.shares !! d = Some dd ->
  FM.is_qint64 (FM.dir_size dd).
Proof.
  intros Hd. unfold FM.is_qint64.
  destruct (shares_lookup d dd Hd) as [[-> ->]|[[-> ->]|[[-> ->]|[-> ->]]]];
    simpl; lia.
Qed.

(** Directory 3 steals the content of directory 2: the 7 bytes of
    directory 4 move from one to the other, and stay in the root. *)
Lemma stealContent_moves_subDirs_witness :
  exists heap',
    FM.stealContent FM.changeDirectory_pointer 2 3 2 Examples.shares
    = Some heap'
    /\ sizes_consistent heap'
    /\ FM.getSize 3 heap' = Some 7%Z
    /\ FM.getSize 2 heap' = Some 0%Z
    /\ FM.getSize 1 heap' = Some 7%Z.
Proof.
  destruct (stealContent_moves_subDirs FM.changeDirectory_pointer 2 3 2
              Examples.shares [3; 1] [2; 1]
              (FM.mkDirectory (Some 1) 0 [] [])
              (FM.mkDirectory (Some 1) 7 [4] [])
              shares_linked)
    as (heap' & Hsteal & _ & Hcons & _); try reflexivity.
  - lia.
  - simpl. intros d ->%list_elem_of_singleton.
    by apply (bool_decide_unpack _).
  - apply shares_qint64.
  - apply shares_sizes_consistent.
  - apply shares_no_overflow. simpl. lia.
  - apply shares_no_overflow. simpl. lia.
  - exists heap'. split; [done|]. split; [done|].
    vm_compute in Hsteal. injection Hsteal as <-. by repeat split.
Defined.

(** ** Part XII -- resolving the directory downloads (C3, C6, C8) *)

Section Resolution.

Import DM.

Variable RESCAN_QUEUE_PERIOD_IF_ERROR : Z.
Variable FILE_QUEUE_VERSION : Z.

Local Abbreviation reachable :=
  (DM.reachable RESCAN_QUEUE_PERIOD_IF_ERROR FILE_QUEUE_VERSION).
Local Abbreviation handle := (DM.handle FILE_QUEUE_VERSION).
Local Abbreviation step := (DM.step FILE_QUEUE_VERSION).
Local Abbreviation run := (DM.run FILE_QUEUE_VERSION).
Local Abbreviation admissible_run := (DM.admissible_run FILE_QUEUE_VERSION).

(** *** One directory download is asked at a time

    While [newEntries] runs, either no retrieval is in flight and no
    directory download is retrieving, or one retrieval is in flight, one
    directory download is retrieving and [retrieveEntries] was called
    once. *)

Definition resolving (base : nat) (this : DownloadManager) : Prop :=
  (retrievingEntries this = false /\ retrieving (downloads this) = 0
   /\ retrieve_calls (log this) = base)
  \/ (retrievingEntries this = true /\ retrieving (downloads this) = 1
      /\ retrieve_calls (log this) = S base).

Lemma retrieving_le_is_Dir (ds : list Download) :
  retrieving ds <= count is_Dir ds.
Proof.
  unfold retrieving. induction ds as [|[f|d] ds IH]; simpl; [done|done|].
  destruct (dd_retrieving d); lia.
Qed.

Lemma resolving_scanTheQueueToRetrieveEntries (base : nat)
    (this : DownloadManager) :
  resolving base this -> resolving base (scanTheQueueToRetrieveEntries this).
Proof.
  intros Hr.
  destruct (scanTheQueueToRetrieveEntries_cases this)
    as [[-> _]|(Hf & pre & d & post & Hds & _ & ->)]; [done|].
  destruct Hr as [(_ & H0 & Hc)|(Ht & _)]; [|congruence].
  right. unfold retrieving, retrieve_calls in *. simpl.
  rewrite Hds in H0. rewrite !count_app in *. simpl in *.
  split; [done|]. split; lia.
Qed.

Lemma resolving_addDownload_at (base : nat) (entry : Entry)
    (peerSource : Hash) (complete : bool) (iterator : nat)
    (this : DownloadManager) :
  resolving base this ->
  resolving base (addDownload_at entry peerSource complete iterator this).
Proof.
  intros Hr. unfold addDownload_at.
  assert (Hins : forall d e,
            is_retrieving d = false -> is_retrieve e = false ->
            resolving base
              (emit e
                 (set_downloads (iterator_insert iterator d (downloads this))
                    (set_nextID (S (nextID this)) this)))).
  { intros d e Hd He. unfold resolving, retrieving, retrieve_calls in *.
    simpl. rewrite count_iterator_insert, count_app, Hd. simpl.
    rewrite He. simpl. rewrite Nat.add_0_r. done. }
  destruct (isEntryAlreadyQueued entry this).
  { unfold resolving, retrieve_calls in *. simpl. rewrite count_app. simpl.
    by rewrite Nat.add_0_r. }
  destruct (entry_type entry).
  - by apply Hins.
  - apply resolving_scanTheQueueToRetrieveEntries.
    unfold resolving, retrieving in *. simpl.
    by rewrite count_iterator_insert.
Qed.

Lemma resolving_newEntries_loop (base : nat)
    (moved : nat -> QListData_insert) (peerSource : Hash)
    (entries : list Entry) (n i : nat) (this : DownloadManager) :
  resolving base this ->
  resolving base (newEntries_loop moved peerSource entries n i this).
Proof.
  revert n i this.
  induction entries as [|e entries IH]; intros n i this H; [done|].
  simpl. by apply IH, resolving_addDownload_at.
Qed.

Lemma retrieving_elem (d : DirDownload) (ds : list Download) :
  Dir d ∈ ds -> dd_retrieving d = true -> 1 <= retrieving ds.
Proof.
  intros Hin Hr. apply list_elem_of_split in Hin as (l1 & l2 & ->).
  unfold retrieving. rewrite count_app. simpl. rewrite Hr. lia.
Qed.

(** What [newEntries] leaves: no retrieval in flight and no directory
    download in the queue, or one retrieval in flight for the one directory
    download that was asked. *)
Lemma newEntries_resolving (d : DirDownload) (entries : list Entry)
    (moved : nat -> QListData_insert) (this : DownloadManager)
    (pre post : list Download) :
  queue_inv this ->
  downloads this = pre ++ Dir d :: post -> dd_retrieving d = true ->
  let this' := newEntries d entries moved this in
  retrieving (pre ++ post) = 0
  /\ (count is_Dir (downloads this') = 0 ->
      retrievingEntries this' = false
      /\ retrieve_calls (log this') = retrieve_calls (log this))
  /\ (count is_Dir (downloads this') <> 0 ->
      retrievingEntries this' = true
      /\ retrieving (downloads this') = 1
      /\ retrieve_calls (log this') = S (retrieve_calls (log this))).
Proof.
  intros (_ & Hid & _ & H1 & _) Hds Hr this'.
  assert (Hpre : Forall (fun x => getID x <> dd_id d) pre).
  { rewrite Hds, fmap_app, fmap_cons in Hid.
    apply NoDup_app in Hid as (_ & Hd & _).
    apply Forall_forall. intros x Hx Heq.
    apply (Hd (getID x)); [by apply list_elem_of_fmap_2|].
    rewrite Heq. by left. }
  assert (H0 : retrieving (pre ++ post) = 0).
  { unfold retrieving in *. rewrite Hds, count_app in H1. simpl in H1.
    rewrite Hr in H1. rewrite count_app. lia. }
  split; [done|].
  assert (Hres : resolving (retrieve_calls (log this)) this').
  { subst this'. rewrite (newEntries_found d entries moved this pre post Hds Hpre).
    apply resolving_scanTheQueueToRetrieveEntries, resolving_newEntries_loop.
    by left. }
  assert (Haw : awaited this').
  { subst this'. rewrite (newEntries_found d entries moved this pre post Hds Hpre).
    apply awaited_scanTheQueueToRetrieveEntries. }
  pose proof (retrieving_le_is_Dir (downloads this')) as Hle.
  split.
  - intros Hc. destruct Hres as [(? & _ & ?)|(_ & ? & _)]; [done|lia].
  - intros Hc. destruct Haw as [?|Ht]; [done|].
    destruct Hres as [(? & _)|?]; [congruence|done].
Qed.

(** When no retrieval is in flight, the scan asks the first directory
    download of the queue. *)
Lemma scan_first_directory (that : DownloadManager) (pre : list Download)
    (d : DirDownload) (post : list Download) :
  retrievingEntries that = false ->
  downloads that = pre ++ Dir d :: post -> count is_Dir pre = 0 ->
  scanTheQueueToRetrieveEntries that
  = set_retrievingEntries true
      (emit (Call_retrieveEntries (dd_id d))
         (set_downloads (pre ++ Dir (retrieveEntries d) :: post) that)).
Proof.
  intros Hr Hds Hpre.
  destruct (scanTheQueueToRetrieveEntries_cases that)
    as [[_ [Hr'|Hc]]|(_ & pre' & d' & post' & Hds' & Hpre' & ->)].
  - congruence.
  - rewrite Hds, count_app in Hc. simpl in Hc. lia.
  - assert (Heq : pre = pre' /\ d = d' /\ post = post').
    { rewrite Hds in Hds'. clear - Hds' Hpre Hpre'.
      revert pre' Hds' Hpre'.
      induction pre as [|x pre IH]; intros [|x' pre'] Hds' Hpre';
        simplify_eq/=; try done.
      - destruct (IH ltac:(destruct (is_Dir x'); [done|lia]) pre')
          as (-> & -> & ->); try done.
        destruct (is_Dir x'); [done|lia]. }
    by destruct Heq as (-> & -> & ->).
Qed.

(** A directory that is added when no retrieval is in flight is asked for
    its entries. *)
Lemma addDownload_directory (entry : Entry) (peerSource : Hash)
    (this : DownloadManager) :
  awaited this ->
  entry_type entry = Entry_Type_DIR ->
  isEntryAlreadyQueued entry this = false ->
  retrievingEntries this = false ->
  addDownload entry peerSource this
  = set_retrievingEntries true
      (emit (Call_retrieveEntries (nextID this))
         (set_downloads
            (downloads this
             ++ [Dir (retrieveEntries
                        (new_DirDownload (nextID this) peerSource entry))])
            (set_nextID (S (nextID this)) this))).
Proof.
  intros Ha Hty Hnq Hr.
  unfold addDownload, addDownload_at. rewrite Hnq, Hty.
  rewrite (scan_first_directory _ (downloads this)
             (new_DirDownload (nextID this) peerSource entry) []).
  - done.
  - done.
  - simpl. by rewrite iterator_insert_back.
  - destruct Ha as [Ha|Ha]; [done|congruence].
Qed.

(** C6.  In every reachable state at most one directory download is
    retrieving its entries, and none is when no retrieval is in flight.
    [scanTheQueueToRetrieveEntries] returns at once when a retrieval is in
    flight; otherwise, in whatever state it is called, it calls
    [retrieveEntries] on the first directory download of the queue, and on
    no other, and sets the flag (it does nothing when the queue holds no
    directory download).  A handler that finds the flag set and leaves it
    cleared is [newEntries].  [newEntries] from a queued directory download
    that is retrieving clears the flag, removes the sender, adds the
    children and ends by entering the scan again: when it returns, either
    the queue holds no directory download, no retrieval is in flight and
    [retrieveEntries] was not called, or the flag is set, exactly one
    directory download is retrieving and [retrieveEntries] was called once.
    [addDownload] of a directory that is not queued, when no retrieval is in
    flight, appends it, calls [retrieveEntries] on it and sets the flag. *)
Theorem one_DirDownload_retrieving (number_of_downloader : Z)
    (store : PersistentData) (this : DownloadManager) :
  reachable number_of_downloader store this ->
  retrieving (downloads this) <= 1
  /\ (retrievingEntries this = false -> retrieving (downloads this) = 0)
  /\ (retrievingEntries this = true ->
      scanTheQueueToRetrieveEntries this = this)
  /\ (forall that pre d post,
        retrievingEntries that = false ->
        downloads that = pre ++ Dir d :: post -> count is_Dir pre = 0 ->
        scanTheQueueToRetrieveEntries that
        = set_retrievingEntries true
            (emit (Call_retrieveEntries (dd_id d))
               (set_downloads (pre ++ Dir (retrieveEntries d) :: post) that)))
  /\ (forall that,
        retrievingEntries that = false -> count is_Dir (downloads that) = 0 ->
        scanTheQueueToRetrieveEntries that = that)
  /\ (forall input this',
        step this input this' ->
        retrievingEntries this = true -> retrievingEntries this' = false ->
        exists d entries moved, input = In_newEntries d entries moved)
  /\ (forall d entries moved,
        admissible (In_newEntries d entries moved) this ->
        exists pre post,
          downloads this = pre ++ Dir d :: post
          /\ newEntries d entries moved this
             = scanTheQueueToRetrieveEntries
                 (newEntries_loop moved (dd_peerSourceID d) entries 0
                    (length pre)
                    (set_downloads (pre ++ post)
                       (set_retrievingEntries false this)))
          /\ retrieving (pre ++ post) = 0
          /\ let this' := newEntries d entries moved this in
             (count is_Dir (downloads this') = 0 ->
              retrievingEntries this' = false
              /\ retrieve_calls (log this') = retrieve_calls (log this))
             /\ (count is_Dir (downloads this') <> 0 ->
                 retrievingEntries this' = true
                 /\ retrieving (downloads this') = 1
                 /\ retrieve_calls (log this')
                    = S (retrieve_calls (log this))))
  /\ (forall entry peerSource,
        entry_type entry = Entry_Type_DIR ->
        isEntryAlreadyQueued entry this = false ->
        retrievingEntries this = false ->
        addDownload entry peerSource this
        = set_retrievingEntries true
            (emit (Call_retrieveEntries (nextID this))
               (set_downloads
                  (downloads this
                   ++ [Dir (retrieveEntries
                              (new_DirDownload (nextID this) peerSource
                                 entry))])
                  (set_nextID (S (nextID this)) this)))).
Proof.
  intros Hreach.
  destruct (reachable_inv _ _ _ _ _ Hreach) as [Hq _].
  pose proof Hq as (Hk & Hid & Hlt & H1 & H0).
  split; [done|]. split; [done|].
  split; [|split; [apply scan_first_directory|split; [|split; [|split]]]].
  - intros Hr. unfold scanTheQueueToRetrieveEntries. by rewrite Hr.
  - intros that Hr Hc. unfold scanTheQueueToRetrieveEntries. rewrite Hr.
    destruct (scanTheQueueToRetrieveEntries_loop (downloads that))
      as [[id ds']|] eqn:Hl; [|done].
    apply retrieve_loop_Some in Hl as (pre & d & post & Hds & _).
    rewrite Hds, count_app in Hc. simpl in Hc. lia.
  - intros input this' Hstep Ht Hf. destruct Hstep as [input Hadm].
    by apply (retrievingEntries_handle FILE_QUEUE_VERSION input this).
  - intros d entries moved [Hin Hr].
    destruct (sender_found d (downloads this) Hid Hin)
      as (pre & post & Hds & Hf).
    exists pre, post. split; [done|].
    assert (Hpre : Forall (fun x => getID x <> dd_id d) pre).
    { rewrite Hds, fmap_app, fmap_cons in Hid.
      apply NoDup_app in Hid as (_ & Hd & _).
      apply Forall_forall. intros x Hx Heq.
      apply (Hd (getID x)); [by apply list_elem_of_fmap_2|].
      rewrite Heq. by left. }
    split; [by apply newEntries_found|].
    apply (newEntries_resolving d entries moved this pre post Hq Hds Hr).
  - intros entry peerSource. apply addDownload_directory.
    by eapply reachable_awaited.
Qed.

(** *** The queue after [newEntries] *)

Lemma filter_all {A} (p : A -> bool) (l : list A) :
  Forall (fun x => p x = true) l -> List.filter p l = l.
Proof.
  induction 1 as [|x l Hx Hl IH]; [done|]. simpl. by rewrite Hx, IH.
Qed.

Lemma filter_none {A} (p : A -> bool) (l : list A) :
  Forall (fun x => p x = false) l -> List.filter p l = [].
Proof.
  induction 1 as [|x l Hx Hl IH]; [done|]. simpl. by rewrite Hx, IH.
Qed.

Lemma filter_none_inv {A} (p : A -> bool) (l : list A) :
  List.filter p l = [] -> Forall (fun x => p x = false) l.
Proof.
  induction l as [|x l IH]; simpl; [constructor|].
  destruct (p x) eqn:Hx; [done|]. constructor; auto.
Qed.

Lemma newEntries_queue (d : DirDownload) (entries : list Entry)
    (moved : nat -> QListData_insert) (this : DownloadManager)
    (pre post : list Download) :
  queue_inv this ->
  downloads this = pre ++ Dir d :: post ->
  let queue := describe <$> downloads (newEntries d entries moved this) in
  queue
  = splice moved (dd_peerSourceID d) entries 0 (length pre) (nextID this)
      (describe <$> pre ++ post)
  /\ List.filter (fun x => x.1 <? nextID this) queue = describe <$> pre ++ post
  /\ List.filter (fun x => nextID this <=? x.1) queue
     ≡ₚ children (dd_peerSourceID d) (getEntry <$> pre ++ post) (nextID this)
          entries
  /\ (forall e, e ∈ entries ->
        key e ∈ keys (downloads (newEntries d entries moved this)))
  /\ dd_id d ∉ getID <$> downloads (newEntries d entries moved this).
Proof.
  intros (_ & Hid & Hlt & _) Hds queue.
  assert (Hpre : Forall (fun x => getID x <> dd_id d) pre).
  { rewrite Hds, fmap_app, fmap_cons in Hid.
    apply NoDup_app in Hid as (_ & Hd & _).
    apply Forall_forall. intros x Hx Heq.
    apply (Hd (getID x)); [by apply list_elem_of_fmap_2|].
    rewrite Heq. by left. }
  assert (Hqueue : queue
            = splice moved (dd_peerSourceID d) entries 0 (length pre)
                (nextID this) (describe <$> pre ++ post))
    by apply (newEntries_describe d entries moved this pre post Hds Hpre).
  assert (Hold : Forall (fun x : nat * Queue_Entry => x.1 < nextID this)
                   (describe <$> pre ++ post)).
  { apply Forall_fmap. rewrite Hds in Hlt.
    apply Forall_app in Hlt as [H1 [_ H2]%Forall_cons].
    apply Forall_app. by split. }
  assert (Hfilter : List.filter (fun x => x.1 <? nextID this) queue
                    = describe <$> pre ++ post).
  { rewrite Hqueue, splice_old by done. apply filter_all.
    eapply Forall_impl; [exact Hold|]. intros x Hx. by apply Nat.ltb_lt. }
  split; [done|]. split; [done|]. split; [|split].
  - rewrite Hqueue, splice_new by done.
    rewrite filter_none, entries_describe; [done|].
    eapply Forall_impl; [exact Hold|]. intros x Hx. simpl in *.
    by apply Nat.leb_gt.
  - intros e He. rewrite keys_qkeys. fold queue. rewrite Hqueue.
    by apply splice_keys.
  - rewrite ids_describe. fold queue.
    intros (x & Hx & Hin)%list_elem_of_fmap.
    assert (Hx' : x ∈ List.filter (fun x => x.1 <? nextID this) queue).
    { apply list_elem_of_In, filter_In. split; [by apply list_elem_of_In|].
      apply Nat.ltb_lt. rewrite <- Hx. rewrite Hds in Hlt.
      by apply Forall_app in Hlt as [_ [? _]%Forall_cons]. }
    rewrite Hfilter in Hx'.
    apply list_elem_of_fmap in Hx' as (y & -> & Hy). simpl in Hx.
    rewrite Hds, fmap_app, fmap_cons in Hid.
    apply NoDup_app in Hid as (_ & Hd1 & [Hd2 _]%NoDup_cons).
    apply elem_of_app in Hy as [Hy|Hy].
    + apply (Hd1 (getID y)); [by apply list_elem_of_fmap_2|].
      rewrite <- Hx. by left.
    + apply Hd2. simpl. rewrite Hx. by apply list_elem_of_fmap_2.
Qed.

(** C3, where the code departs from it.  When [newEntries] is delivered
    for a directory download that stands in the queue of a reachable state,
    the placeholder leaves the queue and the other downloads keep their
    order; the new downloads are the children: one per received entry whose
    key is not queued when its turn comes, in some order; with no entry the
    placeholder is just removed.  Where the children stand depends on what
    the iterator of [newEntries] designates after each insertion, that is
    on what [QListData::insert] did to the array.  As long as the array is
    not reallocated, they stand together where the placeholder stood.  They
    are in the order received when every insertion moved the items in front
    of the position, and in the reverse of it when every insertion appended
    or moved the items behind the position. *)
Theorem newEntries_children_order (number_of_downloader : Z)
    (store : PersistentData) (this : DownloadManager) (d : DirDownload)
    (entries : list Entry) (moved : nat -> QListData_insert)
    (pre post : list Download) :
  reachable number_of_downloader store this ->
  downloads this = pre ++ Dir d :: post ->
  let queue := describe <$> downloads (newEntries d entries moved this) in
  let new :=
    children (dd_peerSourceID d) (getEntry <$> pre ++ post) (nextID this)
      entries in
  List.filter (fun x => x.1 <? nextID this) queue = describe <$> pre ++ post
  /\ List.filter (fun x => nextID this <=? x.1) queue ≡ₚ new
  /\ (entries = [] -> queue = describe <$> pre ++ post)
  /\ ((forall n position, moved n <> reallocated position) ->
      exists block,
        queue = (describe <$> pre) ++ block ++ (describe <$> post)
        /\ block ≡ₚ new)
  /\ ((forall n, moved n = moved_items_in_front) ->
      queue = (describe <$> pre) ++ new ++ (describe <$> post))
  /\ ((forall n, moved n = moved_items_behind) ->
      queue = (describe <$> pre) ++ rev new ++ (describe <$> post)).
Proof.
  intros Hreach Hds queue new.
  destruct (reachable_inv _ _ _ _ _ Hreach) as [Hq _].
  destruct (newEntries_queue d entries moved this pre post Hq Hds)
    as (Hqueue & Hold & Hnew & _).
  fold queue in Hqueue, Hold, Hnew. fold new in Hnew.
  split; [done|]. split; [done|].
  assert (Hentries : (fun x : nat * Queue_Entry => qe_entry x.2)
                       <$> (describe <$> pre) ++ [] ++ (describe <$> post)
                     = getEntry <$> pre ++ post).
  { simpl. by rewrite <- fmap_app, entries_describe. }
  split; [|split; [|split]].
  - intros ->. by rewrite Hqueue.
  - intros Hmoved.
    destruct (splice_block moved (dd_peerSourceID d) entries 0 (nextID this)
                (nextID this) 0 (describe <$> pre) [] (describe <$> post)
                Hmoved)
      as (block & Hblock & Hall); [done|constructor|done|].
    rewrite Nat.add_0_r, length_fmap in Hblock. simpl in Hblock.
    rewrite <- fmap_app, <- Hqueue in Hblock.
    exists block. split; [done|].
    assert (Hlt : Forall (fun x : nat * Queue_Entry =>
                            (nextID this <=? x.1) = false)
                    (describe <$> pre ++ post)).
    { destruct Hq as (_ & _ & Hlt & _). rewrite Hds in Hlt.
      apply Forall_app in Hlt as [H1 [_ H2]%Forall_cons].
      apply Forall_fmap, Forall_app.
      split; (eapply Forall_impl; [eassumption|]); intros x Hx; simpl in *;
        by apply Nat.leb_gt. }
    rewrite fmap_app in Hlt. apply Forall_app in Hlt as [Hlt1 Hlt2].
    rewrite <- Hnew, Hblock, !List.filter_app.
    rewrite (filter_none _ _ Hlt1), (filter_none _ _ Hlt2), app_nil_r.
    simpl. rewrite filter_all; [done|].
    eapply Forall_impl; [exact Hall|]. intros x Hx. by apply Nat.leb_le.
  - intros Hmoved. rewrite Hqueue, fmap_app.
    rewrite <- (length_fmap describe pre).
    pose proof (splice_in_front moved (dd_peerSourceID d) entries 0
                  (nextID this) (describe <$> pre) [] (describe <$> post)
                  Hmoved) as H.
    rewrite app_nil_r in H. simpl in H. rewrite H.
    simpl in Hentries. by rewrite Hentries.
  - intros Hmoved. rewrite Hqueue, fmap_app.
    rewrite <- (length_fmap describe pre).
    pose proof (splice_behind moved (dd_peerSourceID d) entries 0
                  (nextID this) (describe <$> pre) [] (describe <$> post)
                  Hmoved) as H.
    simpl in H. rewrite H, app_nil_r.
    simpl in Hentries. by rewrite Hentries.
Qed.

(** *** No downloader *)

(** A retrieval marked in flight while no directory download is
    retrieving: every input leaves it so, and [retrieveEntries] is not
    called. *)
Lemma blocked_handle (input : Input) (this : DownloadManager) :
  retrievingEntries this = true -> retrieving (downloads this) = 0 ->
  admissible input this ->
  retrievingEntries (handle input this) = true
  /\ retrieving (downloads (handle input this)) = 0
  /\ retrieve_calls (log (handle input this)) = retrieve_calls (log this).
Proof.
  intros Hr H0 Hadm.
  assert (Hview : forall this',
            in_flight_view this' = in_flight_view this ->
            retrievingEntries this' = true
            /\ retrieving (downloads this') = 0
            /\ retrieve_calls (log this') = retrieve_calls (log this)).
  { unfold in_flight_view. intros this' [= -> -> ->]. done. }
  destruct input; cbn [DM.handle].
  - by apply Hview, in_flight_addDownload_at.
  - apply Hview. unfold fileCacheLoaded. rewrite loadQueueFromFile_cases.
    simpl.
    destruct (FILE_QUEUE (persistent this)) as [| |q];
      unfold in_flight_view, retrieve_calls; simpl;
      rewrite ?count_app; simpl; rewrite ?Nat.add_0_r; try done.
    destruct (to_int (queue_version q) =? FILE_QUEUE_VERSION)%Z.
    + by apply in_flight_replay.
    + simpl. rewrite !count_app. simpl. by rewrite !Nat.add_0_r.
  - destruct Hadm as [Hin Hd].
    pose proof (retrieving_elem _ _ Hin Hd). lia.
  - simpl. split; [done|]. split; [|done].
    pose proof (count_removal is_retrieving _ _
                  (removeOne_removal download (downloads this))) as Hc.
    unfold retrieving in *. lia.
  - apply Hview. unfold peerNoLongerDownloadingChunk.
    apply in_flight_queue_view; [apply queue_view_scanTheQueue|].
    apply retrieve_calls_scanTheQueue.
  - apply Hview. apply in_flight_queue_view; [apply queue_view_timeout|].
    unfold timeout. by rewrite retrieve_calls_scanTheQueue.
  - apply Hview.
    by apply in_flight_queue_view; [apply queue_view_hashReceived|].
  - apply Hview.
    apply in_flight_queue_view; [apply queue_view_downloadFinished|].
    unfold downloadFinished, chunkDownloadFinished.
    destruct (match _ with Some _ => _ | None => _ end); [|done].
    unfold retrieve_calls. simpl. rewrite count_app. simpl.
    by rewrite Nat.add_0_r.
  - apply Hview.
    by apply in_flight_queue_view; [apply queue_view_fileCompleted|].
Qed.

Lemma blocked_run (inputs : list Input) (this : DownloadManager) :
  retrievingEntries this = true -> retrieving (downloads this) = 0 ->
  admissible_run inputs this ->
  retrievingEntries (run inputs this) = true
  /\ retrieving (downloads (run inputs this)) = 0
  /\ retrieve_calls (log (run inputs this)) = retrieve_calls (log this).
Proof.
  revert this. induction inputs as [|input inputs IH]; intros this Hr H0 Hadm;
    [done|].
  destruct Hadm as [Hadm Hrun]. simpl.
  destruct (blocked_handle input this Hr H0 Hadm) as (Hr' & H0' & <-).
  by apply IH.
Qed.

(** C8, where the code departs from it.  When the configured maximum is
    0, in every reachable state the counter is 0, no chunk download is
    DOWNLOADING, [startDownloading] was never called and [scanTheQueue]
    changes nothing.  A directory that is added when no retrieval is in
    flight is asked for its entries, and a directory download that is
    retrieving is resolved all the same: the [newEntries] that answers
    removes it, leaves every child entry queued and, when a directory
    download is left in the queue, has [retrieveEntries] called on one.
    But a directory download that is queued while a retrieval is marked in
    flight and no directory download is retrieving (the one that was has
    been deleted) is not resolved: whatever the inputs that follow, the
    mark stays, no directory download retrieves and [retrieveEntries] is
    not called. *)
Theorem no_downloader (number_of_downloader : Z) (store : PersistentData)
    (this : DownloadManager) :
  to_int number_of_downloader = 0%Z ->
  reachable number_of_downloader store this ->
  numberOfDownload this = 0%Z
  /\ downloading (downloads this) = 0
  /\ count is_start_attempt (log this) = 0
  /\ (forall oracle, scanTheQueue oracle this = this)
  /\ (forall entry peerSource,
        entry_type entry = Entry_Type_DIR ->
        isEntryAlreadyQueued entry this = false ->
        retrievingEntries this = false ->
        addDownload entry peerSource this
        = set_retrievingEntries true
            (emit (Call_retrieveEntries (nextID this))
               (set_downloads
                  (downloads this
                   ++ [Dir (retrieveEntries
                              (new_DirDownload (nextID this) peerSource
                                 entry))])
                  (set_nextID (S (nextID this)) this))))
  /\ (forall d entries moved,
        admissible (In_newEntries d entries moved) this ->
        let this' := newEntries d entries moved this in
        (dd_id d ∉ getID <$> downloads this')
        /\ (forall e, e ∈ entries -> key e ∈ keys (downloads this'))
        /\ (count is_Dir (downloads this') <> 0 ->
            retrievingEntries this' = true
            /\ retrieving (downloads this') = 1
            /\ retrieve_calls (log this') = S (retrieve_calls (log this))))
  /\ (retrievingEntries this = true -> retrieving (downloads this) = 0 ->
      forall inputs,
        admissible_run inputs this ->
        retrievingEntries (run inputs this) = true
        /\ retrieving (downloads (run inputs this)) = 0
        /\ retrieve_calls (log (run inputs this)) = retrieve_calls (log this)).
Proof.
  intros HN Hreach.
  destruct (reachable_inv _ _ _ _ _ Hreach) as (Hq & Hc & HN').
  destruct Hc as (H1 & H2 & H3 & H4 & H5 & _).
  rewrite HN in HN'. rewrite HN' in *.
  assert (Hn : numberOfDownload this = 0%Z) by lia.
  split; [done|]. split; [lia|]. split; [by apply H5|].
  split; [intros oracle; apply scanTheQueue_no_budget; lia|].
  split; [|split].
  - intros entry peerSource. apply addDownload_directory.
    by eapply reachable_awaited.
  - intros d entries moved [Hin Hr] this'.
    destruct Hq as (Hk & Hid & Hq').
    destruct (sender_found d (downloads this) Hid Hin)
      as (pre & post & Hds & _).
    assert (Hq : queue_inv this) by done.
    destruct (newEntries_queue d entries moved this pre post Hq Hds)
      as (_ & _ & _ & Hkeys & Hgone).
    destruct (newEntries_resolving d entries moved this pre post Hq Hds Hr)
      as (_ & _ & Hdir).
    done.
  - intros Hr H0 inputs. by apply blocked_run.
Qed.

End Resolution.

(** *** The theorems at work *)

Lemma queue_x_y_d_reachable (n : Z) :
  DM.reachable Examples.period Examples.version n Examples.store
    (Examples.queue_x_y_d n).
Proof.
  unfold Examples.queue_x_y_d.
  repeat (apply reachable_handle; [|exact I]). apply DM.reachable_new.
Qed.

Lemma queue_d_e_reachable (n : Z) :
  DM.reachable Examples.period Examples.version n Examples.store
    (Examples.queue_d_e n).
Proof.
  unfold Examples.queue_d_e.
  repeat (apply reachable_handle; [|exact I]). apply DM.reachable_new.
Qed.

Lemma stuck_reachable :
  DM.reachable Examples.period Examples.version 0 Examples.store
    Examples.stuck.
Proof.
  unfold Examples.stuck.
  apply reachable_handle; [|exact I].
  apply reachable_handle; [apply queue_d_reachable|].
  intros d [->|Hd]%elem_of_cons _; [exact I|by apply elem_of_nil in Hd].
Qed.

(** C3 at the queue [x.bin; y.bin; d], the directory resolving to
    [a.bin; b.bin].  The placeholder is the last item: [a.bin] is appended,
    the iterator of [newEntries] still designates the place where [a.bin]
    stands now, and [b.bin] is inserted in front of it.  At the queue
    [x.bin; d; y.bin], when the insertion of [a.bin] moves [x.bin] down,
    the children are in the order received; the third child has the key of
    [y.bin] and is dropped, so that nothing is inserted after [b.bin] and
    what its insertion does to the array does not matter. *)
Lemma newEntries_children_order_witness :
  DM.getEntry <$>
    DM.downloads
      (DM.newEntries Examples.sender_last [Examples.file_a; Examples.file_b]
         Examples.moves_behind (Examples.queue_x_y_d 2))
  = [Examples.file_x; Examples.file_y; Examples.file_b; Examples.file_a]
  /\ DM.getEntry <$>
       DM.downloads
         (DM.newEntries Examples.sender
            [Examples.file_a; Examples.file_b; Examples.file_y']
            Examples.moves_in_front (Examples.queue_x_d_y 2))
     = [Examples.file_x; Examples.file_a; Examples.file_b; Examples.file_y].
Proof.
  split.
  - destruct (newEntries_children_order Examples.period Examples.version 2
                Examples.store (Examples.queue_x_y_d 2) Examples.sender_last
                [Examples.file_a; Examples.file_b] Examples.moves_behind
                [Examples.download_x;
                 DM.File (DM.new_FileDownload 1 Examples.peer Examples.file_y
                            false)]
                [] (queue_x_y_d_reachable 2) eq_refl)
      as (_ & _ & _ & _ & _ & H).
    rewrite <- entries_describe, (H (fun _ => eq_refl)). reflexivity.
  - destruct (newEntries_children_order Examples.period Examples.version 2
                Examples.store (Examples.queue_x_d_y 2) Examples.sender
                [Examples.file_a; Examples.file_b; Examples.file_y']
                Examples.moves_in_front [Examples.download_x]
                [Examples.download_y] (queue_x_d_y_reachable 2) eq_refl)
      as (_ & _ & _ & _ & H & _).
    rewrite <- entries_describe, (H (fun _ => eq_refl)). reflexivity.
Defined.

(** C6 at the queue [d; e], where [d] is retrieving and [e] waits: the
    scan returns at once; when [d] resolves to [a.bin], [e] is the first
    directory download of the queue and is asked. *)
Lemma one_DirDownload_retrieving_witness :
  DM.retrieving (DM.downloads (Examples.queue_d_e 2)) <= 1
  /\ DM.scanTheQueueToRetrieveEntries (Examples.queue_d_e 2)
     = Examples.queue_d_e 2
  /\ let this' :=
       DM.newEntries Examples.sender_first [Examples.file_a]
         Examples.moves_behind (Examples.queue_d_e 2) in
     DM.retrievingEntries this' = true
     /\ DM.retrieving (DM.downloads this') = 1
     /\ DM.log this'
        = DM.log (Examples.queue_d_e 2)
          ++ [DM.Call_start 2; DM.Call_retrieveEntries 1]
     /\ DM.is_retrieving <$> DM.downloads this' = [false; true].
Proof.
  pose proof (one_DirDownload_retrieving Examples.period Examples.version 2
                Examples.store (Examples.queue_d_e 2)
                (queue_d_e_reachable 2))
    as (H1 & _ & H3 & H4 & _ & _ & H7 & _).
  split; [done|]. split; [by apply H3|].
  destruct (H7 Examples.sender_first [Examples.file_a] Examples.moves_behind)
    as (pre & post & Hds & Hnew & _ & _ & Hdir).
  { split; [by left|done]. }
  assert (pre = []) as ->.
  { destruct pre as [|x pre]; [done|].
    vm_compute in Hds. injection Hds as _ Hds.
    destruct pre as [|y pre]; [done|].
    injection Hds as _ Hds. by destruct pre. }
  assert (post = [DM.Dir (DM.new_DirDownload 1 Examples.peer Examples.dir_e)])
    as -> by (vm_compute in Hds; by injection Hds as <-).
  intros this'. destruct Hdir as (Ht & Hr & _); [by vm_compute|].
  split; [done|]. split; [done|].
  subst this'. rewrite Hnew.
  rewrite (H4 _ [DM.File (DM.new_FileDownload 2 Examples.peer Examples.file_a
                            false)]
             (DM.new_DirDownload 1 Examples.peer Examples.dir_e) []);
    [|reflexivity..].
  split; reflexivity.
Defined.

(** C8 at a manager without downloader.  The directory [d] is added and
    asked for its entries: [newEntries] with [a.bin] and the directory [e]
    removes [d] and [e] is asked.  When [d] is deleted instead and [e] is
    added, [e] is queued and never asked. *)
Lemma no_downloader_witness :
  DM.is_retrieving <$> DM.downloads Examples.queue_d = [true]
  /\ (let this' :=
     DM.newEntries Examples.sender_first [Examples.file_a; Examples.dir_e]
       Examples.moves_behind Examples.queue_d in
   (0 ∉ DM.getID <$> DM.downloads this')
   /\ DM.retrievingEntries this' = true
   /\ DM.retrieving (DM.downloads this') = 1)
  /\ DM.downloads Examples.stuck
     = [DM.Dir (DM.new_DirDownload 1 Examples.peer Examples.dir_e)]
  /\ DM.numberOfDownload Examples.stuck = 0%Z
  /\ forall inputs,
       DM.admissible_run Examples.version inputs Examples.stuck ->
       DM.retrievingEntries (DM.run Examples.version inputs Examples.stuck)
       = true
       /\ DM.retrieving
            (DM.downloads (DM.run Examples.version inputs Examples.stuck))
          = 0
       /\ retrieve_calls
            (DM.log (DM.run Examples.version inputs Examples.stuck))
          = 1.
Proof.
  split; [|split; [|split; [reflexivity|]]].
  - pose proof (no_downloader Examples.period Examples.version 0
                  Examples.store (Examples.manager 0) eq_refl
                  (DM.reachable_new _ _ _ _))
      as (_ & _ & _ & _ & H5 & _).
    unfold Examples.queue_d. cbn [DM.handle].
    by rewrite (H5 Examples.dir_d Examples.peer eq_refl eq_refl eq_refl).
  - pose proof (no_downloader Examples.period Examples.version 0
                  Examples.store Examples.queue_d eq_refl queue_d_reachable)
      as (_ & _ & _ & _ & _ & H5 & _).
    destruct (H5 Examples.sender_first [Examples.file_a; Examples.dir_e]
                Examples.moves_behind) as (Hgone & _ & Hdir).
    { split; [by left|done]. }
    intros this'. split; [done|].
    destruct Hdir as (Ht & Hr & _); [by vm_compute|]. done.
  - pose proof (no_downloader Examples.period Examples.version 0
                  Examples.store Examples.stuck eq_refl stuck_reachable)
      as (H1 & _ & _ & _ & _ & _ & H6).
    split; [done|]. intros inputs Hrun.
    by destruct (H6 eq_refl eq_refl inputs Hrun) as (-> & -> & ->).
Defined.
